(** * AKARI-Markdown.js: a shallow embedding of the incremental renderer

    The development follows [akari-markdown.js] (v1.2.0, with the v1.1.0
    variants where the two releases differ).  JavaScript strings are
    sequences of UTF-16 code units, modelled as [list Z]; the DOM is a tree
    of text, element and comment nodes; the collaborators the component
    imports (marked, DOMPurify, KaTeX, mermaid, the browser's HTML parser and
    serializer) are Section variables. *)

From Stdlib Require Import ZArith List Lia Bool String Ascii Permutation.
From Stdlib Require Decimal DecimalString DecimalNat.
Import ListNotations.

Open Scope Z_scope.

(** * The embedding *)

(** ** JavaScript strings *)

Module JS.

Definition jsstring := list Z.

(** A source literal, one code unit per (ASCII) character. *)
Definition lit (s : string) : jsstring :=
  map (fun a => Z.of_N (N_of_ascii a)) (list_ascii_of_string s).

Definition LF : Z := 10.
Definition BACKTICK : Z := 96.
Definition DOLLAR : Z := 36.
Definition BACKSLASH : Z := 92.

Definition str_eqb (a b : jsstring) : bool :=
  if list_eq_dec Z.eq_dec a b then true else false.

Definition length (s : jsstring) : Z := Z.of_nat (List.length s).

(** [s.startsWith(p)], also the sticky match of a literal at the head of [s]. *)
Fixpoint starts_with (p s : jsstring) : bool :=
  match p, s with
  | [], _ => true
  | _ :: _, [] => false
  | a :: p', b :: s' => (a =? b) && starts_with p' s'
  end.

(** [s.indexOf(p)] as an offset from the head of [s]. *)
Fixpoint indexOf_nat (p s : jsstring) : option nat :=
  if starts_with p s then Some O
  else match s with
       | [] => None
       | _ :: s' => option_map S (indexOf_nat p s')
       end.

Definition includes (s p : jsstring) : bool :=
  match indexOf_nat p s with Some _ => true | None => false end.

(** [s.lastIndexOf(p)]: the greatest index at which [p] occurs. *)
Fixpoint lastIndexOf_nat (p s : jsstring) : option nat :=
  match s with
  | [] => if starts_with p [] then Some O else None
  | _ :: s' =>
      match lastIndexOf_nat p s' with
      | Some i => Some (S i)
      | None => if starts_with p s then Some O else None
      end
  end.

(** JavaScript reports a miss as [-1]. *)
Definition lastIndexOf (s p : jsstring) : Z :=
  match lastIndexOf_nat p s with
  | Some i => Z.of_nat i
  | None => -1
  end.

(** [s.slice(start)]: a negative [start] counts from the end. *)
Definition slice (s : jsstring) (start : Z) : jsstring :=
  let len := length s in
  let from := if start <? 0 then Z.max (len + start) 0 else Z.min start len in
  skipn (Z.to_nat from) s.

(** WhiteSpace and LineTerminator code units: what [trim] strips and what
    the regular-expression class [\s] matches. *)
Definition is_ws (c : Z) : bool :=
  ((9 <=? c) && (c <=? 13)) || (c =? 32) || (c =? 160) || (c =? 5760)
  || ((8192 <=? c) && (c <=? 8202)) || (c =? 8232) || (c =? 8233)
  || (c =? 8239) || (c =? 8287) || (c =? 12288) || (c =? 65279).

Fixpoint drop_ws (s : jsstring) : jsstring :=
  match s with
  | [] => []
  | c :: s' => if is_ws c then drop_ws s' else s
  end.

Definition trim (s : jsstring) : jsstring :=
  List.rev (drop_ws (List.rev (drop_ws s))).

(** [/^\s*```/.test(s)] *)
Definition test_ws_fence (s : jsstring) : bool :=
  starts_with (lit "```") (drop_ws s).

End JS.

Import JS.

(** A source text as the host hands it over: a string, or nothing. *)
Inductive jsval : Type :=
| JSUndefined
| JSNull
| JSString (s : jsstring).

(** [!v] for the values a source text can be. *)
Definition falsy (v : jsval) : bool :=
  match v with
  | JSString (_ :: _) => false
  | _ => true
  end.

(** Any value, as a caller may pass it to [render] and as a [throw] may
    carry it: beside the values above a number (an integer stands for any
    number but [NaN]), a boolean or an object.  Of these only the truth
    value matters here, and that they have none of the methods of a
    string. *)
Inductive jsany : Type :=
| OfVal (v : jsval)
| JSNumber (n : Z)
| JSBool (b : bool)
| JSObject (ref : nat).

(** [!v] for any value. *)
Definition falsy_any (v : jsany) : bool :=
  match v with
  | OfVal v => falsy v
  | JSNumber n => n =? 0
  | JSBool b => negb b
  | JSObject _ => false
  end.

(** ** Fence completeness detector *)

(** The part both releases share: locate the last occurrence of the search
    suffix in the accumulated source and test what follows it. *)
Definition fence_follows (latestMarkdown searchPart : jsstring) : bool :=
  let index := lastIndexOf latestMarkdown searchPart in
  if index =? -1 then false
  else
    let stringAfter := slice latestMarkdown (index + JS.length searchPart) in
    test_ws_fence stringAfter.

(** The two releases under [src/]; they differ in a few places only. *)
Inductive release : Type := v1_1_0 | v1_2_0.

Definition searchPart_of (rel : release) (trimmedSnippet : jsstring) : jsstring :=
  match rel with
  | v1_2_0 => slice trimmedSnippet (- Z.min (JS.length trimmedSnippet) 50)
  | v1_1_0 => slice trimmedSnippet (-20)
  end.

Definition _checkMermaidIntegrity (rel : release) (latestMarkdown : jsval)
  (codeSnippet : jsstring) : bool :=
  match latestMarkdown with
  | JSString ((_ :: _) as md) =>
      let trimmedSnippet := trim codeSnippet in
      if JS.length trimmedSnippet =? 0 then false
      else fence_follows md (searchPart_of rel trimmedSnippet)
  | _ => false
  end.

(** ** Fingerprint *)

(** ToInt32 of a mathematical integer. *)
Definition toInt32 (x : Z) : Z :=
  let m := x mod 2 ^ 32 in
  if 2 ^ 31 <=? m then m - 2 ^ 32 else m.

(** One round of the loop of [_hashCode]:
    [hash = ((hash << 5) - hash) + char; hash = hash & hash]. *)
Definition hash_step (hash char : Z) : Z :=
  let hash := (toInt32 (Z.shiftl (toInt32 hash) 5) - hash) + char in
  toInt32 hash.

Definition digit36 (d : Z) : Z :=
  if d <? 10 then 48 + d else 97 + (d - 10).

Fixpoint to_radix36 (fuel : nat) (n : Z) (acc : jsstring) : jsstring :=
  match fuel with
  | O => acc
  | S fuel' =>
      let acc' := digit36 (n mod 36) :: acc in
      if n / 36 =? 0 then acc' else to_radix36 fuel' (n / 36) acc'
  end.

(** [Number.prototype.toString(36)] on the int32 range (seven base-36
    digits cover [2^31]). *)
Definition toString36 (x : Z) : jsstring :=
  if x <? 0 then 45 :: to_radix36 7 (- x) [] else to_radix36 7 x [].

Definition _hashCode (str : jsstring) : jsstring :=
  toString36 (fold_left hash_step str 0).

(** ** HTML escaping *)

Definition escape_char (c : Z) : jsstring :=
  if c =? 38 then lit "&amp;"
  else if c =? 60 then lit "&lt;"
  else if c =? 62 then lit "&gt;"
  else if c =? 34 then lit "&quot;"
  else if c =? 39 then lit "&#039;"
  else [c].

Definition _escapeHtml (text : jsstring) : jsstring :=
  flat_map escape_char text.

(** ** The rendered tree *)

#[warnings="-register-all"]
Inductive node : Type :=
| TextNode (data : jsstring)
| ElementNode (tagName : jsstring) (attributes : list (jsstring * jsstring))
              (childNodes : list node)
| CommentNode (data : jsstring).

(** Induction over a tree, with the property at hand for every child. *)
Section NodeInduction.

Variable P : node -> Prop.
Hypothesis P_text : forall d, P (TextNode d).
Hypothesis P_comment : forall d, P (CommentNode d).
Hypothesis P_element :
  forall t attrs kids, Forall P kids -> P (ElementNode t attrs kids).

Fixpoint node_forall_ind (n : node) : P n :=
  match n with
  | TextNode d => P_text d
  | CommentNode d => P_comment d
  | ElementNode t attrs kids =>
      P_element t attrs kids
        ((fix all (l : list node) : Forall P l :=
            match l with
            | [] => Forall_nil P
            | k :: l' => Forall_cons k (node_forall_ind k) (all l')
            end) kids)
  end.

End NodeInduction.

Module DOM.

Definition TEXT_NODE : Z := 3.
Definition ELEMENT_NODE : Z := 1.
Definition COMMENT_NODE : Z := 8.

Definition nodeType (n : node) : Z :=
  match n with
  | TextNode _ => TEXT_NODE
  | ElementNode _ _ _ => ELEMENT_NODE
  | CommentNode _ => COMMENT_NODE
  end.

(** [tagName] is [undefined] on nodes that are not elements. *)
Definition tagName (n : node) : option jsstring :=
  match n with
  | ElementNode t _ _ => Some t
  | _ => None
  end.

Definition opt_str_eqb (a b : option jsstring) : bool :=
  match a, b with
  | Some x, Some y => str_eqb x y
  | None, None => true
  | _, _ => false
  end.

Fixpoint textContent (n : node) : jsstring :=
  match n with
  | TextNode d => d
  | CommentNode d => d
  | ElementNode _ _ kids =>
      (fix concat_text (l : list node) : jsstring :=
         match l with
         | [] => []
         | TextNode d :: l' => d ++ concat_text l'
         | CommentNode _ :: l' => concat_text l'
         | (ElementNode _ _ _ as e) :: l' => textContent e ++ concat_text l'
         end) kids
  end.

Fixpoint lookup_attr (name : jsstring) (attrs : list (jsstring * jsstring))
  : option jsstring :=
  match attrs with
  | [] => None
  | (k, v) :: attrs' => if str_eqb k name then Some v else lookup_attr name attrs'
  end.

(** [getAttribute] answers [null] for a missing attribute and for a node
    that is not an element. *)
Definition getAttribute (n : node) (name : jsstring) : option jsstring :=
  match n with
  | ElementNode _ attrs _ => lookup_attr name attrs
  | _ => None
  end.

(** ASCII whitespace, the separator of a DOM token list. *)
Definition is_ascii_ws (c : Z) : bool :=
  (c =? 9) || (c =? 10) || (c =? 12) || (c =? 13) || (c =? 32).

(** The tokens of a [class] attribute. *)
Fixpoint split_tokens (cur : jsstring) (s : jsstring) : list jsstring :=
  match s with
  | [] => match cur with [] => [] | _ => [List.rev cur] end
  | c :: s' =>
      if is_ascii_ws c
      then match cur with
           | [] => split_tokens [] s'
           | _ => List.rev cur :: split_tokens [] s'
           end
      else split_tokens (c :: cur) s'
  end.

Definition classList (n : node) : list jsstring :=
  match getAttribute n (lit "class") with
  | Some v => split_tokens [] v
  | None => []
  end.

Definition classList_contains (n : node) (token : jsstring) : bool :=
  existsb (str_eqb token) (classList n).

(** [className] reflects the [class] attribute, [""] when it is absent. *)
Definition className (n : node) : jsstring :=
  match getAttribute n (lit "class") with
  | Some v => v
  | None => []
  end.

(** [node.dataset.rendered === "true"] *)
Definition dataset_rendered_true (n : node) : bool :=
  opt_str_eqb (getAttribute n (lit "data-rendered")) (Some (lit "true")).

Definition is_svg_tag (t : jsstring) : bool :=
  str_eqb t (lit "svg") || str_eqb t (lit "SVG").

(** Does some element of the forest, at any depth, carry the tag [svg]? *)
Fixpoint has_svg (n : node) : bool :=
  match n with
  | ElementNode t _ kids =>
      is_svg_tag t
      || (fix any (l : list node) : bool :=
            match l with
            | [] => false
            | k :: l' => has_svg k || any l'
            end) kids
  | _ => false
  end.

(** [node.querySelector('svg')] is truthy: a proper descendant is an [svg]. *)
Definition querySelector_svg (n : node) : bool :=
  match n with
  | ElementNode _ _ kids => existsb has_svg kids
  | _ => false
  end.

(** [cloneNode(true)]: nodes are values, a deep copy is the same value. *)
Definition cloneNode (n : node) : node := n.

End DOM.

Import DOM.

(** ** Tree reconciler *)

(** What one round of the loop of [_updateDOM] does to the container. *)
Inductive mutation : Type :=
| AppendChild (n : node)
| RemoveChild (i : nat)
| ReplaceChild (i : nat) (n : node)
| SetTextContent (i : nat) (s : jsstring).

(** The decision taken for a position present on both sides. *)
Inductive action : Type :=
| Keep
| ReplaceWith (n : node)
| UpdateText (s : jsstring).

(** The live container during one call: the snapshot positions of
    [oldNodes] (a removed child leaves [None]), the children appended after
    them, and the mutations performed so far. *)
Record container_state : Type := mkContainer {
  slots : list (option node);
  appended : list node;
  mutations : list mutation
}.

Fixpoint set_slot (i : nat) (v : option node) (l : list (option node))
  : list (option node) :=
  match l, i with
  | [], _ => []
  | _ :: l', O => v :: l'
  | x :: l', S i' => x :: set_slot i' v l'
  end.

Fixpoint live (l : list (option node)) : list node :=
  match l with
  | [] => []
  | Some n :: l' => n :: live l'
  | None :: l' => live l'
  end.

Definition children (st : container_state) : list node :=
  live (slots st) ++ appended st.

Section Reconciler.

(** The browser's serializer ([outerHTML]) and fragment parser (assignment to
    [innerHTML]). *)
Variable outerHTML : node -> jsstring.
Variable parseHTML : jsstring -> list node.

Variable rel : release.

(** The old node already holds its rendered diagram. *)
Definition materialized (oldNode : node) : bool :=
  match rel with
  | v1_2_0 => dataset_rendered_true oldNode
  | v1_1_0 => querySelector_svg oldNode
  end.

Definition truthy (s : option jsstring) : bool :=
  match s with
  | Some (_ :: _) => true
  | _ => false
  end.

Definition reconcile (newNode oldNode : node) : action :=
  if negb (nodeType newNode =? nodeType oldNode)
     || negb (opt_str_eqb (tagName newNode) (tagName oldNode))
  then ReplaceWith (cloneNode newNode)
  else if nodeType newNode =? TEXT_NODE
  then
    if negb (str_eqb (textContent newNode) (textContent oldNode))
    then UpdateText (textContent newNode)
    else Keep
  else if nodeType newNode =? ELEMENT_NODE
  then
    if classList_contains newNode (lit "mermaid")
       && classList_contains oldNode (lit "mermaid")
       && materialized oldNode
       && (let newHash := getAttribute newNode (lit "data-code") in
           let oldHash := getAttribute oldNode (lit "data-code") in
           truthy newHash && opt_str_eqb newHash oldHash)
    then Keep
    else if negb (str_eqb (outerHTML newNode) (outerHTML oldNode))
    then
      if str_eqb (className newNode) (className oldNode)
      then ReplaceWith (cloneNode newNode)
      else ReplaceWith (cloneNode newNode)
    else Keep
  else Keep.

Definition loop_body (newNodes oldNodes : list node) (st : container_state)
  (i : nat) : container_state :=
  match nth_error oldNodes i with
  | None =>
      match nth_error newNodes i with
      | Some newNode =>
          mkContainer (slots st) (appended st ++ [cloneNode newNode])
                      (mutations st ++ [AppendChild (cloneNode newNode)])
      | None => st
      end
  | Some oldNode =>
      match nth_error newNodes i with
      | None =>
          mkContainer (set_slot i None (slots st)) (appended st)
                      (mutations st ++ [RemoveChild i])
      | Some newNode =>
          match reconcile newNode oldNode with
          | Keep => st
          | ReplaceWith n =>
              mkContainer (set_slot i (Some n) (slots st)) (appended st)
                          (mutations st ++ [ReplaceChild i n])
          | UpdateText s =>
              mkContainer (set_slot i (Some (TextNode s)) (slots st))
                          (appended st)
                          (mutations st ++ [SetTextContent i s])
          end
      end
  end.

Definition updateDOM_nodes (oldNodes newNodes : list node) : container_state :=
  let maxLen := Nat.max (List.length newNodes) (List.length oldNodes) in
  fold_left (loop_body newNodes oldNodes) (seq 0 maxLen)
            (mkContainer (map Some oldNodes) [] []).

(** *** The loop read position by position *)

Definition apply_action (a : action) (oldNode : node) : node :=
  match a with
  | Keep => oldNode
  | ReplaceWith n => n
  | UpdateText s => TextNode s
  end.

Definition action_mutations (i : nat) (a : action) : list mutation :=
  match a with
  | Keep => []
  | ReplaceWith n => [ReplaceChild i n]
  | UpdateText s => [SetTextContent i s]
  end.

Definition slot_of (newNodes oldNodes : list node) (i : nat) : option node :=
  match nth_error oldNodes i with
  | None => None
  | Some oldNode =>
      match nth_error newNodes i with
      | None => None
      | Some newNode => Some (apply_action (reconcile newNode oldNode) oldNode)
      end
  end.

Definition appended_of (newNodes oldNodes : list node) (i : nat) : list node :=
  match nth_error oldNodes i with
  | None =>
      match nth_error newNodes i with
      | Some newNode => [cloneNode newNode]
      | None => []
      end
  | Some _ => []
  end.

Definition mutations_of (newNodes oldNodes : list node) (i : nat) : list mutation :=
  match nth_error oldNodes i with
  | None =>
      match nth_error newNodes i with
      | Some newNode => [AppendChild (cloneNode newNode)]
      | None => []
      end
  | Some oldNode =>
      match nth_error newNodes i with
      | None => [RemoveChild i]
      | Some newNode => action_mutations i (reconcile newNode oldNode)
      end
  end.

(** The children the loop leaves behind, by recursion on the two lists. *)
Fixpoint patched (oldNodes newNodes : list node) : list node :=
  match oldNodes, newNodes with
  | _, [] => []
  | [], _ => map cloneNode newNodes
  | o :: os, n :: ns => apply_action (reconcile n o) o :: patched os ns
  end.

(** The snapshot position a mutation touches; an append touches none. *)
Definition mutation_index (m : mutation) : option nat :=
  match m with
  | AppendChild _ => None
  | RemoveChild i => Some i
  | ReplaceChild i _ => Some i
  | SetTextContent i _ => Some i
  end.

(** [_updateDOM(container, newHtmlString)]: the container's children after
    the call and the mutations it performed. *)
Definition _updateDOM (container : list node) (newHtmlString : jsstring)
  : list node * list mutation :=
  let st := updateDOM_nodes container (parseHTML newHtmlString) in
  (children st, mutations st).

End Reconciler.

(** ** Placeholder codec *)

(** [String(n)] for a counter value. *)
Definition dec (n : nat) : jsstring :=
  lit (DecimalString.NilEmpty.string_of_uint (Nat.to_uint n)).

Record math_entry : Type := mkMath { tex : jsstring; display : bool }.

(** The three fields of the component the codec works on.  A JavaScript
    [Map] iterates in insertion order: an association list. *)
Record codec_state : Type := mkCodec {
  counter : nat;
  codeMap : list (jsstring * jsstring);
  mathMap : list (jsstring * math_entry)
}.

(** [Map.prototype.set]: an existing key keeps its place. *)
Fixpoint map_set {V : Type} (key : jsstring) (v : V) (m : list (jsstring * V))
  : list (jsstring * V) :=
  match m with
  | [] => [(key, v)]
  | (k, w) :: m' =>
      if str_eqb k key then (k, v) :: m' else (k, w) :: map_set key v m'
  end.

Module Regex.

(** A matcher answers, for the text that starts at the current position
    (and whether that position is index 0), the length of the match and its
    capture groups. *)
Definition matcher : Type := bool -> jsstring -> option (nat * list jsstring).

Definition fence : jsstring := lit "```".

(** [/(\n|^)```[\s\S]*?```/] *)
Definition code_block : matcher := fun at_start s =>
  let body (prefix : jsstring) (after : jsstring) :=
    if starts_with fence after
    then match indexOf_nat fence (skipn 3 after) with
         | Some k => Some (List.length prefix + 3 + k + 3, [prefix])%nat
         | None => None
         end
    else None in
  let by_newline :=
    match s with
    | c :: s1 => if c =? LF then body [LF] s1 else None
    | [] => None
    end in
  match by_newline with
  | Some r => Some r
  | None => if at_start then body [] s else None
  end.

(** What [.] refuses. *)
Definition is_line_terminator (c : Z) : bool :=
  (c =? 10) || (c =? 13) || (c =? 8232) || (c =? 8233).

Fixpoint count_backticks (s : jsstring) : nat :=
  match s with
  | c :: s' => if c =? BACKTICK then S (count_backticks s') else O
  | [] => O
  end.

(** The lazy [(.*?)] followed by the back-reference: the nearest place
    where [delim] stands, with no line terminator on the way. *)
Fixpoint find_close (delim s : jsstring) : option nat :=
  if starts_with delim s then Some O
  else match s with
       | [] => None
       | c :: s' =>
           if is_line_terminator c then None
           else option_map S (find_close delim s')
       end.

(** The greedy [(`+)] gives back one backtick at a time. *)
Fixpoint try_runs (k : nat) (s : jsstring) : option (nat * list jsstring) :=
  match k with
  | O => None
  | S k' =>
      let delim := repeat BACKTICK k in
      match find_close delim (skipn k s) with
      | Some q => Some (k + q + k, [delim; firstn q (skipn k s)])%nat
      | None => try_runs k' s
      end
  end.

(** [/(`+)(.*?)\1/] *)
Definition inline_code : matcher := fun _ s =>
  try_runs (count_backticks s) s.

(** [/\\\$/] *)
Definition escaped_dollar : matcher := fun _ s =>
  if starts_with [BACKSLASH; DOLLAR] s then Some (2%nat, []) else None.

Definition dollars : jsstring := [DOLLAR; DOLLAR].

(** The nearest [$$] that the end of input or a newline follows. *)
Fixpoint find_block_close (s : jsstring) : option (nat * jsstring) :=
  match s with
  | [] => None
  | _ :: s' =>
      let here :=
        if starts_with dollars s
        then match skipn 2 s with
             | [] => Some (O, [])
             | d :: _ => if d =? LF then Some (O, [LF]) else None
             end
        else None in
      match here with
      | Some r => Some r
      | None =>
          match find_block_close s' with
          | Some (k, suffix) => Some (S k, suffix)
          | None => None
          end
      end
  end.

(** [/(^|\n)\$\$([\s\S]+?)\$\$($|\n)/] *)
Definition math_block : matcher := fun at_start s =>
  let body (prefix : jsstring) (after : jsstring) :=
    if starts_with dollars after
    then match skipn 2 after with
         | [] => None
         | _ :: b' =>
             match find_block_close b' with
             | Some (k, suffix) =>
                 Some (List.length prefix + 2 + S k + 2 + List.length suffix,
                       [prefix; firstn (S k) (skipn 2 after); suffix])%nat
             | None => None
             end
         end
    else None in
  let by_start := if at_start then body [] s else None in
  match by_start with
  | Some r => Some r
  | None =>
      match s with
      | c :: s1 => if c =? LF then body [LF] s1 else None
      | [] => None
      end
  end.

(** The nearest [$] with no newline on the way. *)
Fixpoint find_dollar (s : jsstring) : option nat :=
  match s with
  | [] => None
  | d :: s' =>
      if d =? DOLLAR then Some O
      else if d =? LF then None
      else option_map S (find_dollar s')
  end.

(** [/\$([^\n]+?)\$/] *)
Definition inline_math : matcher := fun _ s =>
  match s with
  | c :: s1 =>
      if c =? DOLLAR
      then match s1 with
           | [] => None
           | c1 :: s2 =>
               if c1 =? LF then None
               else match find_dollar s2 with
                    | Some k => Some (1 + S k + 1, [firstn (S k) s1])%nat
                    | None => None
                    end
           end
      else None
  | [] => None
  end.

(** [/[一-龥]/.test(s)] *)
Definition test_cjk (s : jsstring) : bool :=
  existsb (fun c => (19968 <=? c) && (c <=? 40869)) s.

Section Replace.

Context {St : Type}.
Variable m : matcher.
Variable callback : St -> jsstring -> list jsstring -> St * jsstring.

(** [s.replace(/.../g, callback)]: leftmost matches, none overlapping; the
    callback's effects on the component are threaded through.  [skip] counts
    the code units of the current match still to be passed over.  None of
    the five patterns matches the empty string. *)
Fixpoint replace_g (skip : nat) (at_start : bool) (s : jsstring) (st : St)
  : St * jsstring :=
  match s with
  | [] => (st, [])
  | c :: s' =>
      match skip with
      | S k => replace_g k false s' st
      | O =>
          match m at_start s with
          | Some (S len, groups) =>
              let '(st1, r) := callback st (firstn (S len) s) groups in
              let '(st2, out) := replace_g len false s' st1 in
              (st2, r ++ out)
          | _ =>
              let '(st1, out) := replace_g O false s' st in
              (st1, c :: out)
          end
      end
  end.

End Replace.

(** What a global replace visits, from left to right: the matches of the
    pattern, with their capture groups, and the code units between them. *)
Inductive piece : Type :=
| Between (c : Z)
| Matched (matched : jsstring) (groups : list jsstring).

Definition source_of (p : piece) : jsstring :=
  match p with
  | Between c => [c]
  | Matched matched _ => matched
  end.

(** The traversal of [replace_g] without the callback. *)
Fixpoint pieces (m : matcher) (skip : nat) (at_start : bool) (s : jsstring)
  : list piece :=
  match s with
  | [] => []
  | c :: s' =>
      match skip with
      | S k => pieces m k false s'
      | O =>
          match m at_start s with
          | Some (S len, groups) =>
              Matched (firstn (S len) s) groups :: pieces m len false s'
          | _ => Between c :: pieces m O false s'
          end
      end
  end.

(** The callback applied to the matches in turn, its results put in their
    places. *)
Fixpoint rebuild {St : Type}
  (callback : St -> jsstring -> list jsstring -> St * jsstring)
  (ps : list piece) (st : St) : St * jsstring :=
  match ps with
  | [] => (st, [])
  | Between c :: ps' =>
      let '(st1, out) := rebuild callback ps' st in
      (st1, c :: out)
  | Matched matched groups :: ps' =>
      let '(st1, r) := callback st matched groups in
      let '(st2, out) := rebuild callback ps' st1 in
      (st2, r ++ out)
  end.

(** The replacement text of [s.replace(key, value)] with a string pattern:
    [$$], [$&], [$`] and [$'] are interpreted, and there are no captures. *)
Fixpoint get_substitution (matched before after : jsstring) (r : jsstring)
  : jsstring :=
  match r with
  | [] => []
  | c :: r' =>
      if c =? DOLLAR
      then match r' with
           | d :: r'' =>
               if d =? DOLLAR then DOLLAR :: get_substitution matched before after r''
               else if d =? 38 then matched ++ get_substitution matched before after r''
               else if d =? 96 then before ++ get_substitution matched before after r''
               else if d =? 39 then after ++ get_substitution matched before after r''
               else c :: get_substitution matched before after r'
           | [] => [c]
           end
      else c :: get_substitution matched before after r'
  end.

(** [s.replace(key, value)]: the first occurrence only. *)
Definition replace_first (s key value : jsstring) : jsstring :=
  match indexOf_nat key s with
  | None => s
  | Some i =>
      let before := firstn i s in
      let after := skipn (i + List.length key) s in
      before ++ get_substitution key before after value ++ after
  end.

(** [s.split(key).join(r)]: every occurrence, the replacement taken
    literally.  The keys are never empty. *)
Fixpoint split_join (key r : jsstring) (skip : nat) (s : jsstring) : jsstring :=
  match s with
  | [] => []
  | c :: s' =>
      match skip with
      | S k => split_join key r k s'
      | O =>
          if starts_with key s
          then r ++ split_join key r (pred (List.length key)) s'
          else c :: split_join key r O s'
      end
  end.

(** Texts free of the delimiters the protections look for. *)
Definition no_backtick (s : jsstring) : Prop :=
  forallb (fun c => negb (c =? BACKTICK)) s = true.

Definition no_dollar (s : jsstring) : Prop :=
  forallb (fun c => negb (c =? DOLLAR)) s = true.

Definition plain_body (s : jsstring) : Prop :=
  forallb (fun c => negb (c =? DOLLAR) && negb (c =? LF)) s = true.

End Regex.

Module Codec.

Definition key_of (prefix : string) (n : nat) (suffix : string) : jsstring :=
  lit prefix ++ dec n ++ lit suffix.

Definition on_code_block (st : codec_state) (matched : jsstring)
  (_ : list jsstring) : codec_state * jsstring :=
  let key := key_of "CODEBLOCK" (counter st) "ENDCODE" in
  (mkCodec (S (counter st)) (map_set key matched (codeMap st)) (mathMap st), key).

Definition on_inline_code (st : codec_state) (matched : jsstring)
  (_ : list jsstring) : codec_state * jsstring :=
  let key := key_of "CODEINLINE" (counter st) "ENDCODE" in
  (mkCodec (S (counter st)) (map_set key matched (codeMap st)) (mathMap st), key).

Definition on_escaped_dollar (st : codec_state) (matched : jsstring)
  (_ : list jsstring) : codec_state * jsstring :=
  let key := key_of "ESCAPEDDOLLAR" (counter st) "END" in
  (mkCodec (S (counter st)) (map_set key matched (codeMap st)) (mathMap st), key).

Definition on_math_block (st : codec_state) (matched : jsstring)
  (groups : list jsstring) : codec_state * jsstring :=
  let prefix := nth 0 groups [] in
  let tex := nth 1 groups [] in
  let suffix := nth 2 groups [] in
  let key := key_of "MATHBLOCK" (counter st) "ENDMATH" in
  (mkCodec (S (counter st)) (codeMap st)
           (map_set key (mkMath tex true) (mathMap st)),
   prefix ++ key ++ suffix).

Definition on_inline_math (st : codec_state) (matched : jsstring)
  (groups : list jsstring) : codec_state * jsstring :=
  let tex := nth 0 groups [] in
  if Regex.test_cjk tex && negb (includes tex (BACKSLASH :: lit "text"))
  then (st, matched)
  else
    let key := key_of "MATHINLINE" (counter st) "ENDMATH" in
    (mkCodec (S (counter st)) (codeMap st)
             (map_set key (mkMath tex false) (mathMap st)),
     key).

(** The five protections, each on the output of the one before. *)
Definition protect_stages (st : codec_state) (text : jsstring)
  : codec_state * jsstring :=
  let '(st, processed) := Regex.replace_g Regex.code_block on_code_block O true text st in
  let '(st, processed) := Regex.replace_g Regex.inline_code on_inline_code O true processed st in
  let '(st, processed) := Regex.replace_g Regex.escaped_dollar on_escaped_dollar O true processed st in
  let '(st, processed) := Regex.replace_g Regex.math_block on_math_block O true processed st in
  Regex.replace_g Regex.inline_math on_inline_math O true processed st.

(** [this.codeMap.forEach((value, key) => processed = processed.replace(key, value))] *)
Definition restore_code (cm : list (jsstring * jsstring)) (processed : jsstring)
  : jsstring :=
  fold_left (fun acc kv => Regex.replace_first acc (fst kv) (snd kv)) cm processed.

Definition _protectCodeAndMath (st : codec_state) (text : jsval)
  : codec_state * jsstring :=
  match text with
  | JSString ((_ :: _) as t) =>
      let '(st', processed) := protect_stages st t in
      (st', restore_code (codeMap st') processed)
  | _ => (st, [])
  end.

(** *** The tokens of a pass *)

Inductive shape : Type :=
| CodeBlock | CodeInline | EscapedDollar | MathBlock | MathInline.

Definition shape_prefix (sh : shape) : string :=
  match sh with
  | CodeBlock => "CODEBLOCK"
  | CodeInline => "CODEINLINE"
  | EscapedDollar => "ESCAPEDDOLLAR"
  | MathBlock => "MATHBLOCK"
  | MathInline => "MATHINLINE"
  end.

Definition shape_suffix (sh : shape) : string :=
  match sh with
  | CodeBlock | CodeInline => "ENDCODE"
  | EscapedDollar => "END"
  | MathBlock | MathInline => "ENDMATH"
  end.

Definition key (sh : shape) (n : nat) : jsstring :=
  key_of (shape_prefix sh) n (shape_suffix sh).

(** Every token a pass has stored, code tokens first. *)
Definition keys (st : codec_state) : list jsstring :=
  map fst (codeMap st) ++ map fst (mathMap st).

(** Each stored token has one of the five shapes with a counter value
    already passed, no token is stored twice, and every increment of the
    counter has left a token of its own. *)
Definition well_keyed (st : codec_state) : Prop :=
  (forall k, In k (keys st) ->
             exists sh n, k = key sh n /\ (n < counter st)%nat)
  /\ NoDup (keys st)
  /\ List.length (keys st) = counter st.

End Codec.

(** ** Math restore *)

(** What a [throw] or a rejected promise carries: an [Error] (or any object
    with a string [message]), or any other value. *)
Inductive error : Type :=
| mkError (message : jsstring)
| Thrown (v : jsany).

(** [err.message], when that is a string. *)
Definition message (err : error) : option jsstring :=
  match err with
  | mkError m => Some m
  | Thrown _ => None
  end.

(** The [TypeError] of a method call or a property read on a value that has
    no such member; [what] is the engine's message. *)
Definition TypeError (what : string) : error := mkError (lit what).

Inductive result (A : Type) : Type :=
| Ok (a : A)
| Throw (e : error).

Arguments Ok {A} a.
Arguments Throw {A} e.

Section MathRestore.

(** [katex.renderToString(tex, {displayMode, throwOnError: false, output: 'html'})] *)
Variable katex_renderToString : jsstring -> bool -> result jsstring.

Definition restore_one (result0 : jsstring) (kv : jsstring * math_entry)
  : jsstring :=
  let '(key, value) := kv in
  match katex_renderToString (tex value) (display value) with
  | Ok rendered => Regex.split_join key rendered O result0
  | Throw _ => Regex.split_join key (tex value) O result0
  end.

Definition _restoreAndRenderMath (st : codec_state) (html : jsstring) : jsstring :=
  fold_left restore_one (mathMap st) html.

End MathRestore.

(** ** DOM updates used by the sub-render pipeline *)

Module DOMWrite.

Fixpoint set_attr (name v : jsstring) (attrs : list (jsstring * jsstring))
  : list (jsstring * jsstring) :=
  match attrs with
  | [] => [(name, v)]
  | (k, w) :: attrs' =>
      if str_eqb k name then (k, v) :: attrs' else (k, w) :: set_attr name v attrs'
  end.

Definition setAttribute (n : node) (name v : jsstring) : node :=
  match n with
  | ElementNode t attrs kids => ElementNode t (set_attr name v attrs) kids
  | _ => n
  end.

(** The ordered set of a token list drops repeated tokens. *)
Fixpoint ordered_set (seen l : list jsstring) : list jsstring :=
  match l with
  | [] => []
  | t :: l' =>
      if existsb (str_eqb t) seen then ordered_set seen l'
      else t :: ordered_set (t :: seen) l'
  end.

Fixpoint serialize_tokens (l : list jsstring) : jsstring :=
  match l with
  | [] => []
  | [t] => t
  | t :: l' => t ++ 32 :: serialize_tokens l'
  end.

Definition has_class_attr (n : node) : bool :=
  match getAttribute n (lit "class") with Some _ => true | None => false end.

(** The update steps of a token list: nothing is written when there is
    neither an attribute nor a token. *)
Definition write_tokens (n : node) (tokens : list jsstring) : node :=
  match tokens with
  | [] => if has_class_attr n then setAttribute n (lit "class") [] else n
  | _ => setAttribute n (lit "class") (serialize_tokens tokens)
  end.

Definition classList_add (n : node) (token : jsstring) : node :=
  let tokens := ordered_set [] (classList n) in
  write_tokens n (if existsb (str_eqb token) tokens then tokens else tokens ++ [token]).

Definition classList_remove (n : node) (token : jsstring) : node :=
  let tokens := ordered_set [] (classList n) in
  write_tokens n (filter (fun t => negb (str_eqb token t)) tokens).

Definition set_childNodes (n : node) (kids : list node) : node :=
  match n with
  | ElementNode t attrs _ => ElementNode t attrs kids
  | _ => n
  end.

Definition path : Type := list nat.

(** Document order, each element with its child-index path. *)
Fixpoint select_mermaid (n : node) (here_rev : list nat) : list (path * node) :=
  match n with
  | ElementNode _ _ kids =>
      (if classList_contains n (lit "mermaid") then [(List.rev here_rev, n)] else [])
      ++ (fix walk (l : list node) (i : nat) : list (path * node) :=
            match l with
            | [] => []
            | k :: l' => select_mermaid k (i :: here_rev) ++ walk l' (S i)
            end) kids O
  | _ => []
  end.

Fixpoint select_forest (l : list node) (i : nat) : list (path * node) :=
  match l with
  | [] => []
  | k :: l' => select_mermaid k [i] ++ select_forest l' (S i)
  end.

(** [container.querySelectorAll('.mermaid')]: a static list. *)
Definition querySelectorAll_mermaid (container : list node) : list (path * node) :=
  select_forest container O.

Fixpoint replace_nth (i : nat) (f : node -> node) (l : list node) : list node :=
  match l, i with
  | [], _ => []
  | x :: l', O => f x :: l'
  | x :: l', S i' => x :: replace_nth i' f l'
  end.

(** The tree with the node at [p] replaced by [n']. *)
Fixpoint write_at (p : path) (n' : node) (forest : list node) : list node :=
  match p with
  | [] => forest
  | [i] => replace_nth i (fun _ => n') forest
  | i :: p' =>
      replace_nth i
        (fun x => match x with
                  | ElementNode t attrs kids => ElementNode t attrs (write_at p' n' kids)
                  | _ => x
                  end) forest
  end.

Fixpoint is_prefix (p q : path) : bool :=
  match p, q with
  | [], _ => true
  | _ :: _, [] => false
  | a :: p', b :: q' => Nat.eqb a b && is_prefix p' q'
  end.

End DOMWrite.

Import DOMWrite.

(** ** The component *)

Inductive console_entry : Type :=
| ConsoleError (e : error)
| ConsoleWarn (e : error).

Inductive timer : Type :=
| RenderTick (id : nat)
| MermaidTick (id : nat).

Definition timer_id (t : timer) : nat :=
  match t with RenderTick id => id | MermaidTick id => id end.

Record component : Type := mkComponent {
  codec : codec_state;
  _renderTimer : option nat;
  _mermaidTimer : option nat;
  _latestMarkdown : jsany;
  _isRendering : bool;
  _isMermaidWorking : bool;
  container : list node;
  pending : list timer;
  timers_issued : nat;
  random_draws : nat;
  engine_calls : list (jsstring * jsstring);
  console : list console_entry
}.

Definition with_codec (st : codec_state) (c : component) : component :=
  mkComponent st (_renderTimer c) (_mermaidTimer c) (_latestMarkdown c)
    (_isRendering c) (_isMermaidWorking c) (container c) (pending c)
    (timers_issued c) (random_draws c) (engine_calls c) (console c).

Definition with_renderTimer (t : option nat) (c : component) : component :=
  mkComponent (codec c) t (_mermaidTimer c) (_latestMarkdown c)
    (_isRendering c) (_isMermaidWorking c) (container c) (pending c)
    (timers_issued c) (random_draws c) (engine_calls c) (console c).

Definition with_mermaidTimer (t : option nat) (c : component) : component :=
  mkComponent (codec c) (_renderTimer c) t (_latestMarkdown c)
    (_isRendering c) (_isMermaidWorking c) (container c) (pending c)
    (timers_issued c) (random_draws c) (engine_calls c) (console c).

Definition with_latestMarkdown (v : jsany) (c : component) : component :=
  mkComponent (codec c) (_renderTimer c) (_mermaidTimer c) v
    (_isRendering c) (_isMermaidWorking c) (container c) (pending c)
    (timers_issued c) (random_draws c) (engine_calls c) (console c).

Definition with_isRendering (b : bool) (c : component) : component :=
  mkComponent (codec c) (_renderTimer c) (_mermaidTimer c) (_latestMarkdown c)
    b (_isMermaidWorking c) (container c) (pending c)
    (timers_issued c) (random_draws c) (engine_calls c) (console c).

Definition with_isMermaidWorking (b : bool) (c : component) : component :=
  mkComponent (codec c) (_renderTimer c) (_mermaidTimer c) (_latestMarkdown c)
    (_isRendering c) b (container c) (pending c)
    (timers_issued c) (random_draws c) (engine_calls c) (console c).

Definition with_container (l : list node) (c : component) : component :=
  mkComponent (codec c) (_renderTimer c) (_mermaidTimer c) (_latestMarkdown c)
    (_isRendering c) (_isMermaidWorking c) l (pending c)
    (timers_issued c) (random_draws c) (engine_calls c) (console c).

Definition with_pending (l : list timer) (n : nat) (c : component) : component :=
  mkComponent (codec c) (_renderTimer c) (_mermaidTimer c) (_latestMarkdown c)
    (_isRendering c) (_isMermaidWorking c) (container c) l
    n (random_draws c) (engine_calls c) (console c).

Definition with_engine_call (id code : jsstring) (c : component) : component :=
  mkComponent (codec c) (_renderTimer c) (_mermaidTimer c) (_latestMarkdown c)
    (_isRendering c) (_isMermaidWorking c) (container c) (pending c)
    (timers_issued c) (S (random_draws c)) (engine_calls c ++ [(id, code)])
    (console c).

Definition log (e : console_entry) (c : component) : component :=
  mkComponent (codec c) (_renderTimer c) (_mermaidTimer c) (_latestMarkdown c)
    (_isRendering c) (_isMermaidWorking c) (container c) (pending c)
    (timers_issued c) (random_draws c) (engine_calls c) (console c ++ [e]).

(** The constructor's initial fields. *)
Definition new_component : component :=
  mkComponent (mkCodec 0 [] []) None None (OfVal (JSString [])) false false
    [] [] 0 0 [] [].

(** [clearTimeout(id)] *)
Definition clearTimeout (id : option nat) (c : component) : component :=
  match id with
  | Some i =>
      with_pending (filter (fun t => negb (Nat.eqb (timer_id t) i)) (pending c))
                   (timers_issued c) c
  | None => c
  end.

(** [get value()] *)
Definition value (c : component) : jsany := _latestMarkdown c.

(** A computation on the component that may throw. *)
Definition M (A : Type) : Type := component -> component * result A.

Definition ret {A : Type} (a : A) : M A := fun c => (c, Ok a).

Definition bind {A B : Type} (m : M A) (k : A -> M B) : M B :=
  fun c =>
    match m c with
    | (c', Ok a) => k a c'
    | (c', Throw e) => (c', Throw e)
    end.

Definition lift {A : Type} (r : result A) : M A := fun c => (c, r).

Definition modify (f : component -> component) : M unit :=
  fun c => (f c, Ok tt).

Definition gets {A : Type} (f : component -> A) : M A :=
  fun c => (c, Ok (f c)).

(** A computation that leaves the stored source as it found it. *)
Definition keeps_latest {A : Type} (m : M A) : Prop :=
  forall c, _latestMarkdown (fst (m c)) = _latestMarkdown c.

Declare Scope pass_scope.
Delimit Scope pass_scope with pass.
Notation "x <- m ;; k" := (bind m (fun x => k))
  (at level 61, m at next level, right associativity) : pass_scope.
Notation "m ;;; k" := (bind m (fun _ => k))
  (at level 61, right associativity) : pass_scope.

(** [if (hooks.h) x = hooks.h(x)] *)
Definition hooked {A : Type} (h : option (A -> result A)) (x : A) : result A :=
  match h with
  | Some f => f x
  | None => Ok x
  end.

Definition call_hook {A : Type} (h : option (A -> result A)) (x : A) : M A :=
  lift (hooked h x).

Definition QUOTE : Z := 34.

Definition quoted (s : jsstring) : jsstring := QUOTE :: s ++ [QUOTE].

(** ** Passes and sub-render firings *)

Section Component.

Variable rel : release.

(** The collaborators. *)
Variable marked_parse :
  (jsstring -> jsval -> result jsstring) -> jsstring -> result jsstring.
Variable sanitize : jsstring -> list jsstring -> list jsstring -> result jsstring.
Variable katex_renderToString : jsstring -> bool -> result jsstring.
Variable mermaid_render : jsstring -> jsstring -> result jsstring.
Variable hljs_getLanguage : jsstring -> bool.
Variable hljs_highlight : jsstring -> jsstring -> result jsstring.
Variable outerHTML : node -> jsstring.
Variable parseHTML : jsstring -> list node.

(** [_decodeHtml]: what a [textarea] makes of character references. *)
Variable _decodeHtml : jsstring -> jsstring.

(** [Math.random().toString(36).substr(2, 9)] at the n-th draw. *)
Variable random_id : nat -> jsstring.

(** [options.hooks] *)
Variable beforeParse : option (jsany -> result jsany).
Variable afterSanitize : option (jsstring -> result jsstring).
Variable onRendered : option (list node -> result (list node)).

Definition streaming_markup (source : jsstring) : jsstring :=
  lit "<div class=" ++ quoted (lit "mermaid-streaming") ++ lit ">"
  ++ source ++ lit "</div>".

Definition diagram_markup (fingerprint body : jsstring) : jsstring :=
  lit "<div class=" ++ quoted (lit "mermaid") ++ lit " data-code="
  ++ quoted fingerprint ++ lit ">" ++ body ++ lit "</div>".

Definition plain_code_markup (body : jsstring) : jsstring :=
  lit "<pre><code class=" ++ quoted (lit "hljs") ++ lit ">" ++ body
  ++ lit "</code></pre>".

Definition highlighted_markup (lang highlighted : jsstring) : jsstring :=
  lit "<pre><code class=" ++ quoted (lit "hljs language-" ++ lang) ++ lit ">"
  ++ highlighted ++ lit "</code></pre>".

(** The [code] renderer, the stored source being a string, [null] or
    [undefined]. *)
Definition renderer_code (latestMarkdown : jsval) (code : jsstring) (lang : jsval)
  : jsstring :=
  let lang_str := match lang with JSString l => l | _ => [] end in
  let is_mermaid :=
    match rel, lang with
    | v1_2_0, _ => str_eqb lang_str (lit "mermaid")
    | v1_1_0, JSString l => str_eqb l (lit "mermaid")
    | v1_1_0, _ => false
    end in
  if is_mermaid
  then
    match rel with
    | v1_2_0 =>
        let cleanCode := _decodeHtml code in
        let isClosed := _checkMermaidIntegrity rel latestMarkdown cleanCode in
        if negb isClosed
        then streaming_markup (_escapeHtml cleanCode)
        else diagram_markup (_hashCode cleanCode) (_escapeHtml cleanCode)
    | v1_1_0 =>
        let isClosed := _checkMermaidIntegrity rel latestMarkdown code in
        if negb isClosed
        then streaming_markup (_escapeHtml code)
        else diagram_markup (_hashCode code) code
    end
  else
    let fallback :=
      plain_code_markup (match rel with
                         | v1_2_0 => _escapeHtml code
                         | v1_1_0 => code
                         end) in
    if negb (falsy lang) && hljs_getLanguage lang_str
    then match hljs_highlight code lang_str with
         | Ok highlighted => highlighted_markup lang_str highlighted
         | Throw _ => fallback
         end
    else fallback.

(** [lang === 'mermaid'], after [lang = lang || ''] in v1.2.0. *)
Definition is_mermaid_lang (lang : jsval) : bool :=
  match lang with
  | JSString l => str_eqb l (lit "mermaid")
  | _ => false
  end.

(** The renderer as marked calls it, whatever value the stored source is.
    The renderer reads the stored source in [_checkMermaidIntegrity] only: a
    falsy value of any type ends the check at its first line, as [undefined]
    does; a truthy value that is no string has no [lastIndexOf], which the
    check calls once it has found the block's content not blank. *)
Definition renderer (latestMarkdown : jsany) (code : jsstring) (lang : jsval)
  : result jsstring :=
  match latestMarkdown with
  | OfVal v => Ok (renderer_code v code lang)
  | _ =>
      let cleanCode := match rel with
                       | v1_2_0 => _decodeHtml code
                       | v1_1_0 => code
                       end in
      if negb (falsy_any latestMarkdown)
         && is_mermaid_lang lang
         && negb (JS.length (trim cleanCode) =? 0)
      then Throw (TypeError "this._latestMarkdown.lastIndexOf is not a function")
      else Ok (renderer_code JSUndefined code lang)
  end.

(** [_protectCodeAndMath] called with any value: a falsy one gives [''] at
    the first line, a truthy one that is no string has no [replace]. *)
Definition protect_any (st : codec_state) (text : jsany)
  : codec_state * result jsstring :=
  match text with
  | OfVal v =>
      let '(st', processed) := Codec._protectCodeAndMath st v in
      (st', Ok processed)
  | _ =>
      if falsy_any text then (st, Ok [])
      else (st, Throw (TypeError "processed.replace is not a function"))
  end.

(** *** The sub-render pipeline *)

(** The source a node still waits to have drawn, or [None] when the loop
    moves on to the next node. *)
Definition pending_code (n : node) : option jsstring :=
  if querySelector_svg n then None
  else
    match rel with
    | v1_2_0 =>
        let code := _decodeHtml (textContent n) in
        match trim code with
        | [] => None
        | _ :: _ => Some code
        end
    | v1_1_0 =>
        match textContent n with
        | [] => None
        | (_ :: _) as code => Some code
        end
    end.

Definition on_success (n : node) (svg : jsstring) : node :=
  let n := set_childNodes n (parseHTML svg) in
  let n := setAttribute n (lit "data-rendered") (lit "true") in
  match rel with
  | v1_2_0 => classList_remove n (lit "mermaid-error")
  | v1_1_0 => n
  end.

Definition spaces (k : nat) : jsstring := repeat 32 k.

Definition error_markup (code message : jsstring) : jsstring :=
  match rel with
  | v1_2_0 =>
      [LF] ++ spaces 24
      ++ lit "<div class=" ++ quoted (lit "mermaid-error-msg") ++ lit ">"
      ++ [9888; 65039] ++ lit " Mermaid Error:" ++ [LF]
      ++ _escapeHtml message ++ lit "</div>"
      ++ [LF] ++ spaces 24
      ++ lit "<div class=" ++ quoted (lit "mermaid-source") ++ lit ">"
      ++ _escapeHtml code ++ lit "</div>"
      ++ [LF] ++ spaces 20
  | v1_1_0 =>
      lit "<div class=" ++ quoted (lit "mermaid-source") ++ lit ">"
      ++ _escapeHtml code ++ lit "</div>"
  end.

(** The [catch] block, after the warning of v1.2.0.  v1.2.0 builds the
    banner from [_escapeHtml(err.message)], and [_escapeHtml] calls
    [text.replace]: when [err.message] is no string the template throws a
    [TypeError] before anything is written to the node.  v1.1.0 does not
    read the caught value. *)
Definition on_failure (n : node) (code : jsstring) (err : error) : result node :=
  let banner message :=
    classList_add (set_childNodes n (parseHTML (error_markup code message)))
                  (lit "mermaid-error") in
  match rel with
  | v1_1_0 => Ok (banner [])
  | v1_2_0 =>
      match message err with
      | Some m => Ok (banner m)
      | None =>
          Throw (TypeError
                   match err with
                   | Thrown (OfVal JSNull) =>
                       "Cannot read properties of null (reading 'message')"
                   | Thrown (OfVal JSUndefined) =>
                       "Cannot read properties of undefined (reading 'message')"
                   | _ =>
                       "Cannot read properties of undefined (reading 'replace')"
                   end)
      end
  end.

(** One round of [for (const node of nodes)].  [replaced] holds the paths
    whose subtree an earlier round has rebuilt: a node below one of them is
    detached, it is still worked on but the container no longer shows it.
    The stray element that mermaid may leave under [document] is outside the
    container and is not part of this state.  A round ends in [Throw] when
    the [catch] block itself throws. *)
Definition materialize (acc : component * list path) (entry : path * node)
  : (component * list path) * result unit :=
  let '(c, replaced) := acc in
  let '(p, n) := entry in
  match pending_code n with
  | None => (acc, Ok tt)
  | Some code =>
      let id := lit "mermaid-" ++ random_id (random_draws c) in
      let c := with_engine_call id code c in
      let attached := negb (existsb (fun q => is_prefix q p) replaced) in
      let put (n' : node) (c : component) :=
        (if attached then with_container (write_at p n' (container c)) c else c,
         p :: replaced) in
      match mermaid_render id code with
      | Ok svg => (put (on_success n svg) c, Ok tt)
      | Throw err =>
          let c := match rel with
                   | v1_2_0 => log (ConsoleWarn err) c
                   | v1_1_0 => c
                   end in
          match on_failure n code err with
          | Ok n' => (put n' c, Ok tt)
          | Throw e => ((c, replaced), Throw e)
          end
      end
  end.

(** [for (const node of nodes)]: an exception that leaves a round leaves
    the loop. *)
Fixpoint for_of (nodes : list (path * node)) (acc : component * list path)
  : (component * list path) * result unit :=
  match nodes with
  | [] => (acc, Ok tt)
  | entry :: rest =>
      match materialize acc entry with
      | (acc', Ok _) => for_of rest acc'
      | (acc', Throw e) => (acc', Throw e)
      end
  end.

(** The sources a firing hands to the engine when no round throws, in the
    order of the scan. *)
Definition targets (nodes : list (path * node)) : list jsstring :=
  flat_map (fun entry => match pending_code (snd entry) with
                         | Some code => [code]
                         | None => []
                         end) nodes.

(** The callback of the sub-render timer, with what its promise settles
    to.  The flag is cleared by the statement after the loop, which an
    exception leaving the loop does not reach. *)
Definition timer_callback (c : component) : component * result unit :=
  if _isMermaidWorking c then (c, Ok tt)
  else
    let nodes := querySelectorAll_mermaid (container c) in
    match nodes with
    | [] => (c, Ok tt)
    | _ :: _ =>
        let c := with_isMermaidWorking true c in
        match for_of nodes (c, []) with
        | ((c, _), Ok _) => (with_isMermaidWorking false c, Ok tt)
        | ((c, _), Throw e) => (c, Throw e)
        end
    end.

(** The component after the callback has run; nobody awaits its promise. *)
Definition mermaid_timer_fired (c : component) : component :=
  fst (timer_callback c).

Definition setTimeout (t : nat -> timer) (c : component) : component * nat :=
  let id := S (timers_issued c) in
  (with_pending (pending c ++ [t id]) id c, id).

Definition _scheduleMermaidRender (c : component) : component :=
  let c := clearTimeout (_mermaidTimer c) c in
  let '(c, id) := setTimeout MermaidTick c in
  with_mermaidTimer (Some id) c.

Definition _clearTimers (c : component) : component :=
  let c := clearTimeout (_renderTimer c) c in
  let c := clearTimeout (_mermaidTimer c) c in
  with_mermaidTimer None (with_renderTimer None c).

(** *** One pass *)

Definition ADD_ATTR : list jsstring :=
  match rel with
  | v1_2_0 => [lit "target"; lit "class"; lit "data-code"; lit "data-rendered"]
  | v1_1_0 => [lit "target"; lit "class"; lit "data-code"]
  end.

Open Scope pass_scope.

(** The body of the [try] block of [_performRender]. *)
Definition pass_body (forceFullRender : bool) (text : jsany) : M unit :=
  text <- call_hook beforeParse text ;;
  modify (with_codec (mkCodec 0 [] [])) ;;;
  processed <- (fun c =>
                  let '(st, processed) := protect_any (codec c) text in
                  (with_codec st c, processed)) ;;
  html <- (fun c =>
             (c, marked_parse (renderer (_latestMarkdown c)) processed)) ;;
  html <- lift (sanitize html [lit "iframe"] ADD_ATTR) ;;
  html <- call_hook afterSanitize html ;;
  html <- gets (fun c => _restoreAndRenderMath katex_renderToString (codec c) html) ;;
  modify (fun c =>
            if forceFullRender
            then with_container (parseHTML html) c
            else with_container
                   (fst (_updateDOM outerHTML parseHTML rel (container c) html)) c) ;;;
  modify _scheduleMermaidRender ;;;
  kids <- gets container ;;
  kids' <- call_hook onRendered kids ;;
  modify (with_container kids').

Close Scope pass_scope.

Definition _performRender (forceFullRender : bool) (c : component) : component :=
  let text := _latestMarkdown c in
  match pass_body forceFullRender text c with
  | (c', Ok _) => c'
  | (c', Throw err) => log (ConsoleError err) c'
  end.

(** The callback of the pass timer. *)
Definition render_timer_fired (c : component) : component :=
  let c := with_isRendering true c in
  let c := _performRender false c in
  let c := with_isRendering false c in
  with_renderTimer None c.

(** [markdownText || ''] *)
Definition or_empty (markdownText : jsany) : jsany :=
  if falsy_any markdownText then OfVal (JSString []) else markdownText.

Definition render (markdownText : jsany) (force : bool) (c : component)
  : component :=
  let c := with_latestMarkdown (or_empty markdownText) c in
  if force
  then _performRender true (_clearTimers c)
  else if _isRendering c then c
  else
    match _renderTimer c with
    | None =>
        let '(c, id) := setTimeout RenderTick c in
        with_renderTimer (Some id) c
    | Some _ => c
    end.

End Component.

(** ** Character references, as an HTML parser reads them *)

(** What an HTML parser reads in character data, for the five character
    references [_escapeHtml] writes: each stands for its character.  [skip]
    counts the code units of the current reference still to be passed
    over. *)
Fixpoint read_refs (skip : nat) (s : jsstring) : jsstring :=
  match s with
  | [] => []
  | c :: s' =>
      match skip with
      | S k => read_refs k s'
      | O =>
          if starts_with (lit "&amp;") s then 38 :: read_refs 4 s'
          else if starts_with (lit "&lt;") s then 60 :: read_refs 3 s'
          else if starts_with (lit "&gt;") s then 62 :: read_refs 3 s'
          else if starts_with (lit "&quot;") s then 34 :: read_refs 5 s'
          else if starts_with (lit "&#039;") s then 39 :: read_refs 5 s'
          else c :: read_refs O s'
      end
  end.

(** ** Concrete collaborators for the worked cases *)

Module Sample.

(** A serializer in the manner of the browser's [outerHTML]. *)
Fixpoint outerHTML (n : node) : jsstring :=
  match n with
  | TextNode d => _escapeHtml d
  | CommentNode d => lit "<!--" ++ d ++ lit "-->"
  | ElementNode t attrs kids =>
      lit "<" ++ t
      ++ flat_map (fun kv => 32 :: fst kv ++ lit "=" ++ quoted (snd kv)) attrs
      ++ lit ">"
      ++ (fix all (l : list node) : jsstring :=
            match l with
            | [] => []
            | k :: l' => outerHTML k ++ all l'
            end) kids
      ++ lit "</" ++ t ++ lit ">"
  end.

(** A rendered diagram under a [section] tag, and the candidate a later pass
    parses for the same position. *)
Definition rendered_section : node :=
  ElementNode (lit "SECTION")
    [(lit "class", lit "mermaid"); (lit "data-code", lit "behhdq");
     (lit "data-rendered", lit "true")]
    [ElementNode (lit "svg") [] []].

Definition rendered_div : node :=
  ElementNode (lit "DIV")
    [(lit "class", lit "mermaid"); (lit "data-code", lit "behhdq");
     (lit "data-rendered", lit "true")]
    [ElementNode (lit "svg") [] []].

(** A rendered element under the candidate's tag but another class. *)
Definition rendered_chart : node :=
  ElementNode (lit "DIV")
    [(lit "class", lit "chart"); (lit "data-code", lit "behhdq");
     (lit "data-rendered", lit "true")]
    [ElementNode (lit "svg") [] []].

Definition candidate_div : node :=
  ElementNode (lit "DIV")
    [(lit "class", lit "mermaid"); (lit "data-code", lit "behhdq")]
    [TextNode (lit "graph TD; A-->B")].

(** A closed diagram fence, and the same source with the diagram's text
    quoted again in the prose after it. *)
Definition closed_fence : jsstring :=
  lit "```mermaid" ++ [LF] ++ lit "A" ++ [LF] ++ lit "```".

Definition quoted_again : jsstring := [LF] ++ lit "A".

(** Collaborators for the worked cases: a parser that fails, a sanitizer
    that lets everything through, an engine that rejects every diagram, a
    fragment parser that reads its input as one text node, and no character
    reference to decode. *)
Definition marked_throws (_ : jsstring -> jsval -> result jsstring) (_ : jsstring)
  : result jsstring :=
  Throw (mkError (lit "marked(): input parameter is of type [object Object]")).

Definition sanitize_all (html : jsstring) (_ _ : list jsstring) : result jsstring :=
  Ok html.

Definition katex_plain (tex : jsstring) (_ : bool) : result jsstring := Ok tex.

Definition mermaid_rejects (_ _ : jsstring) : result jsstring :=
  Throw (mkError (lit "Parse error on line 1")).

Definition no_language (_ : jsstring) : bool := false.

Definition highlight_plain (code _ : jsstring) : result jsstring := Ok code.

Definition parse_as_text (html : jsstring) : list node := [TextNode html].

Definition decode_plain (html : jsstring) : jsstring := html.

(** An engine that rejects with a plain string, which has no [message]. *)
Definition mermaid_rejects_text (_ _ : jsstring) : result jsstring :=
  Throw (Thrown (OfVal (JSString (lit "Parse error on line 1")))).

(** A [textarea] in the manner of [_decodeHtml], for these references. *)
Definition decode_refs (html : jsstring) : jsstring := read_refs O html.

Definition text_kids (data : jsstring) : list node :=
  match data with
  | [] => []
  | _ :: _ => [TextNode data]
  end.

(** A fragment parser for the one shape the worked cases need: a [div] with
    a class attribute around character data.  Anything else is read as
    text. *)
Definition parse_div (html : jsstring) : list node :=
  let opening := lit "<div class=" ++ [QUOTE] in
  if starts_with opening html
  then
    let rest := skipn (List.length opening) html in
    match indexOf_nat [QUOTE; 62] rest with
    | Some k =>
        let body := skipn (k + 2) rest in
        match indexOf_nat (lit "</div>") body with
        | Some e =>
            [ElementNode (lit "DIV") [(lit "class", firstn k rest)]
               (text_kids (read_refs O (firstn e body)))]
        | None => [TextNode html]
        end
    | None => [TextNode html]
    end
  else [TextNode html].

(** A diagram that is not valid mermaid, pending next to a valid one. *)
Definition broken_div : node :=
  ElementNode (lit "DIV")
    [(lit "class", lit "mermaid"); (lit "data-code", lit "1x")]
    [TextNode (lit "graph ???")].

Definition two_pending : component :=
  mkComponent (mkCodec 0 [] []) None None (OfVal (JSString (lit "two diagrams")))
    false false [broken_div; candidate_div] [] 0 0 [] [].

Definition shown_abc : component :=
  mkComponent (mkCodec 0 [] []) None None (OfVal (JSString (lit "# title")))
    false false [TextNode (lit "abc")] [] 0 0 [] [].

(** A diagram fence still open at the end of the stream. *)
Definition open_fence : jsstring :=
  lit "```mermaid" ++ [LF] ++ lit "graph TD; A-->B".

End Sample.

(** ** Readings for the further properties *)

(** The five characters [_escapeHtml] rewrites. *)
Definition needs_escape (c : Z) : bool :=
  (c =? 38) || (c =? 60) || (c =? 62) || (c =? 34) || (c =? 39).

(** The hash of [_hashCode] before wrap-around: Horner's rule with
    multiplier 31. *)
Definition hash_poly (str : jsstring) : Z :=
  fold_left (fun h c => 31 * h + c) str 0.

(** A digit of base 36 as [toString(36)] writes it. *)
Definition is_base36 (c : Z) : bool :=
  ((48 <=? c) && (c <=? 57)) || ((97 <=? c) && (c <=? 122)).

Definition digit36_value (c : Z) : Z :=
  if c <=? 57 then c - 48 else c - 97 + 10.

(** The number a base-36 numeral denotes, with its sign. *)
Definition parse36_digits (s : jsstring) : Z :=
  fold_left (fun n c => 36 * n + digit36_value c) s 0.

Definition parse36 (s : jsstring) : Z :=
  match s with
  | c :: digits => if c =? 45 then - parse36_digits digits else parse36_digits s
  | [] => 0
  end.

(** A computation that leaves a field of the component as it found it. *)
Definition keeps {A X : Type} (field : component -> X) (m : M A) : Prop :=
  forall c, field (fst (m c)) = field c.

(** Why the reconciler may leave an old node that is not the candidate
    itself: an element that serializes like the candidate, a diagram the
    preservation rule protects, or a comment (comments are never
    compared). *)
Definition kept_reason (outerHTML : node -> jsstring) (rel : release)
  (newNode oldNode : node) : Prop :=
  nodeType oldNode = nodeType newNode
  /\ tagName oldNode = tagName newNode
  /\ match newNode with
     | TextNode _ => False
     | CommentNode _ => True
     | ElementNode _ _ _ =>
         outerHTML newNode = outerHTML oldNode
         \/ (classList_contains newNode (lit "mermaid") = true
             /\ classList_contains oldNode (lit "mermaid") = true
             /\ materialized rel oldNode = true
             /\ truthy (getAttribute newNode (lit "data-code")) = true
             /\ getAttribute newNode (lit "data-code")
                = getAttribute oldNode (lit "data-code"))
     end.

(** A component with a sub-render timer pending and a second pass about to
    re-arm it. *)
Definition debouncing_state : component :=
  mkComponent (mkCodec 0 [] []) (Some 1%nat) (Some 2%nat)
    (OfVal (JSString (lit "text")))
    false false [] [RenderTick 1; MermaidTick 2] 2 0 [] [].

(** * Properties *)

(** *** Facts about the string primitives *)

Section StringFacts.

Lemma starts_with_app (p s : jsstring) :
  starts_with p s = true -> exists r, s = p ++ r.
Proof.
  revert s; induction p as [|a p IH]; intros s H.
  - now exists s.
  - destruct s as [|b s]; [discriminate|].
    cbn in H. apply andb_true_iff in H as [Hab Hps].
    apply Z.eqb_eq in Hab; subst b.
    destruct (IH _ Hps) as [r ->]. now exists r.
Qed.

Lemma starts_with_weaken (p s ext : jsstring) :
  starts_with p s = true -> starts_with p (s ++ ext) = true.
Proof.
  intros H. destruct (starts_with_app _ _ H) as [r ->].
  rewrite <- app_assoc. clear H.
  induction p as [|a p IH]; [reflexivity|].
  cbn. now rewrite Z.eqb_refl.
Qed.

Lemma lastIndexOf_nat_occurs (p s : jsstring) (i : nat) :
  lastIndexOf_nat p s = Some i ->
  exists pre post, s = pre ++ p ++ post /\ List.length pre = i.
Proof.
  revert i; induction s as [|c s IH]; intros i H; cbn [lastIndexOf_nat] in H.
  - destruct (starts_with p []) eqn:E; [|discriminate].
    injection H as <-. destruct (starts_with_app _ _ E) as [r Hr].
    exists [], r. now split.
  - destruct (lastIndexOf_nat p s) as [j|] eqn:Ej.
    + injection H as <-. destruct (IH j eq_refl) as (pre & post & -> & Hlen).
      exists (c :: pre), post. split; [reflexivity|]. cbn. now rewrite Hlen.
    + destruct (starts_with p (c :: s)) eqn:E; [|discriminate].
      injection H as <-. destruct (starts_with_app _ _ E) as [r Hr].
      exists [], r. now split.
Qed.

Lemma drop_ws_split (s : jsstring) :
  exists ws, s = ws ++ drop_ws s /\ forallb is_ws ws = true.
Proof.
  induction s as [|c s (ws & Hs & Hws)].
  - now exists [].
  - cbn [drop_ws]. destruct (is_ws c) eqn:E.
    + exists (c :: ws). split; [cbn; now f_equal|]. cbn. now rewrite E.
    + now exists [].
Qed.

Lemma drop_ws_weaken (s ext : jsstring) :
  drop_ws s <> [] -> drop_ws (s ++ ext) = drop_ws s ++ ext.
Proof.
  induction s as [|c s IH]; cbn [drop_ws app]; [congruence|].
  destruct (is_ws c); auto.
Qed.

Lemma test_ws_fence_weaken (s ext : jsstring) :
  test_ws_fence s = true -> test_ws_fence (s ++ ext) = true.
Proof.
  unfold test_ws_fence. intros H.
  rewrite drop_ws_weaken.
  - now apply starts_with_weaken.
  - intros E. rewrite E in H. discriminate.
Qed.

Lemma slice_nonneg (s : jsstring) (k : nat) :
  slice s (Z.of_nat k) = skipn k s.
Proof.
  unfold slice, JS.length.
  destruct (Z.ltb_spec (Z.of_nat k) 0) as [?|_]; [lia|].
  destruct (Nat.le_gt_cases k (List.length s)) as [Hle|Hgt].
  - rewrite Z.min_l by lia. now rewrite Nat2Z.id.
  - rewrite Z.min_r by lia. rewrite Nat2Z.id.
    rewrite !skipn_all2; auto; lia.
Qed.

End StringFacts.

(** *** What the detector guarantees *)

Section FenceDetector.

Lemma fence_follows_marker (latest sp : jsstring) :
  fence_follows latest sp = true ->
  exists pre ws rest,
    latest = pre ++ sp ++ ws ++ lit "```" ++ rest /\ forallb is_ws ws = true.
Proof.
  unfold fence_follows, lastIndexOf.
  destruct (lastIndexOf_nat sp latest) as [i|] eqn:Ei; [|discriminate].
  destruct (Z.of_nat i =? -1) eqn:En; [discriminate|].
  destruct (lastIndexOf_nat_occurs _ _ _ Ei) as (pre & post & -> & Hlen).
  unfold JS.length. rewrite <- Nat2Z.inj_add, slice_nonneg.
  rewrite <- Hlen, app_assoc, <- length_app, skipn_app, skipn_all, Nat.sub_diag.
  cbn [app skipn]. intros H.
  destruct (drop_ws_split post) as (ws & Hpost & Hws).
  destruct (starts_with_app _ _ H) as [rest Hrest].
  exists pre, ws, rest. split; [|exact Hws].
  rewrite <- Hrest, <- Hpost. now rewrite <- app_assoc.
Qed.

Lemma fence_follows_stable (latest ext sp : jsstring) :
  fence_follows latest sp = true ->
  lastIndexOf (latest ++ ext) sp = lastIndexOf latest sp ->
  fence_follows (latest ++ ext) sp = true.
Proof.
  unfold fence_follows. intros H Hidx. rewrite Hidx.
  unfold lastIndexOf in *.
  destruct (lastIndexOf_nat sp latest) as [i|] eqn:Ei; [|discriminate].
  destruct (Z.of_nat i =? -1) eqn:En; [discriminate|].
  destruct (lastIndexOf_nat_occurs _ _ _ Ei) as (pre & post & E & Hlen).
  unfold JS.length in *. rewrite <- Nat2Z.inj_add, slice_nonneg in *.
  assert (Hle : (i + List.length sp <= List.length latest)%nat).
  { rewrite E, !length_app. lia. }
  rewrite skipn_app.
  replace (i + List.length sp - List.length latest)%nat with O by lia.
  cbn [skipn]. now apply test_ws_fence_weaken.
Qed.

End FenceDetector.

(** *** The reconciler *)

Lemma str_eqb_refl (a : jsstring) : str_eqb a a = true.
Proof. unfold str_eqb. destruct (list_eq_dec Z.eq_dec a a); congruence. Qed.

Lemma str_eqb_eq (a b : jsstring) : str_eqb a b = true <-> a = b.
Proof.
  unfold str_eqb. destruct (list_eq_dec Z.eq_dec a b); split; congruence.
Qed.

Lemma opt_str_eqb_refl (a : option jsstring) : opt_str_eqb a a = true.
Proof. destruct a; cbn; auto using str_eqb_refl. Qed.

Lemma opt_str_eqb_eq (a b : option jsstring) : opt_str_eqb a b = true <-> a = b.
Proof.
  destruct a, b; cbn; try (split; congruence).
  rewrite str_eqb_eq. split; congruence.
Qed.

Lemma skipn_nth_error {A : Type} (l : list A) (n : nat) (a : A) :
  nth_error l n = Some a -> skipn n l = a :: skipn (S n) l.
Proof.
  revert n; induction l as [|x l IH]; intros [|n] H; try discriminate.
  - now injection H as ->.
  - cbn in H. now apply IH.
Qed.

Lemma set_slot_middle (pre : list (option node)) x post v :
  set_slot (List.length pre) v (pre ++ x :: post) = pre ++ v :: post.
Proof. induction pre as [|y pre IH]; cbn; [reflexivity|now rewrite IH]. Qed.

Lemma live_map_Some (l : list node) : live (map Some l) = l.
Proof. induction l; cbn; congruence. Qed.

Lemma fold_left_fixed {A B : Type} (f : A -> B -> A) (l : list B) (a : A) :
  (forall b, In b l -> f a b = a) -> fold_left f l a = a.
Proof.
  induction l as [|b l IH]; intros H; cbn; [reflexivity|].
  rewrite (H b) by now left. apply IH. intros; apply H; now right.
Qed.

Lemma Forall2_nth_error {A B : Type} (R : A -> B -> Prop) l l' :
  Forall2 R l l' ->
  forall i a, nth_error l i = Some a ->
              exists b, nth_error l' i = Some b /\ R a b.
Proof.
  induction 1 as [|x y l l' Hxy _ IH]; intros [|i] a Hi; try discriminate.
  - injection Hi as <-. now exists y.
  - now apply IH.
Qed.

Lemma collect_nth_error {A : Type} (l : list A) :
  flat_map (fun i => match nth_error l i with Some x => [x] | None => [] end)
           (seq 0 (List.length l)) = l.
Proof.
  induction l as [|x l IH]; [reflexivity|].
  cbn [List.length seq flat_map nth_error app].
  rewrite <- seq_shift, flat_map_concat_map, map_map, <- flat_map_concat_map.
  cbn [nth_error]. now rewrite IH.
Qed.

Section ReconcilerFacts.

Variable outerHTML : node -> jsstring.
Variable rel : release.

Lemma reconcile_self (n : node) : reconcile outerHTML rel n n = Keep.
Proof.
  unfold reconcile.
  rewrite Z.eqb_refl, opt_str_eqb_refl, !str_eqb_refl. cbn [negb orb].
  destruct (nodeType n =? TEXT_NODE); [reflexivity|].
  destruct (nodeType n =? ELEMENT_NODE); [|reflexivity].
  now destruct (_ && _).
Qed.

Lemma reconcile_settled (newNode oldNode : node) :
  reconcile outerHTML rel newNode
    (apply_action (reconcile outerHTML rel newNode oldNode) oldNode) = Keep.
Proof.
  destruct (reconcile outerHTML rel newNode oldNode) eqn:E; cbn [apply_action].
  - exact E.
  - assert (n = newNode) as ->; [|apply reconcile_self].
    unfold reconcile, cloneNode in E.
    repeat match type of E with
           | (if ?b then _ else _) = _ => destruct b
           end; congruence.
  - assert (TextNode s = newNode) as <-; [|apply reconcile_self].
    unfold reconcile in E.
    destruct (negb _ || negb _); [discriminate|].
    destruct newNode; cbn in E; try discriminate.
    + destruct (negb _); congruence.
    + repeat match type of E with
             | (if ?b then _ else _) = _ => destruct b
             end; congruence.
Qed.

Lemma loop_invariant (newNodes oldNodes : list node) (n : nat) :
  let st := fold_left (loop_body outerHTML rel newNodes oldNodes) (seq 0 n)
                      (mkContainer (map Some oldNodes) [] []) in
  slots st
  = map (slot_of outerHTML rel newNodes oldNodes)
        (seq 0 (Nat.min n (List.length oldNodes)))
    ++ map Some (skipn n oldNodes)
  /\ appended st = flat_map (appended_of newNodes oldNodes) (seq 0 n)
  /\ mutations st = flat_map (mutations_of outerHTML rel newNodes oldNodes) (seq 0 n).
Proof.
  induction n as [|n (Hs & Ha & Hm)]; [now cbn|].
  rewrite seq_S, fold_left_app. cbn [fold_left Nat.add].
  set (st := fold_left _ (seq 0 n) _) in *.
  rewrite !flat_map_app. cbn [flat_map]. rewrite !app_nil_r.
  assert (ES : slot_of outerHTML rel newNodes oldNodes n
               = slot_of outerHTML rel newNodes oldNodes n) by reflexivity.
  assert (EA : appended_of newNodes oldNodes n
               = appended_of newNodes oldNodes n) by reflexivity.
  assert (EM : mutations_of outerHTML rel newNodes oldNodes n
               = mutations_of outerHTML rel newNodes oldNodes n) by reflexivity.
  unfold slot_of in ES at 2. unfold appended_of in EA at 2.
  unfold mutations_of in EM at 2. unfold loop_body.
  destruct (nth_error oldNodes n) as [o|] eqn:Eo.
  - assert (Hn : (n < List.length oldNodes)%nat)
      by (apply nth_error_Some; congruence).
    rewrite Nat.min_l in Hs by lia. rewrite Nat.min_l by lia.
    rewrite (skipn_nth_error _ _ _ Eo) in Hs. cbn [map] in Hs.
    assert (Hlen : List.length
                     (map (slot_of outerHTML rel newNodes oldNodes) (seq 0 n)) = n)
      by now rewrite length_map, length_seq.
    assert (Hset : forall v,
               set_slot n v (slots st)
               = map (slot_of outerHTML rel newNodes oldNodes) (seq 0 n)
                 ++ v :: map Some (skipn (S n) oldNodes)).
    { intros v. rewrite Hs. rewrite <- Hlen at 1. apply set_slot_middle. }
    rewrite seq_S, map_app, <- app_assoc. cbn [Nat.add map app].
    rewrite EA, EM, ES.
    destruct (nth_error newNodes n) as [nw|] eqn:En.
    + destruct (reconcile outerHTML rel nw o) eqn:Er;
        cbn [slots appended mutations action_mutations apply_action];
        rewrite ?Hset, ?app_nil_r, ?Hm; auto.
    + cbn [slots appended mutations]. rewrite Hset, ?app_nil_r, ?Hm. auto.
  - assert (Hn : (List.length oldNodes <= n)%nat) by now apply nth_error_None.
    rewrite Nat.min_r in Hs by lia. rewrite Nat.min_r by lia.
    rewrite skipn_all2 in Hs by lia. rewrite skipn_all2 by lia.
    cbn [map] in Hs. rewrite app_nil_r in Hs. cbn [map].
    rewrite EA, EM.
    destruct (nth_error newNodes n) as [nw|] eqn:En;
      cbn [slots appended mutations]; rewrite ?app_nil_r, ?Ha, ?Hm; auto.
Qed.

Lemma live_patched (oldNodes newNodes : list node) :
  live (map (slot_of outerHTML rel newNodes oldNodes)
            (seq 0 (List.length oldNodes)))
  ++ flat_map (appended_of newNodes oldNodes)
              (seq 0 (Nat.max (List.length newNodes) (List.length oldNodes)))
  = patched outerHTML rel oldNodes newNodes.
Proof.
  revert newNodes; induction oldNodes as [|o os IH]; intros newNodes.
  - cbn [List.length seq map live app]. rewrite Nat.max_0_r.
    unfold appended_of. cbn [nth_error].
    replace (patched outerHTML rel [] newNodes) with newNodes.
    + erewrite flat_map_ext; [apply collect_nth_error|].
      intros i. rewrite nth_error_nil. unfold cloneNode.
      now destruct (nth_error newNodes i).
    + destruct newNodes; cbn [patched]; [reflexivity|].
      unfold cloneNode. now rewrite map_id.
  - destruct newNodes as [|n ns].
    + cbn [patched List.length Nat.max].
      assert (H : forall k m,
                 live (map (slot_of outerHTML rel [] (o :: os)) (seq k m)) = []
                 /\ flat_map (appended_of [] (o :: os)) (seq k m) = []).
      { intros k m; revert k; induction m as [|m IHm]; intros k; [now cbn|].
        cbn [seq map live flat_map]. destruct (IHm (S k)) as [-> ->].
        unfold slot_of, appended_of.
        destruct (nth_error (o :: os) k); rewrite ?nth_error_nil; now cbn. }
      destruct (H O (S (List.length os))) as [-> ->]. reflexivity.
    + cbn [patched List.length Nat.max seq map live flat_map].
      rewrite <- !seq_shift, map_map, flat_map_concat_map, map_map,
        <- flat_map_concat_map.
      unfold slot_of at 1, appended_of at 1. cbn [nth_error live app].
      f_equal. rewrite <- IH. f_equal.
Qed.

Lemma updateDOM_nodes_children (oldNodes newNodes : list node) :
  children (updateDOM_nodes outerHTML rel oldNodes newNodes)
  = patched outerHTML rel oldNodes newNodes.
Proof.
  unfold updateDOM_nodes, children.
  destruct (loop_invariant newNodes oldNodes
              (Nat.max (List.length newNodes) (List.length oldNodes)))
    as (Hs & Ha & _).
  rewrite Hs, Ha, Nat.min_r, skipn_all2, app_nil_r by lia.
  apply live_patched.
Qed.

Lemma updateDOM_nodes_mutations (oldNodes newNodes : list node) :
  mutations (updateDOM_nodes outerHTML rel oldNodes newNodes)
  = flat_map (mutations_of outerHTML rel newNodes oldNodes)
      (seq 0 (Nat.max (List.length newNodes) (List.length oldNodes))).
Proof.
  unfold updateDOM_nodes.
  now destruct (loop_invariant newNodes oldNodes
                  (Nat.max (List.length newNodes) (List.length oldNodes)))
    as (_ & _ & Hm).
Qed.

Lemma patched_settled (oldNodes newNodes : list node) :
  Forall2 (fun o n => reconcile outerHTML rel n o = Keep)
          (patched outerHTML rel oldNodes newNodes) newNodes.
Proof.
  revert newNodes; induction oldNodes as [|o os IH]; intros [|n ns];
    cbn [patched].
  - constructor.
  - unfold cloneNode. rewrite map_id.
    generalize (n :: ns). intros l.
    induction l; constructor; auto using reconcile_self.
  - constructor.
  - constructor; [apply reconcile_settled|apply IH].
Qed.

Lemma settled_no_mutation (oldNodes newNodes : list node) :
  Forall2 (fun o n => reconcile outerHTML rel n o = Keep) oldNodes newNodes ->
  updateDOM_nodes outerHTML rel oldNodes newNodes
  = mkContainer (map Some oldNodes) [] [].
Proof.
  intros H. unfold updateDOM_nodes.
  apply fold_left_fixed. intros i _. unfold loop_body.
  destruct (nth_error oldNodes i) as [o|] eqn:Eo.
  - destruct (Forall2_nth_error _ _ _ H i o Eo) as (n & -> & ->). reflexivity.
  - apply nth_error_None in Eo. rewrite (Forall2_length H) in Eo.
    apply nth_error_None in Eo. now rewrite Eo.
Qed.

Lemma patched_position (oldNodes newNodes : list node) (i : nat) oldNode newNode :
  nth_error oldNodes i = Some oldNode ->
  nth_error newNodes i = Some newNode ->
  nth_error (patched outerHTML rel oldNodes newNodes) i
  = Some (apply_action (reconcile outerHTML rel newNode oldNode) oldNode).
Proof.
  revert newNodes i; induction oldNodes as [|o os IH];
    intros [|n ns] [|i] Ho Hn; try discriminate; cbn in *.
  - congruence.
  - now apply IH.
Qed.

End ReconcilerFacts.

Lemma reconcile_update_text outerHTML rel (newNode oldNode : node) (s : jsstring) :
  reconcile outerHTML rel newNode oldNode = UpdateText s ->
  s = textContent newNode /\ textContent newNode <> textContent oldNode.
Proof.
  unfold reconcile. destruct (negb _ || negb _); [discriminate|].
  destruct (nodeType newNode =? TEXT_NODE).
  - destruct (str_eqb (textContent newNode) (textContent oldNode)) eqn:E;
      cbn [negb]; [discriminate|].
    intros H. injection H as <-. split; [reflexivity|].
    intros Heq. apply str_eqb_eq in Heq. congruence.
  - repeat match goal with
           | |- (if ?b then _ else _) = _ -> _ => destruct b
           end; discriminate.
Qed.

Lemma reconcile_replace outerHTML rel (newNode oldNode n : node) :
  reconcile outerHTML rel newNode oldNode = ReplaceWith n ->
  n = newNode
  /\ (nodeType newNode <> nodeType oldNode
      \/ tagName newNode <> tagName oldNode
      \/ outerHTML newNode <> outerHTML oldNode).
Proof.
  unfold reconcile, cloneNode.
  destruct (nodeType newNode =? nodeType oldNode) eqn:Etype; cbn [negb orb].
  - destruct (opt_str_eqb (tagName newNode) (tagName oldNode)) eqn:Etag;
      cbn [negb].
    + destruct (nodeType newNode =? TEXT_NODE);
        [destruct (negb _); discriminate|].
      destruct (nodeType newNode =? ELEMENT_NODE); [|discriminate].
      destruct (_ && _); [discriminate|].
      destruct (str_eqb (outerHTML newNode) (outerHTML oldNode)) eqn:Eouter;
        cbn [negb]; [discriminate|].
      intros H. split;
        [destruct (str_eqb (className newNode) (className oldNode)); congruence|].
      right; right. intros Heq. apply str_eqb_eq in Heq. congruence.
    + intros H. split; [congruence|]. right; left.
      intros Heq. apply opt_str_eqb_eq in Heq. congruence.
  - intros H. split; [congruence|]. left.
    intros Heq. apply Z.eqb_eq in Heq. congruence.
Qed.

(** C1 — Idempotence of the reconciler: once [_updateDOM] has reconciled the
    container to an HTML string, applying it a second time to the same
    string leaves the container as it is and performs no mutation at all (no
    append, no removal, no replacement, no text update), in both releases
    and whatever the browser's parser and serializer answer.  The same holds
    when the container was filled by a forced pass, that is, holds the parse
    of the string.  In any call, a text is written only where [textContent]
    differs, and a node is replaced only where node type, tag or [outerHTML]
    differ. *)
Theorem updateDOM_second_pass_no_mutation
  (outerHTML : node -> jsstring) (parseHTML : jsstring -> list node)
  (rel : release) (container : list node) (newHtmlString : jsstring) :
  let reconciled :=
    fst (_updateDOM outerHTML parseHTML rel container newHtmlString) in
  _updateDOM outerHTML parseHTML rel reconciled newHtmlString = (reconciled, [])
  /\ _updateDOM outerHTML parseHTML rel (parseHTML newHtmlString) newHtmlString
     = (parseHTML newHtmlString, [])
  /\ (forall m,
         In m (snd (_updateDOM outerHTML parseHTML rel container newHtmlString)) ->
         match m with
         | SetTextContent i s =>
             exists oldNode newNode,
               nth_error container i = Some oldNode
               /\ nth_error (parseHTML newHtmlString) i = Some newNode
               /\ s = textContent newNode
               /\ textContent newNode <> textContent oldNode
         | ReplaceChild i n =>
             exists oldNode,
               nth_error container i = Some oldNode
               /\ nth_error (parseHTML newHtmlString) i = Some n
               /\ (nodeType n <> nodeType oldNode
                   \/ tagName n <> tagName oldNode
                   \/ outerHTML n <> outerHTML oldNode)
         | AppendChild n =>
             exists i, nth_error container i = None
                       /\ nth_error (parseHTML newHtmlString) i = Some n
         | RemoveChild i =>
             nth_error container i <> None
             /\ nth_error (parseHTML newHtmlString) i = None
         end).
Proof.
  unfold _updateDOM. cbn [fst snd].
  set (newNodes := parseHTML newHtmlString).
  split; [|split].
  - rewrite (updateDOM_nodes_children outerHTML rel container newNodes).
    rewrite (settled_no_mutation outerHTML rel _ newNodes)
      by apply patched_settled.
    unfold children. cbn [slots appended mutations].
    now rewrite live_map_Some, app_nil_r.
  - rewrite (settled_no_mutation outerHTML rel newNodes newNodes).
    + unfold children. cbn [slots appended mutations].
      now rewrite live_map_Some, app_nil_r.
    + clear. induction newNodes; constructor; auto using reconcile_self.
  - intros m Hin. rewrite updateDOM_nodes_mutations in Hin.
    apply in_flat_map in Hin as (j & _ & Hj). unfold mutations_of in Hj.
    destruct (nth_error container j) as [o|] eqn:Eo;
      destruct (nth_error newNodes j) as [n|] eqn:En.
    + destruct (reconcile outerHTML rel n o) eqn:Er; cbn in Hj;
        try contradiction; destruct Hj as [<-|[]].
      * destruct (reconcile_replace _ _ _ _ _ Er) as [-> Hdiff].
        exists o. auto.
      * destruct (reconcile_update_text _ _ _ _ _ Er) as [-> Hdiff].
        exists o, n. auto.
    + destruct Hj as [<-|[]]. split; congruence.
    + destruct Hj as [<-|[]]. exists j. unfold cloneNode. auto.
    + contradiction.
Qed.

Lemma mutations_of_index outerHTML rel newNodes oldNodes (j : nat) (m : mutation) :
  In m (mutations_of outerHTML rel newNodes oldNodes j) ->
  mutation_index m = None \/ mutation_index m = Some j.
Proof.
  unfold mutations_of.
  destruct (nth_error oldNodes j), (nth_error newNodes j);
    try destruct (reconcile _ _ _ _); cbn; intros H;
    repeat (destruct H as [H|H]; [subst m; cbn; auto|]); contradiction.
Qed.

Lemma reconcile_preserves outerHTML rel (newNode oldNode : node) (h : jsstring) :
  nodeType newNode = ELEMENT_NODE ->
  nodeType oldNode = ELEMENT_NODE ->
  tagName newNode = tagName oldNode ->
  classList_contains newNode (lit "mermaid") = true ->
  classList_contains oldNode (lit "mermaid") = true ->
  materialized rel oldNode = true ->
  getAttribute newNode (lit "data-code") = Some h ->
  getAttribute oldNode (lit "data-code") = Some h ->
  h <> [] ->
  reconcile outerHTML rel newNode oldNode = Keep.
Proof.
  intros Hn Ho Ht Hcn Hco Hm Hhn Hho Hh. unfold reconcile.
  rewrite Hn, Ho, Ht, opt_str_eqb_refl, Hcn, Hco, Hm, Hhn, Hho, opt_str_eqb_refl.
  destruct h; [congruence|reflexivity].
Qed.

(** C2 (amended) — Preservation rule: when the candidate and the old node
    at a position are elements of the same tag, both carry class [mermaid],
    the old one is materialized ([data-rendered] is ["true"] in v1.2.0, an
    [svg] descendant in v1.1.0) and both carry the same non-empty
    [data-code], the position is skipped: the old node stays where it is and
    no mutation touches its position.  Equal sources have equal
    fingerprints, and two passes that find the same closed block emit the
    same candidate markup for it. *)
Theorem preservation_rule
  (outerHTML : node -> jsstring) (rel : release)
  (oldNodes newNodes : list node) (i : nat) (oldNode newNode : node)
  (h : jsstring) :
  nth_error oldNodes i = Some oldNode ->
  nth_error newNodes i = Some newNode ->
  nodeType newNode = ELEMENT_NODE ->
  nodeType oldNode = ELEMENT_NODE ->
  tagName newNode = tagName oldNode ->
  classList_contains newNode (lit "mermaid") = true ->
  classList_contains oldNode (lit "mermaid") = true ->
  materialized rel oldNode = true ->
  getAttribute newNode (lit "data-code") = Some h ->
  getAttribute oldNode (lit "data-code") = Some h ->
  h <> [] ->
  let st := updateDOM_nodes outerHTML rel oldNodes newNodes in
  nth_error (children st) i = Some oldNode
  /\ (forall m, In m (mutations st) -> mutation_index m <> Some i)
  /\ (forall code1 code2 : jsstring,
         code1 = code2 -> _hashCode code1 = _hashCode code2)
  /\ (forall hljs_getLanguage hljs_highlight _decodeHtml latest1 latest2 code,
         let cleanCode := match rel with
                          | v1_2_0 => _decodeHtml code
                          | v1_1_0 => code
                          end in
         _checkMermaidIntegrity rel latest1 cleanCode = true ->
         _checkMermaidIntegrity rel latest2 cleanCode = true ->
         renderer_code rel hljs_getLanguage hljs_highlight _decodeHtml
           latest1 code (JSString (lit "mermaid"))
         = renderer_code rel hljs_getLanguage hljs_highlight _decodeHtml
             latest2 code (JSString (lit "mermaid"))).
Proof.
  intros Eo En Hn Ho Ht Hcn Hco Hm Hhn Hho Hh st.
  pose proof (reconcile_preserves outerHTML rel _ _ _ Hn Ho Ht Hcn Hco Hm Hhn Hho Hh)
    as Hkeep.
  split; [|split; [|split]].
  - subst st. rewrite updateDOM_nodes_children.
    rewrite (patched_position _ _ _ _ _ _ _ Eo En), Hkeep. reflexivity.
  - subst st. rewrite updateDOM_nodes_mutations.
    intros m Hin Hidx. apply in_flat_map in Hin as (j & _ & Hj).
    assert (j = i) as ->.
    { destruct (mutations_of_index _ _ _ _ _ _ Hj); congruence. }
    unfold mutations_of in Hj. now rewrite Eo, En, Hkeep in Hj.
  - now intros ? ? ->.
  - intros getLanguage highlight decode latest1 latest2 code cleanCode H1 H2.
    unfold renderer_code. subst cleanCode.
    destruct rel; cbn [str_eqb]; rewrite str_eqb_refl, H1, H2; reflexivity.
Qed.

Lemma preservation_rule_witness :
  nth_error
    (children (updateDOM_nodes Sample.outerHTML v1_2_0
                 [Sample.rendered_div] [Sample.candidate_div])) 0
  = Some Sample.rendered_div.
Proof.
  refine (proj1 (preservation_rule Sample.outerHTML v1_2_0
                   [Sample.rendered_div] [Sample.candidate_div] 0
                   Sample.rendered_div Sample.candidate_div (lit "behhdq")
                   _ _ _ _ _ _ _ _ _ _ _));
    try reflexivity.
  discriminate.
Defined.

(** C2, as stated, fails: a materialized node with the candidate's
    fingerprint is replaced when it stands under another tag than the
    candidate's, because the tag test comes first, and when it does not
    itself carry class [mermaid], because the rule asks for the class on
    both sides. *)
Lemma preservation_needs_same_tag :
  classList_contains Sample.candidate_div (lit "mermaid") = true
  /\ getAttribute Sample.candidate_div (lit "data-code") = Some (lit "behhdq")
  /\ (classList_contains Sample.rendered_section (lit "mermaid") = true
      /\ materialized v1_2_0 Sample.rendered_section = true
      /\ materialized v1_1_0 Sample.rendered_section = true
      /\ getAttribute Sample.rendered_section (lit "data-code")
         = Some (lit "behhdq")
      /\ children (updateDOM_nodes Sample.outerHTML v1_2_0
                     [Sample.rendered_section] [Sample.candidate_div])
         = [Sample.candidate_div]
      /\ mutations (updateDOM_nodes Sample.outerHTML v1_2_0
                      [Sample.rendered_section] [Sample.candidate_div])
         = [ReplaceChild 0 Sample.candidate_div]
      /\ mutations (updateDOM_nodes Sample.outerHTML v1_1_0
                      [Sample.rendered_section] [Sample.candidate_div])
         = [ReplaceChild 0 Sample.candidate_div])
  /\ (materialized v1_2_0 Sample.rendered_chart = true
      /\ materialized v1_1_0 Sample.rendered_chart = true
      /\ getAttribute Sample.rendered_chart (lit "data-code")
         = Some (lit "behhdq")
      /\ mutations (updateDOM_nodes Sample.outerHTML v1_2_0
                      [Sample.rendered_chart] [Sample.candidate_div])
         = [ReplaceChild 0 Sample.candidate_div]
      /\ mutations (updateDOM_nodes Sample.outerHTML v1_1_0
                      [Sample.rendered_chart] [Sample.candidate_div])
         = [ReplaceChild 0 Sample.candidate_div]).
Proof. repeat split; vm_compute; reflexivity. Qed.

(** C4 (amended) — Fence completeness: the detector reports a block closed
    only when the source already holds, after an occurrence of the block's
    search suffix, optional whitespace and the three backticks of the closing
    marker; and a block reported closed stays closed under every extension
    of the source that leaves the last occurrence of the search suffix where
    it was. *)
Theorem fence_closure_stable
  (rel : release) (latest ext codeSnippet : jsstring) :
  _checkMermaidIntegrity rel (JSString latest) codeSnippet = true ->
  let searchPart := searchPart_of rel (trim codeSnippet) in
  (exists pre ws rest,
      latest = pre ++ searchPart ++ ws ++ lit "```" ++ rest
      /\ forallb is_ws ws = true)
  /\ (lastIndexOf (latest ++ ext) searchPart = lastIndexOf latest searchPart ->
      _checkMermaidIntegrity rel (JSString (latest ++ ext)) codeSnippet = true).
Proof.
  unfold _checkMermaidIntegrity.
  destruct latest as [|c latest]; [discriminate|].
  cbn [app]. destruct (JS.length (trim codeSnippet) =? 0); [discriminate|].
  intros H. split.
  - now apply fence_follows_marker.
  - intros Hidx. now apply (fence_follows_stable (c :: latest) ext).
Qed.

Lemma fence_closure_stable_witness :
  let searchPart := searchPart_of v1_2_0 (trim (lit "A")) in
  (exists pre ws rest,
      Sample.closed_fence = pre ++ searchPart ++ ws ++ lit "```" ++ rest
      /\ forallb is_ws ws = true)
  /\ (lastIndexOf (Sample.closed_fence ++ lit " done") searchPart
      = lastIndexOf Sample.closed_fence searchPart ->
      _checkMermaidIntegrity v1_2_0
        (JSString (Sample.closed_fence ++ lit " done")) (lit "A") = true).
Proof.
  apply (fence_closure_stable v1_2_0 Sample.closed_fence (lit " done") (lit "A")).
  reflexivity.
Defined.

(** C4, as stated, fails: a block already reported closed is reported
    unclosed again once the text of its last line recurs later in the
    source, for the detector anchors on the last occurrence. *)
Lemma fence_closure_reverts :
  _checkMermaidIntegrity v1_2_0 (JSString Sample.closed_fence) (lit "A") = true
  /\ _checkMermaidIntegrity v1_2_0
       (JSString (Sample.closed_fence ++ Sample.quoted_again)) (lit "A") = false
  /\ _checkMermaidIntegrity v1_1_0 (JSString Sample.closed_fence) (lit "A") = true
  /\ _checkMermaidIntegrity v1_1_0
       (JSString (Sample.closed_fence ++ Sample.quoted_again)) (lit "A") = false.
Proof. repeat split; vm_compute; reflexivity. Qed.

(** *** The placeholder codec *)

Section CodecFacts.

Import Codec.

Lemma lit_inj (a b : string) : lit a = lit b -> a = b.
Proof.
  unfold lit. intros H.
  rewrite <- (string_of_list_ascii_of_string a),
          <- (string_of_list_ascii_of_string b).
  f_equal. revert H.
  generalize (list_ascii_of_string a) (list_ascii_of_string b).
  induction l as [|x l IH]; intros [|y l'] H; try discriminate; [reflexivity|].
  cbn in H. injection H as Hxy Hll.
  f_equal; [|now apply IH].
  apply Nat2Z.inj in Hxy || apply N2Z.inj in Hxy.
  rewrite <- (ascii_N_embedding x), <- (ascii_N_embedding y). now f_equal.
Qed.

Lemma dec_inj (n n' : nat) : dec n = dec n' -> n = n'.
Proof.
  unfold dec. intros H. apply lit_inj in H.
  apply DecimalNat.Unsigned.to_uint_inj.
  pose proof (DecimalString.NilEmpty.usu (Nat.to_uint n)) as Hn.
  pose proof (DecimalString.NilEmpty.usu (Nat.to_uint n')) as Hn'.
  rewrite H in Hn. congruence.
Qed.

Lemma key_inj (sh sh' : shape) (n n' : nat) :
  key sh n = key sh' n' -> sh = sh' /\ n = n'.
Proof.
  intros H.
  assert (Hsh : sh = sh').
  { apply (f_equal (firstn 5)) in H.
    destruct sh, sh'; try reflexivity; vm_compute in H; discriminate. }
  subst sh'. split; [reflexivity|].
  unfold key, key_of in H.
  apply app_inv_head, app_inv_tail in H. now apply dec_inj.
Qed.

Lemma map_set_fresh {V : Type} (k : jsstring) (v : V) (m : list (jsstring * V)) :
  ~ In k (map fst m) -> map_set k v m = m ++ [(k, v)].
Proof.
  induction m as [|[k' w] m IH]; cbn; intros H; [reflexivity|].
  destruct (str_eqb k' k) eqn:E.
  - apply str_eqb_eq in E. tauto.
  - rewrite IH; tauto.
Qed.

Lemma fresh_key (st : codec_state) (sh : shape) :
  well_keyed st -> ~ In (key sh (counter st)) (keys st).
Proof.
  intros (Hshape & _ & _) Hin.
  destruct (Hshape _ Hin) as (sh' & n & E & Hlt).
  apply key_inj in E as [_ E]. lia.
Qed.

Lemma well_keyed_grow (st : codec_state) (sh : shape) (ks : list jsstring) :
  well_keyed st ->
  Permutation (key sh (counter st) :: keys st) ks ->
  forall st', keys st' = ks -> counter st' = S (counter st) -> well_keyed st'.
Proof.
  intros Hwk Hperm st' Hks Hcnt.
  pose proof (fresh_key st sh Hwk) as Hfresh.
  destruct Hwk as (Hshape & Hnd & Hlen).
  unfold well_keyed. rewrite Hks, Hcnt. repeat split.
  - intros k Hk. apply (Permutation_in _ (Permutation_sym Hperm)) in Hk.
    destruct Hk as [<-|Hk].
    + exists sh, (counter st). split; [reflexivity|lia].
    + destruct (Hshape k Hk) as (sh' & n & E & Hlt).
      exists sh', n. split; [exact E|lia].
  - apply (Permutation_NoDup Hperm). now constructor.
  - rewrite <- (Permutation_length Hperm). cbn. now rewrite Hlen.
Qed.

Lemma add_code_well_keyed (st : codec_state) (sh : shape) (v : jsstring) :
  well_keyed st ->
  well_keyed (mkCodec (S (counter st))
                      (map_set (key sh (counter st)) v (codeMap st))
                      (mathMap st)).
Proof.
  intros Hwk. pose proof (fresh_key st sh Hwk) as Hfresh.
  eapply (well_keyed_grow st sh); [exact Hwk| |reflexivity|reflexivity].
  unfold keys in *. cbn [codeMap mathMap].
  rewrite map_set_fresh by (intros H; apply Hfresh, in_or_app; now left).
  rewrite map_app, <- app_assoc. cbn [map fst app].
  apply Permutation_middle.
Qed.

Lemma add_math_well_keyed (st : codec_state) (sh : shape) (v : math_entry) :
  well_keyed st ->
  well_keyed (mkCodec (S (counter st)) (codeMap st)
                      (map_set (key sh (counter st)) v (mathMap st))).
Proof.
  intros Hwk. pose proof (fresh_key st sh Hwk) as Hfresh.
  eapply (well_keyed_grow st sh); [exact Hwk| |reflexivity|reflexivity].
  unfold keys in *. cbn [codeMap mathMap].
  rewrite map_set_fresh by (intros H; apply Hfresh, in_or_app; now right).
  rewrite map_app, app_assoc. cbn [map fst].
  apply Permutation_cons_append.
Qed.

Lemma replace_g_invariant {St : Type} (P : St -> Prop) (m : Regex.matcher)
  (cb : St -> jsstring -> list jsstring -> St * jsstring) :
  (forall st matched groups, P st -> P (fst (cb st matched groups))) ->
  forall s skip at_start st,
    P st -> P (fst (Regex.replace_g m cb skip at_start s st)).
Proof.
  intros Hcb. induction s as [|c s IH]; intros skip at_start st Hst;
    cbn [Regex.replace_g]; [exact Hst|].
  destruct skip as [|k]; [|now apply IH].
  destruct (m at_start (c :: s)) as [[[|len] groups]|].
  - specialize (IH O false st Hst).
    destruct (Regex.replace_g m cb O false s st). exact IH.
  - specialize (Hcb st (firstn (S len) (c :: s)) groups Hst).
    destruct (cb st (firstn (S len) (c :: s)) groups) as [st1 r].
    specialize (IH len false st1 Hcb).
    destruct (Regex.replace_g m cb len false s st1). exact IH.
  - specialize (IH O false st Hst).
    destruct (Regex.replace_g m cb O false s st). exact IH.
Qed.

Lemma protect_stages_well_keyed (st : codec_state) (text : jsstring) :
  well_keyed st -> well_keyed (fst (protect_stages st text)).
Proof.
  intros H0. unfold protect_stages.
  pose proof (replace_g_invariant well_keyed Regex.code_block on_code_block
                (fun st _ _ => add_code_well_keyed st CodeBlock _)
                text O true st H0) as H1.
  destruct (Regex.replace_g Regex.code_block on_code_block O true text st)
    as [st1 p1]. cbn [fst] in H1.
  pose proof (replace_g_invariant well_keyed Regex.inline_code on_inline_code
                (fun st _ _ => add_code_well_keyed st CodeInline _)
                p1 O true st1 H1) as H2.
  destruct (Regex.replace_g Regex.inline_code on_inline_code O true p1 st1)
    as [st2 p2]. cbn [fst] in H2.
  pose proof (replace_g_invariant well_keyed Regex.escaped_dollar on_escaped_dollar
                (fun st _ _ => add_code_well_keyed st EscapedDollar _)
                p2 O true st2 H2) as H3.
  destruct (Regex.replace_g Regex.escaped_dollar on_escaped_dollar O true p2 st2)
    as [st3 p3]. cbn [fst] in H3.
  pose proof (replace_g_invariant well_keyed Regex.math_block on_math_block
                (fun st _ _ => add_math_well_keyed st MathBlock _)
                p3 O true st3 H3) as H4.
  destruct (Regex.replace_g Regex.math_block on_math_block O true p3 st3)
    as [st4 p4]. cbn [fst] in H4.
  apply replace_g_invariant; [|exact H4].
  intros st' matched groups Hst'. unfold on_inline_math.
  destruct (_ && _); [exact Hst'|].
  now apply (add_math_well_keyed st' MathInline).
Qed.

Lemma protect_well_keyed (text : jsval) :
  well_keyed (fst (_protectCodeAndMath (mkCodec 0 [] []) text)).
Proof.
  assert (H0 : well_keyed (mkCodec 0 [] [])).
  { repeat split; cbn; [tauto|constructor]. }
  unfold _protectCodeAndMath.
  destruct text as [| |[|c t]]; try exact H0.
  pose proof (protect_stages_well_keyed _ (c :: t) H0) as H.
  now destruct (protect_stages (mkCodec 0 [] []) (c :: t)).
Qed.

Lemma starts_with_self_app (p post : jsstring) : starts_with p (p ++ post) = true.
Proof. induction p; cbn; [reflexivity|now rewrite Z.eqb_refl]. Qed.

Lemma indexOf_nat_unfold (p s : jsstring) :
  indexOf_nat p s
  = if starts_with p s then Some O
    else match s with
         | [] => None
         | _ :: s' => option_map S (indexOf_nat p s')
         end.
Proof. now destruct s. Qed.

Lemma occurs_includes (s p pre post : jsstring) :
  s = pre ++ p ++ post -> includes s p = true.
Proof.
  intros ->. unfold includes.
  induction pre as [|c pre IH]; cbn [app]; rewrite indexOf_nat_unfold.
  - now rewrite starts_with_self_app.
  - destruct (starts_with p (c :: pre ++ p ++ post)); [reflexivity|].
    destruct (indexOf_nat p (pre ++ p ++ post)); [reflexivity|discriminate].
Qed.

Lemma indexOf_occurs (p s : jsstring) (i : nat) :
  indexOf_nat p s = Some i ->
  exists post, s = firstn i s ++ p ++ post /\ (i <= List.length s)%nat.
Proof.
  revert i; induction s as [|c s IH]; intros i H.
  - cbn in H. destruct (starts_with p []) eqn:E; [|discriminate].
    injection H as <-. destruct (starts_with_app _ _ E) as [r Hr].
    exists r. now split.
  - cbn [indexOf_nat] in H. destruct (starts_with p (c :: s)) eqn:E.
    + injection H as <-. destruct (starts_with_app _ _ E) as [r Hr].
      exists r. split; [exact Hr|cbn; lia].
    + destruct (indexOf_nat p s) as [j|]; [|discriminate].
      injection H as <-. destruct (IH j eq_refl) as (post & Hs & Hj).
      exists post. split; [cbn; now f_equal|cbn; lia].
Qed.

Lemma includes_prefix (s p r : jsstring) :
  includes s (p ++ r) = true -> includes s p = true.
Proof.
  unfold includes at 1.
  destruct (indexOf_nat (p ++ r) s) as [i|] eqn:E; [intros _|discriminate].
  destruct (indexOf_occurs _ _ _ E) as (post & Hs & _).
  apply (occurs_includes s p (firstn i s) (r ++ post)).
  now rewrite <- app_assoc in Hs.
Qed.

End CodecFacts.

(** *** Texts the protections leave alone *)

Section Unmatched.

Import Codec Regex.

Lemma replace_g_unmatched {St : Type} (Q : jsstring -> Prop) (m : Regex.matcher)
  (cb : St -> jsstring -> list jsstring -> St * jsstring) :
  (forall c s, Q (c :: s) -> Q s) ->
  (forall b s, Q s -> m b s = None) ->
  forall s b st, Q s -> Regex.replace_g m cb O b s st = (st, s).
Proof.
  intros Htl Hnone. induction s as [|c s IH]; intros b st Hq; [reflexivity|].
  cbn [Regex.replace_g]. rewrite (Hnone b _ Hq).
  now rewrite (IH false st (Htl _ _ Hq)).
Qed.

Lemma no_backtick_tail c s : no_backtick (c :: s) -> no_backtick s.
Proof.
  unfold no_backtick. cbn [forallb]. intros H. now apply andb_true_iff in H.
Qed.

Lemma no_backtick_head c s : no_backtick (c :: s) -> (BACKTICK =? c) = false.
Proof.
  unfold no_backtick. cbn [forallb]. intros H. apply andb_true_iff in H as [H _].
  apply negb_true_iff in H. now rewrite Z.eqb_sym.
Qed.

Lemma no_fence (s : jsstring) : no_backtick s -> starts_with Regex.fence s = false.
Proof.
  destruct s as [|c s]; [reflexivity|]. intros H.
  change Regex.fence with [BACKTICK; BACKTICK; BACKTICK].
  cbn [starts_with]. now rewrite (no_backtick_head _ _ H).
Qed.

Lemma code_block_unmatched b s : no_backtick s -> Regex.code_block b s = None.
Proof.
  intros H. unfold Regex.code_block. rewrite (no_fence s H).
  destruct s as [|c s]; [now destruct b|].
  rewrite (no_fence s (no_backtick_tail _ _ H)).
  now destruct (c =? LF), b.
Qed.

Lemma inline_code_unmatched b s : no_backtick s -> Regex.inline_code b s = None.
Proof.
  intros H. unfold Regex.inline_code. destruct s as [|c s]; [reflexivity|].
  cbn [Regex.count_backticks].
  pose proof (no_backtick_head _ _ H) as Hc. rewrite Z.eqb_sym in Hc.
  now rewrite Hc.
Qed.

Lemma includes_cons (c : Z) (s p : jsstring) :
  includes (c :: s) p = starts_with p (c :: s) || includes s p.
Proof.
  unfold includes. rewrite (indexOf_nat_unfold p (c :: s)).
  destruct (starts_with p (c :: s)); [reflexivity|].
  now destruct (indexOf_nat p s).
Qed.

Lemma includes_false_tail c s p : includes (c :: s) p = false -> includes s p = false.
Proof. rewrite includes_cons. intros H. now apply orb_false_iff in H. Qed.

Lemma includes_false_head s p : includes s p = false -> starts_with p s = false.
Proof.
  unfold includes. rewrite indexOf_nat_unfold.
  now destruct (starts_with p s).
Qed.

Lemma escaped_dollar_unmatched b s :
  includes s [BACKSLASH; DOLLAR] = false -> Regex.escaped_dollar b s = None.
Proof.
  intros H. unfold Regex.escaped_dollar. now rewrite (includes_false_head _ _ H).
Qed.

Lemma math_block_unmatched b s :
  includes s Regex.dollars = false -> Regex.math_block b s = None.
Proof.
  intros H. unfold Regex.math_block. rewrite (includes_false_head _ _ H).
  destruct s as [|c s]; [now destruct b|].
  rewrite (includes_false_head _ _ (includes_false_tail _ _ _ H)).
  now destruct b, (c =? LF).
Qed.

Lemma no_dollar_cons c s :
  no_dollar (c :: s) <-> (c =? DOLLAR) = false /\ no_dollar s.
Proof.
  unfold no_dollar. cbn [forallb]. rewrite andb_true_iff, negb_true_iff. tauto.
Qed.

Lemma no_dollar_app a b : no_dollar (a ++ b) <-> no_dollar a /\ no_dollar b.
Proof. unfold no_dollar. rewrite forallb_app, andb_true_iff. tauto. Qed.

Lemma no_double_dollar_plain s p :
  no_dollar s -> includes (s ++ p) Regex.dollars = includes p Regex.dollars.
Proof.
  induction s as [|c s IH]; intros Hs; cbn [app]; [reflexivity|].
  apply no_dollar_cons in Hs as [Hc Hs].
  rewrite includes_cons, (IH Hs).
  change Regex.dollars with [DOLLAR; DOLLAR]. cbn [starts_with].
  now rewrite (Z.eqb_sym DOLLAR c), Hc.
Qed.

Lemma lone_dollar_then (s : jsstring) :
  match s with c :: _ => (c =? DOLLAR) = false | [] => True end ->
  includes s Regex.dollars = false ->
  includes (DOLLAR :: s) Regex.dollars = false.
Proof.
  intros Hhd Hs. rewrite includes_cons, Hs, orb_false_r.
  change Regex.dollars with [DOLLAR; DOLLAR]. cbn [starts_with].
  destruct s as [|c s]; [reflexivity|].
  rewrite (Z.eqb_sym DOLLAR c), Hhd. now rewrite andb_false_r.
Qed.

Lemma no_dollar_includes s : no_dollar s -> includes s Regex.dollars = false.
Proof.
  intros H. rewrite <- (app_nil_r s). now rewrite no_double_dollar_plain.
Qed.

Lemma span_no_double_dollar (pre body post : jsstring) :
  body <> [] -> no_dollar pre -> no_dollar body -> no_dollar post ->
  includes (pre ++ DOLLAR :: body ++ DOLLAR :: post) Regex.dollars = false.
Proof.
  intros Hne Hpre Hbody Hpost.
  rewrite no_double_dollar_plain by exact Hpre.
  apply lone_dollar_then.
  - destruct body as [|c body]; [congruence|]. now apply no_dollar_cons in Hbody.
  - rewrite no_double_dollar_plain by exact Hbody.
    apply lone_dollar_then; [|now apply no_dollar_includes].
    destruct post as [|c post]; [exact I|]. now apply no_dollar_cons in Hpost.
Qed.

Lemma inline_math_any_flag {St : Type}
  (cb : St -> jsstring -> list jsstring -> St * jsstring)
  (skip : nat) (b : bool) (s : jsstring) (st : St) :
  Regex.replace_g Regex.inline_math cb skip b s st
  = Regex.replace_g Regex.inline_math cb skip false s st.
Proof. destruct s; [reflexivity|]. now destruct skip. Qed.

Lemma inline_math_plain {St : Type}
  (cb : St -> jsstring -> list jsstring -> St * jsstring)
  (s rest : jsstring) (b : bool) (st : St) :
  no_dollar s ->
  Regex.replace_g Regex.inline_math cb O b (s ++ rest) st
  = (fst (Regex.replace_g Regex.inline_math cb O false rest st),
     s ++ snd (Regex.replace_g Regex.inline_math cb O false rest st)).
Proof.
  revert b. induction s as [|c s IH]; intros b Hs.
  - cbn [app]. rewrite (inline_math_any_flag cb O b).
    now destruct (Regex.replace_g _ _ _ _ _ _).
  - apply no_dollar_cons in Hs as [Hc Hs]. cbn [app Regex.replace_g].
    unfold Regex.inline_math at 1. rewrite Hc.
    rewrite (IH false Hs). reflexivity.
Qed.

Lemma replace_g_skip {St : Type} (m : Regex.matcher)
  (cb : St -> jsstring -> list jsstring -> St * jsstring)
  (a rest : jsstring) (c : Z) (b : bool) (st : St) :
  Regex.replace_g m cb (List.length (c :: a)) b ((c :: a) ++ rest) st
  = Regex.replace_g m cb O false rest st.
Proof.
  revert c b. induction a as [|d a IH]; intros c b; [reflexivity|].
  cbn [List.length app Regex.replace_g]. apply (IH d false).
Qed.

Lemma plain_body_cons c s :
  plain_body (c :: s) <-> ((c =? DOLLAR) = false /\ (c =? LF) = false) /\ plain_body s.
Proof.
  unfold plain_body. cbn [forallb]. rewrite !andb_true_iff, !negb_true_iff. tauto.
Qed.

Lemma plain_body_no_dollar s : plain_body s -> no_dollar s.
Proof.
  induction s as [|c s IH]; [reflexivity|].
  rewrite plain_body_cons, no_dollar_cons. tauto.
Qed.

Lemma find_dollar_plain (s rest : jsstring) :
  plain_body s ->
  Regex.find_dollar (s ++ DOLLAR :: rest) = Some (List.length s).
Proof.
  induction s as [|c s IH]; intros H; cbn [app Regex.find_dollar List.length].
  - now rewrite Z.eqb_refl.
  - apply plain_body_cons in H as [[Hd Hl] Hs].
    rewrite Hd, Hl, (IH Hs). reflexivity.
Qed.

Lemma inline_math_span (body post : jsstring) (b : bool) :
  body <> [] -> plain_body body ->
  Regex.inline_math b (DOLLAR :: body ++ DOLLAR :: post)
  = Some (S (S (List.length body)), [body]).
Proof.
  intros Hne Hb. destruct body as [|c body]; [congruence|].
  apply plain_body_cons in Hb as [[Hd Hl] Hb].
  unfold Regex.inline_math. rewrite Z.eqb_refl. cbn [app].
  rewrite Hl, (find_dollar_plain body post Hb).
  cbn [List.length Nat.add]. do 2 f_equal.
  - lia.
  - f_equal. change (c :: body ++ DOLLAR :: post) with ((c :: body) ++ DOLLAR :: post).
    replace (S (List.length body)) with (List.length (c :: body) + 0)%nat
      by (cbn; lia).
    rewrite firstn_app_2. cbn [firstn]. now rewrite app_nil_r.
Qed.

Lemma inline_math_stage_cjk (st : codec_state) (pre body post : jsstring) (b : bool) :
  body <> [] -> plain_body body ->
  Regex.test_cjk body = true ->
  includes body (BACKSLASH :: lit "text") = false ->
  no_dollar pre -> no_dollar post ->
  Regex.replace_g Regex.inline_math on_inline_math O b
    (pre ++ DOLLAR :: body ++ DOLLAR :: post) st
  = (st, pre ++ DOLLAR :: body ++ DOLLAR :: post).
Proof.
  intros Hne Hbody Hcjk Htext Hpre Hpost.
  rewrite (inline_math_plain on_inline_math pre _ b st Hpre).
  assert (Hcb : forall matched, on_inline_math st matched [body] = (st, matched)).
  { intros matched. unfold on_inline_math. cbn [nth]. now rewrite Hcjk, Htext. }
  cbn [Regex.replace_g]. rewrite (inline_math_span body post false Hne Hbody).
  rewrite Hcb.
  destruct body as [|c body]; [congruence|].
  replace ((c :: body) ++ DOLLAR :: post) with ((c :: body ++ [DOLLAR]) ++ post)
    by (cbn; now rewrite <- app_assoc).
  replace (S (List.length (c :: body))) with (List.length (c :: body ++ [DOLLAR]))
    by (cbn; rewrite length_app; cbn; lia).
  rewrite replace_g_skip.
  rewrite <- (app_nil_r post) at 1 2.
  rewrite (inline_math_plain on_inline_math post [] false st Hpost).
  cbn [Regex.replace_g fst snd]. rewrite !app_nil_r.
  f_equal. f_equal.
  change (DOLLAR :: (c :: body ++ [DOLLAR]) ++ post)
    with ((DOLLAR :: c :: body ++ [DOLLAR]) ++ post).
  replace (S (List.length (c :: body ++ [DOLLAR])))
    with (List.length (DOLLAR :: c :: body ++ [DOLLAR]) + 0)%nat
    by (cbn; lia).
  rewrite firstn_app_2. cbn [firstn]. rewrite app_nil_r.
  cbn [app]. now rewrite <- app_assoc.
Qed.

Lemma protect_nonempty (st : codec_state) (t : jsstring) :
  t <> [] ->
  _protectCodeAndMath st (JSString t)
  = (fst (protect_stages st t),
     restore_code (codeMap (fst (protect_stages st t))) (snd (protect_stages st t))).
Proof.
  destruct t; [congruence|]. intros _. unfold _protectCodeAndMath.
  now destruct (protect_stages st (z :: t)).
Qed.

End Unmatched.

(** C3 — Placeholder round-trip, at the input [`$&`]: the inline code span
    is stored under [CODEINLINE0ENDCODE] and put back with
    [processed.replace(key, value)], which reads the [$&] of the stored code
    as "the matched text"; the text handed to the parser is
    [`CODEINLINE0ENDCODE`], with the token in it and the code lost. *)
Theorem code_placeholder_leaks :
  Codec._protectCodeAndMath (mkCodec 0 [] []) (JSString (lit "`$&`"))
  = (mkCodec 1 [(lit "CODEINLINE0ENDCODE", lit "`$&`")] [],
     lit "`CODEINLINE0ENDCODE`").
Proof. vm_compute. reflexivity. Qed.

(** C6 (amended) — The tokens of one pass, the counter starting at 0, are
    pairwise distinct: each has one of the five shapes with a counter value
    of its own, none is stored twice and there are as many as the counter
    counts.  They stay clear of the text of a document in which none of the
    five words [CODEBLOCK], [CODEINLINE], [ESCAPEDDOLLAR], [MATHBLOCK],
    [MATHINLINE] occurs. *)
Theorem placeholder_tokens_distinct (text : jsval) :
  let st := fst (Codec._protectCodeAndMath (mkCodec 0 [] []) text) in
  NoDup (Codec.keys st)
  /\ List.length (Codec.keys st) = counter st
  /\ (forall k, In k (Codec.keys st) ->
                exists sh n, k = Codec.key sh n /\ (n < counter st)%nat)
  /\ (forall doc,
         text = JSString doc ->
         (forall sh, includes doc (lit (Codec.shape_prefix sh)) = false) ->
         forall k, In k (Codec.keys st) -> includes doc k = false).
Proof.
  intros st. destruct (protect_well_keyed text) as (Hshape & Hnd & Hlen).
  fold st in Hshape, Hnd, Hlen. repeat split; auto.
  intros doc _ Hdoc k Hk.
  destruct (Hshape k Hk) as (sh & n & -> & _).
  destruct (includes doc (Codec.key sh n)) eqn:E; [|reflexivity].
  unfold Codec.key, Codec.key_of in E.
  apply includes_prefix in E. now rewrite Hdoc in E.
Qed.

Lemma placeholder_tokens_distinct_witness :
  let st := fst (Codec._protectCodeAndMath (mkCodec 0 [] [])
                   (JSString (lit "a `b` $x$ c"))) in
  NoDup (Codec.keys st)
  /\ forall k, In k (Codec.keys st) -> includes (lit "a `b` $x$ c") k = false.
Proof.
  destruct (placeholder_tokens_distinct (JSString (lit "a `b` $x$ c")))
    as (Hnd & _ & _ & Hclear).
  split; [exact Hnd|].
  apply Hclear; [reflexivity|].
  intros sh. destruct sh; vm_compute; reflexivity.
Defined.

(** C6, as stated, fails: a document that spells a token out collides with
    the token the pass then generates, and the restore pass typesets the
    document's own words along with the placeholder. *)
Lemma placeholder_collides_with_text :
  let doc := lit "MATHINLINE0ENDMATH $x$" in
  let st := fst (Codec._protectCodeAndMath (mkCodec 0 [] []) (JSString doc)) in
  Codec.keys st = [lit "MATHINLINE0ENDMATH"]
  /\ includes doc (lit "MATHINLINE0ENDMATH") = true
  /\ _restoreAndRenderMath (fun _ _ => Ok (lit "<katex/>")) st
       (snd (Codec._protectCodeAndMath (mkCodec 0 [] []) (JSString doc)))
     = lit "<katex/> <katex/>".
Proof. repeat split; vm_compute; reflexivity. Qed.

(** X27 — A CJK price in prose goes through the encoder untouched: a
    one-line [$…$] span whose body holds a CJK ideograph and no [\text],
    standing in a text with no other dollar, no backtick and no escaped
    dollar, is returned with the text as it came, and the table stays
    empty. *)
Theorem cjk_span_in_prose_unchanged (pre body post : jsstring) :
  let text := pre ++ DOLLAR :: body ++ DOLLAR :: post in
  body <> [] ->
  Regex.test_cjk body = true ->
  includes body (BACKSLASH :: lit "text") = false ->
  forallb (fun c => negb (c =? DOLLAR) && negb (c =? LF)) body = true ->
  forallb (fun c => negb (c =? DOLLAR)) pre = true ->
  forallb (fun c => negb (c =? DOLLAR)) post = true ->
  forallb (fun c => negb (c =? BACKTICK)) text = true ->
  includes text [BACKSLASH; DOLLAR] = false ->
  Codec._protectCodeAndMath (mkCodec 0 [] []) (JSString text)
  = (mkCodec 0 [] [], text).
Proof.
  intros text Hne Hcjk Htext Hbody Hpre Hpost Htick Hesc.
  rewrite protect_nonempty by (subst text; now destruct pre).
  assert (Hstages : Codec.protect_stages (mkCodec 0 [] []) text
                    = (mkCodec 0 [] [], text)).
  { unfold Codec.protect_stages.
    rewrite (replace_g_unmatched Regex.no_backtick Regex.code_block _
               no_backtick_tail code_block_unmatched text true _ Htick).
    rewrite (replace_g_unmatched Regex.no_backtick Regex.inline_code _
               no_backtick_tail inline_code_unmatched text true _ Htick).
    rewrite (replace_g_unmatched
               (fun s => includes s [BACKSLASH; DOLLAR] = false)
               Regex.escaped_dollar _
               (fun c s => includes_false_tail c s _)
               escaped_dollar_unmatched text true _ Hesc).
    rewrite (replace_g_unmatched
               (fun s => includes s Regex.dollars = false)
               Regex.math_block _
               (fun c s => includes_false_tail c s _)
               math_block_unmatched text true _).
    - now apply inline_math_stage_cjk.
    - apply span_no_double_dollar; auto. now apply plain_body_no_dollar. }
  rewrite Hstages. reflexivity.
Qed.

Lemma cjk_span_in_prose_unchanged_witness :
  Codec._protectCodeAndMath (mkCodec 0 [] [])
    (JSString (lit "cost " ++ DOLLAR :: [20116; 20803] ++ DOLLAR :: lit " each"))
  = (mkCodec 0 [] [],
     lit "cost " ++ DOLLAR :: [20116; 20803] ++ DOLLAR :: lit " each").
Proof.
  apply (cjk_span_in_prose_unchanged (lit "cost ") [20116; 20803] (lit " each"));
    try reflexivity.
  discriminate.
Defined.

Section InlineMathCandidates.

Import Codec Regex.

Lemma replace_g_pieces {St : Type} (m : matcher)
  (cb : St -> jsstring -> list jsstring -> St * jsstring) (s : jsstring) :
  forall skip b st, replace_g m cb skip b s st = rebuild cb (pieces m skip b s) st.
Proof.
  induction s as [|c s IH]; intros skip b st; [reflexivity|].
  cbn [replace_g pieces]. destruct skip as [|k]; [|apply IH].
  destruct (m b (c :: s)) as [[[|len] groups]|]; cbn [rebuild].
  - now rewrite IH.
  - destruct (cb st (firstn (S len) (c :: s)) groups) as [st1 r]. now rewrite IH.
  - now rewrite IH.
Qed.

Lemma pieces_cover (m : matcher) (s : jsstring) :
  forall skip b, List.concat (map source_of (pieces m skip b s)) = skipn skip s.
Proof.
  induction s as [|c s IH]; intros skip b; [now destruct skip|].
  cbn [pieces]. destruct skip as [|k]; [|apply IH].
  destruct (m b (c :: s)) as [[[|len] groups]|]; cbn [map List.concat source_of].
  - now rewrite IH.
  - rewrite IH. change (skipn len s) with (skipn (S len) (c :: s)).
    apply firstn_skipn.
  - now rewrite IH.
Qed.

Lemma pieces_matched (m : matcher) (s : jsstring) :
  forall skip b matched groups,
    In (Matched matched groups) (pieces m skip b s) ->
    exists b' t len, m b' t = Some (S len, groups) /\ matched = firstn (S len) t.
Proof.
  induction s as [|c s IH]; intros skip b matched groups Hin; [contradiction|].
  cbn [pieces] in Hin. destruct skip as [|k]; [|now apply (IH k false)].
  destruct (m b (c :: s)) as [[[|len] g]|] eqn:E.
  - destruct Hin as [Hin|Hin]; [discriminate|now apply (IH O false)].
  - destruct Hin as [Hin|Hin]; [|now apply (IH len false)].
    injection Hin as <- <-. now exists b, (c :: s), len.
  - destruct Hin as [Hin|Hin]; [discriminate|now apply (IH O false)].
Qed.

Lemma rebuild_app {St : Type}
  (cb : St -> jsstring -> list jsstring -> St * jsstring) (ps1 ps2 : list piece) :
  forall st,
    rebuild cb (ps1 ++ ps2) st
    = (fst (rebuild cb ps2 (fst (rebuild cb ps1 st))),
       snd (rebuild cb ps1 st) ++ snd (rebuild cb ps2 (fst (rebuild cb ps1 st)))).
Proof.
  induction ps1 as [|[c|matched groups] ps1 IH]; intros st; cbn [app rebuild].
  - cbn [fst snd]. now destruct (rebuild cb ps2 st).
  - rewrite IH. destruct (rebuild cb ps1 st) as [st1 out]. cbn [fst snd].
    now destruct (rebuild cb ps2 st1).
  - destruct (cb st matched groups) as [st1 r]. rewrite IH.
    destruct (rebuild cb ps1 st1) as [st2 out]. cbn [fst snd].
    destruct (rebuild cb ps2 st2). cbn [fst snd]. now rewrite app_assoc.
Qed.

Lemma find_dollar_split (s : jsstring) (k : nat) :
  find_dollar s = Some k ->
  exists rest,
    s = firstn k s ++ DOLLAR :: rest
    /\ List.length (firstn k s) = k
    /\ forallb (fun c => negb (c =? LF)) (firstn k s) = true.
Proof.
  revert k. induction s as [|d s IH]; intros k H; [discriminate|].
  cbn [find_dollar] in H.
  destruct (Z.eqb_spec d DOLLAR) as [->|Hd].
  - injection H as <-. now exists s.
  - destruct (d =? LF) eqn:Hl; [discriminate|].
    destruct (find_dollar s) as [k'|]; [|discriminate].
    injection H as <-. destruct (IH k' eq_refl) as (rest & Hs & Hlen & Hlf).
    exists rest. cbn [firstn app List.length forallb].
    rewrite Hl, Hlf, Hlen. now rewrite <- Hs.
Qed.

(** What the inline-math pattern matches: a dollar, a body of at least one
    code unit with no newline in it, and the nearest dollar after the
    body's first code unit. *)
Lemma inline_math_shape (b : bool) (s : jsstring) (n : nat) (groups : list jsstring) :
  inline_math b s = Some (n, groups) ->
  exists body,
    groups = [body]
    /\ firstn n s = DOLLAR :: body ++ [DOLLAR]
    /\ body <> []
    /\ forallb (fun c => negb (c =? LF)) body = true.
Proof.
  unfold inline_math. destruct s as [|c s1]; [discriminate|].
  destruct (Z.eqb_spec c DOLLAR) as [->|_]; [|discriminate].
  destruct s1 as [|c1 s2]; [discriminate|].
  destruct (c1 =? LF) eqn:Hl; [discriminate|].
  destruct (find_dollar s2) as [k|] eqn:Hk; [|discriminate].
  intros H. injection H as <- <-.
  destruct (find_dollar_split s2 k Hk) as (rest & Hs & Hlen & Hlf).
  exists (c1 :: firstn k s2). repeat split.
  - cbn [Nat.add]. rewrite !firstn_cons. do 2 f_equal.
    rewrite Hs at 1. rewrite <- Hlen at 1.
    change (DOLLAR :: rest) with ([DOLLAR] ++ rest).
    rewrite app_assoc. cbn [app]. f_equal.
    rewrite <- app_assoc, firstn_app_2. reflexivity.
  - discriminate.
  - cbn [forallb]. now rewrite Hl, Hlf.
Qed.

Lemma map_set_In {V : Type} (k key : jsstring) (v w : V) (m : list (jsstring * V)) :
  In (k, w) (map_set key v m) -> In (k, w) m \/ w = v.
Proof.
  induction m as [|[k' v'] m IH]; cbn [map_set]; intros H.
  - destruct H as [H|[]]. injection H as _ <-. now right.
  - destruct (str_eqb k' key).
    + destruct H as [H|H]; [injection H as _ <-; now right|left; now right].
    + destruct H as [H|H]; [left; now left|].
      destruct (IH H) as [Hm|Hv]; [left; now right|now right].
Qed.

(** The entries a pass adds to the math table: display entries, and inline
    entries whose body the CJK rule does not leave alone. *)
Lemma protect_stages_math_entries (st0 : codec_state) (text : jsstring) :
  forall k e,
    In (k, e) (mathMap (fst (protect_stages st0 text))) ->
    In (k, e) (mathMap st0)
    \/ display e = true
    \/ test_cjk (tex e) && negb (includes (tex e) (BACKSLASH :: lit "text")) = false.
Proof.
  set (P := fun st : codec_state =>
              forall k e,
                In (k, e) (mathMap st) ->
                In (k, e) (mathMap st0)
                \/ display e = true
                \/ test_cjk (tex e)
                   && negb (includes (tex e) (BACKSLASH :: lit "text")) = false).
  assert (H0 : P st0) by (intros k e H; now left).
  assert (Hcode : forall cb : codec_state -> jsstring -> list jsstring
                               -> codec_state * jsstring,
             (forall st matched groups,
                 mathMap (fst (cb st matched groups)) = mathMap st) ->
             forall st matched groups, P st -> P (fst (cb st matched groups))).
  { intros cb Hcb st matched groups Hst k e. rewrite Hcb. apply Hst. }
  change (P (fst (protect_stages st0 text))). unfold protect_stages.
  pose proof (replace_g_invariant P code_block on_code_block
                (Hcode on_code_block (fun _ _ _ => eq_refl)) text O true st0 H0) as H1.
  destruct (replace_g code_block on_code_block O true text st0) as [st1 p1].
  cbn [fst] in H1.
  pose proof (replace_g_invariant P inline_code on_inline_code
                (Hcode on_inline_code (fun _ _ _ => eq_refl)) p1 O true st1 H1) as H2.
  destruct (replace_g inline_code on_inline_code O true p1 st1) as [st2 p2].
  cbn [fst] in H2.
  pose proof (replace_g_invariant P escaped_dollar on_escaped_dollar
                (Hcode on_escaped_dollar (fun _ _ _ => eq_refl)) p2 O true st2 H2) as H3.
  destruct (replace_g escaped_dollar on_escaped_dollar O true p2 st2) as [st3 p3].
  cbn [fst] in H3.
  assert (H4 : P (fst (replace_g math_block on_math_block O true p3 st3))).
  { apply replace_g_invariant; [|exact H3].
    intros st matched groups Hst k e Hin. cbn [on_math_block fst mathMap] in Hin.
    apply map_set_In in Hin as [Hin| ->]; [now apply Hst|]. right. now left. }
  destruct (replace_g math_block on_math_block O true p3 st3) as [st4 p4].
  cbn [fst] in H4.
  apply replace_g_invariant; [|exact H4].
  intros st matched groups Hst k e. unfold on_inline_math.
  destruct (test_cjk (nth 0 groups [])
            && negb (includes (nth 0 groups []) (BACKSLASH :: lit "text"))) eqn:E;
    cbn [fst mathMap]; [apply Hst|].
  intros Hin. apply map_set_In in Hin as [Hin| ->]; [now apply Hst|].
  right. right. exact E.
Qed.

(** C9 (amended) — The inline-math replacement visits the text from left
    to right; what it matches are the [$…$] spans on one line, which with
    the code units between them make up the text.  A span whose body holds
    a CJK ideograph (a code unit in U+4E00..U+9FA5) and no [\text] is put
    back as it is, and what follows it is encoded from the table as it was
    before the span: no counter value is used and no placeholder created
    for it.  Whatever the document, the encoder adds no inline entry with
    such a body to the math table. *)
Theorem cjk_inline_math_unprotected (s : jsstring) (st : codec_state) (b : bool) :
  let visited := pieces inline_math O b s in
  List.concat (map source_of visited) = s
  /\ (forall matched groups,
         In (Matched matched groups) visited ->
         exists body,
           groups = [body]
           /\ matched = DOLLAR :: body ++ [DOLLAR]
           /\ body <> []
           /\ forallb (fun c => negb (c =? LF)) body = true)
  /\ (forall before matched body after,
         visited = before ++ Matched matched [body] :: after ->
         test_cjk body = true ->
         includes body (BACKSLASH :: lit "text") = false ->
         let r1 := rebuild on_inline_math before st in
         let r2 := rebuild on_inline_math after (fst r1) in
         replace_g inline_math on_inline_math O b s st
         = (fst r2, snd r1 ++ matched ++ snd r2))
  /\ (forall (text : jsval) k e,
         In (k, e) (mathMap (fst (_protectCodeAndMath st text))) ->
         In (k, e) (mathMap st)
         \/ display e = true
         \/ test_cjk (tex e) && negb (includes (tex e) (BACKSLASH :: lit "text"))
            = false).
Proof.
  intros visited. split; [|split; [|split]].
  - subst visited. now rewrite pieces_cover.
  - intros matched groups Hin.
    destruct (pieces_matched _ _ _ _ _ _ Hin) as (b' & t & len & Hm & ->).
    destruct (inline_math_shape _ _ _ _ Hm) as (body & Hg & Hf & Hne & Hlf).
    exists body. auto.
  - intros before matched body after Hv Hcjk Htext r1 r2.
    assert (Hcb : forall st', on_inline_math st' matched [body] = (st', matched)).
    { intros st'. unfold on_inline_math. cbn [nth]. now rewrite Hcjk, Htext. }
    rewrite replace_g_pieces. fold visited. rewrite Hv, rebuild_app.
    fold r1. cbn [rebuild]. rewrite Hcb. fold r2.
    now destruct r2.
  - intros text k e Hin. destruct text as [| |[|c t]]; try (now left).
    rewrite protect_nonempty in Hin by discriminate. cbn [fst] in Hin.
    now apply (protect_stages_math_entries st (c :: t)).
Qed.

End InlineMathCandidates.

(** The span of [`a` $五$]: the inline-math replacement meets it after the
    code before it has been replaced by its token and puts it back; the
    encoder returns the document as it came, with the code in the table
    and no math entry. *)
Lemma cjk_inline_math_unprotected_witness :
  let st := mkCodec 1 [(lit "CODEINLINE0ENDCODE", BACKTICK :: lit "a" ++ [BACKTICK])] [] in
  let s := lit "CODEINLINE0ENDCODE " ++ [DOLLAR; 20116; DOLLAR] in
  let doc := BACKTICK :: lit "a" ++ BACKTICK :: lit " " ++ [DOLLAR; 20116; DOLLAR] in
  Regex.replace_g Regex.inline_math Codec.on_inline_math O true s st = (st, s)
  /\ Codec._protectCodeAndMath (mkCodec 0 [] []) (JSString doc) = (st, doc).
Proof.
  intros st s doc. split.
  - refine (proj1 (proj2 (proj2 (cjk_inline_math_unprotected s st true)))
              (map Regex.Between (lit "CODEINLINE0ENDCODE "))
              [DOLLAR; 20116; DOLLAR] [20116] [] _ _ _);
      reflexivity.
  - vm_compute. reflexivity.
Defined.

(** C9, as stated, fails: a body of Cyrillic prose holds no code unit of
    the range the encoder tests, so the span is protected and typeset. *)
Lemma cyrillic_inline_math_protected :
  Regex.test_cjk [1094; 1077; 1085; 1072] = false
  /\ Codec._protectCodeAndMath (mkCodec 0 [] [])
       (JSString (DOLLAR :: [1094; 1077; 1085; 1072] ++ [DOLLAR]))
     = (mkCodec 1 []
          [(lit "MATHINLINE0ENDMATH", mkMath [1094; 1077; 1085; 1072] false)],
        lit "MATHINLINE0ENDMATH").
Proof. split; vm_compute; reflexivity. Qed.

(** *** Passes and firings *)

Lemma select_mermaid_class (n : node) :
  forall here p x,
    In (p, x) (select_mermaid n here) ->
    classList_contains x (lit "mermaid") = true.
Proof.
  induction n as [d|d|t attrs kids IH] using node_forall_ind;
    intros here p x Hin; try contradiction.
  cbn [select_mermaid] in Hin. apply in_app_or in Hin as [Hin|Hin].
  - destruct (classList_contains (ElementNode t attrs kids) (lit "mermaid")) eqn:E;
      [|contradiction].
    destruct Hin as [Hin|[]]. now injection Hin as _ <-.
  - revert Hin. generalize O. induction IH as [|k kids Hk _ IHkids]; intros i Hin;
      [contradiction|].
    apply in_app_or in Hin as [Hin|Hin]; [now apply (Hk _ _ _ Hin)|].
    now apply (IHkids (S i)).
Qed.

Lemma querySelectorAll_mermaid_class (kids : list node) (p : path) (x : node) :
  In (p, x) (querySelectorAll_mermaid kids) ->
  classList_contains x (lit "mermaid") = true.
Proof.
  unfold querySelectorAll_mermaid. generalize O.
  induction kids as [|k kids IH]; intros i Hin; [contradiction|].
  cbn [select_forest] in Hin. apply in_app_or in Hin as [Hin|Hin].
  - now apply (select_mermaid_class _ _ _ _ Hin).
  - now apply (IH (S i)).
Qed.

Lemma streaming_class_not_mermaid t attrs kids :
  lookup_attr (lit "class") attrs = Some (lit "mermaid-streaming") ->
  classList_contains (ElementNode t attrs kids) (lit "mermaid") = false.
Proof.
  intros H. unfold classList_contains, classList, getAttribute. now rewrite H.
Qed.

Lemma escape_char_cases (c : Z) :
  (needs_escape c = false /\ escape_char c = [c])
  \/ (c = 38 /\ escape_char c = lit "&amp;")
  \/ (c = 60 /\ escape_char c = lit "&lt;")
  \/ (c = 62 /\ escape_char c = lit "&gt;")
  \/ (c = 34 /\ escape_char c = lit "&quot;")
  \/ (c = 39 /\ escape_char c = lit "&#039;").
Proof.
  unfold escape_char, needs_escape.
  destruct (Z.eqb_spec c 38) as [->|H1]; [now (right; left)|].
  destruct (Z.eqb_spec c 60) as [->|H2]; [now (right; right; left)|].
  destruct (Z.eqb_spec c 62) as [->|H3]; [now (right; right; right; left)|].
  destruct (Z.eqb_spec c 34) as [->|H4]; [now (right; right; right; right; left)|].
  destruct (Z.eqb_spec c 39) as [->|H5]; [now (do 5 right)|].
  now left.
Qed.

Lemma needs_escape_false (c : Z) :
  needs_escape c = false ->
  c <> 38 /\ c <> 60 /\ c <> 62 /\ c <> 34 /\ c <> 39.
Proof.
  unfold needs_escape. rewrite !orb_false_iff, !Z.eqb_neq. tauto.
Qed.

Lemma escaped_no_markup (text : jsstring) (c : Z) :
  In c (_escapeHtml text) -> c <> 60 /\ c <> 62 /\ c <> 34 /\ c <> 39.
Proof.
  unfold _escapeHtml. intros Hin.
  apply in_flat_map in Hin as (x & _ & Hx).
  destruct (escape_char_cases x) as [[Hn E]|[[_ E]|[[_ E]|[[_ E]|[[_ E]|[_ E]]]]]];
    rewrite E in Hx.
  - destruct Hx as [<-|[]]. apply needs_escape_false in Hn. tauto.
  - vm_compute in Hx. repeat (destruct Hx as [<-|Hx]; [lia|]). contradiction.
  - vm_compute in Hx. repeat (destruct Hx as [<-|Hx]; [lia|]). contradiction.
  - vm_compute in Hx. repeat (destruct Hx as [<-|Hx]; [lia|]). contradiction.
  - vm_compute in Hx. repeat (destruct Hx as [<-|Hx]; [lia|]). contradiction.
  - vm_compute in Hx. repeat (destruct Hx as [<-|Hx]; [lia|]). contradiction.
Qed.

(** The escaped form reads back as the text. *)
Lemma read_refs_escapeHtml (text : jsstring) :
  read_refs O (_escapeHtml text) = text.
Proof.
  unfold _escapeHtml. induction text as [|x text IH]; [reflexivity|].
  cbn [flat_map].
  destruct (escape_char_cases x) as [[Hn E]|[[-> E]|[[-> E]|[[-> E]|[[-> E]|[-> E]]]]]];
    rewrite E.
  - apply needs_escape_false in Hn as (H38 & _).
    cbn [app read_refs].
    assert (Hno : forall name, starts_with (38 :: name) (x :: flat_map escape_char text)
                               = false).
    { intros name. cbn [starts_with].
      destruct (Z.eqb_spec 38 x) as [Heq|_]; [congruence|reflexivity]. }
    vm_compute (lit "&amp;"). vm_compute (lit "&lt;"). vm_compute (lit "&gt;").
    vm_compute (lit "&quot;"). vm_compute (lit "&#039;").
    rewrite !Hno. now rewrite IH.
  - vm_compute (lit "&amp;"). cbn -[flat_map escape_char]. now rewrite IH.
  - vm_compute (lit "&lt;"). cbn -[flat_map escape_char]. now rewrite IH.
  - vm_compute (lit "&gt;"). cbn -[flat_map escape_char]. now rewrite IH.
  - vm_compute (lit "&quot;"). cbn -[flat_map escape_char]. now rewrite IH.
  - vm_compute (lit "&#039;"). cbn -[flat_map escape_char]. now rewrite IH.
Qed.

Lemma select_mermaid_path (n : node) :
  forall here p x,
    In (p, x) (select_mermaid n here) -> exists q, p = List.rev here ++ q.
Proof.
  induction n as [d|d|t attrs kids IH] using node_forall_ind;
    intros here p x Hin; try contradiction.
  cbn [select_mermaid] in Hin. apply in_app_or in Hin as [Hin|Hin].
  - destruct (classList_contains (ElementNode t attrs kids) (lit "mermaid"));
      [|contradiction].
    destruct Hin as [Hin|[]]. injection Hin as <- _. exists []. now rewrite app_nil_r.
  - revert Hin. generalize O. induction IH as [|k kids Hk _ IHkids]; intros i Hin;
      [contradiction|].
    apply in_app_or in Hin as [Hin|Hin]; [|now apply (IHkids (S i))].
    destruct (Hk _ _ _ Hin) as (q & ->). cbn [List.rev].
    exists (i :: q). now rewrite <- app_assoc.
Qed.

Lemma select_forest_from (l : list node) :
  forall i p x,
    In (p, x) (select_forest l i) ->
    exists j k q,
      nth_error l j = Some k /\ p = (i + j)%nat :: q
      /\ In (p, x) (select_mermaid k [(i + j)%nat]).
Proof.
  induction l as [|k l IH]; intros i p x Hin; [contradiction|].
  cbn [select_forest] in Hin. apply in_app_or in Hin as [Hin|Hin].
  - destruct (select_mermaid_path _ _ _ _ Hin) as (q & Hq). cbn in Hq.
    exists O, k, q. rewrite Nat.add_0_r. auto.
  - destruct (IH (S i) p x Hin) as (j & k' & q & Hj & Hp & Hsel).
    exists (S j), k', q. replace (i + S j)%nat with (S i + j)%nat by lia. auto.
Qed.

Section ComponentFacts.

Variable rel : release.
Variable marked_parse :
  (jsstring -> jsval -> result jsstring) -> jsstring -> result jsstring.
Variable sanitize : jsstring -> list jsstring -> list jsstring -> result jsstring.
Variable katex_renderToString : jsstring -> bool -> result jsstring.
Variable mermaid_render : jsstring -> jsstring -> result jsstring.
Variable hljs_getLanguage : jsstring -> bool.
Variable hljs_highlight : jsstring -> jsstring -> result jsstring.
Variable outerHTML : node -> jsstring.
Variable parseHTML : jsstring -> list node.
Variable _decodeHtml : jsstring -> jsstring.
Variable random_id : nat -> jsstring.
Variable beforeParse : option (jsany -> result jsany).
Variable afterSanitize : option (jsstring -> result jsstring).
Variable onRendered : option (list node -> result (list node)).

#[local] Abbreviation the_renderer :=
  (renderer rel hljs_getLanguage hljs_highlight _decodeHtml).
#[local] Abbreviation the_markup :=
  (renderer_code rel hljs_getLanguage hljs_highlight _decodeHtml).
#[local] Abbreviation the_pass :=
  (_performRender rel marked_parse sanitize katex_renderToString
     hljs_getLanguage hljs_highlight outerHTML parseHTML _decodeHtml
     beforeParse afterSanitize onRendered).
#[local] Abbreviation the_render :=
  (render rel marked_parse sanitize katex_renderToString
     hljs_getLanguage hljs_highlight outerHTML parseHTML _decodeHtml
     beforeParse afterSanitize onRendered).
#[local] Abbreviation the_firing :=
  (mermaid_timer_fired rel mermaid_render parseHTML _decodeHtml random_id).
#[local] Abbreviation the_step :=
  (materialize rel mermaid_render parseHTML _decodeHtml random_id).

Lemma keeps_bind {A B : Type} (m : M A) (k : A -> M B) :
  keeps_latest m -> (forall a, keeps_latest (k a)) -> keeps_latest (bind m k).
Proof.
  intros Hm Hk c. unfold bind. specialize (Hm c).
  destruct (m c) as [c' [a|e]]; cbn [fst] in *; [|exact Hm].
  now rewrite Hk.
Qed.

Lemma keeps_lift {A : Type} (r : result A) : keeps_latest (lift r).
Proof. now intros c. Qed.

Lemma keeps_gets {A : Type} (f : component -> A) : keeps_latest (gets f).
Proof. now intros c. Qed.

Lemma keeps_modify (f : component -> component) :
  (forall c, _latestMarkdown (f c) = _latestMarkdown c) -> keeps_latest (modify f).
Proof. intros H c. apply H. Qed.

Lemma clearTimeout_latest id c :
  _latestMarkdown (clearTimeout id c) = _latestMarkdown c.
Proof. now destruct id. Qed.

Lemma schedule_latest c :
  _latestMarkdown (_scheduleMermaidRender c) = _latestMarkdown c.
Proof. unfold _scheduleMermaidRender. cbn. apply clearTimeout_latest. Qed.

Lemma pass_body_keeps_latest force text :
  keeps_latest
    (pass_body rel marked_parse sanitize katex_renderToString
       hljs_getLanguage hljs_highlight outerHTML parseHTML _decodeHtml
       beforeParse afterSanitize onRendered force text).
Proof.
  unfold pass_body, call_hook.
  repeat (apply keeps_bind; [|intros]);
    try apply keeps_lift; try apply keeps_gets;
    try (apply keeps_modify; intros c; try apply schedule_latest;
         try (destruct force); reflexivity);
    intros c; try reflexivity.
  now destruct (protect_any (codec c) a).
Qed.

Lemma performRender_latest force c :
  _latestMarkdown (the_pass force c) = _latestMarkdown c.
Proof.
  unfold _performRender.
  pose proof (pass_body_keeps_latest force (_latestMarkdown c) c) as H.
  destruct (pass_body _ _ _ _ _ _ _ _ _ _ _ _ _ _ c) as [c' [u|e]];
    cbn [fst] in H; exact H.
Qed.

(** C10 — [render] stores its argument as it is, or [''] when the argument
    is falsy: a string, [null] or [undefined], the empty string included,
    leaves a string in the stored source.  The [value] getter then answers
    the stored value, never [null] or [undefined], and the encode step maps
    the empty string to the empty string and touches nothing. *)
Theorem render_stores_argument_or_empty
  (markdownText : jsany) (force : bool) (c : component) :
  let c' := the_render markdownText force c in
  value c' = (if falsy_any markdownText then OfVal (JSString []) else markdownText)
  /\ (forall v, markdownText = OfVal v ->
                value c'
                = OfVal (JSString (match v with JSString s => s | _ => [] end)))
  /\ value c' <> OfVal JSNull
  /\ value c' <> OfVal JSUndefined
  /\ forall st, Codec._protectCodeAndMath st (JSString []) = (st, []).
Proof.
  intros c'.
  assert (H : value c' = or_empty markdownText).
  { unfold value. subst c'. unfold render.
    destruct force.
    - rewrite performRender_latest. unfold _clearTimers. cbn.
      now rewrite !clearTimeout_latest.
    - cbn [_isRendering with_latestMarkdown].
      destruct (_isRendering c); [reflexivity|].
      cbn [_renderTimer with_latestMarkdown]. now destruct (_renderTimer c). }
  rewrite H. unfold or_empty. repeat split.
  - intros v ->. now destruct v as [| |[|]].
  - destruct markdownText as [[| |[|]]|n|[|]|r]; cbn; try discriminate;
      now destruct (n =? 0).
  - destruct markdownText as [[| |[|]]|n|[|]|r]; cbn; try discriminate;
      now destruct (n =? 0).
Qed.

(** C8 — A pass in which marked or DOMPurify throws is abandoned with the
    container's children exactly as the pass found them, forced or not, and
    the error is written to the console with [console.error]. *)
Theorem failed_pass_leaves_tree
  (forceFullRender : bool) (c : component) (text : jsval) (err : error) :
  hooked beforeParse (_latestMarkdown c) = Ok (OfVal text) ->
  let processed := snd (Codec._protectCodeAndMath (mkCodec 0 [] []) text) in
  let parsed := marked_parse (the_renderer (_latestMarkdown c)) processed in
  (parsed = Throw err
   \/ exists html, parsed = Ok html
                   /\ sanitize html [lit "iframe"] (ADD_ATTR rel) = Throw err) ->
  let c' := the_pass forceFullRender c in
  container c' = container c /\ console c' = console c ++ [ConsoleError err].
Proof.
  intros Hhook processed parsed Hthrow c'. subst c' parsed processed.
  unfold _performRender, pass_body, call_hook, bind, lift, modify.
  rewrite Hhook. cbn [codec with_codec protect_any].
  destruct (Codec._protectCodeAndMath (mkCodec 0 [] []) text) as [st processed].
  cbn [snd _latestMarkdown with_codec] in *.
  destruct Hthrow as [Hparse|(html & Hparse & Hsan)]; rewrite Hparse.
  - now cbn.
  - rewrite Hsan. now cbn.
Qed.

#[local] Abbreviation the_loop :=
  (for_of rel mermaid_render parseHTML _decodeHtml random_id).
#[local] Abbreviation the_callback :=
  (timer_callback rel mermaid_render parseHTML _decodeHtml random_id).

Lemma materialize_step (c : component) (replaced : list path) (p : path) (n : node) :
  let c1 := fst (fst (the_step (c, replaced) (p, n))) in
  map snd (engine_calls c1)
  = map snd (engine_calls c)
    ++ match pending_code rel _decodeHtml n with
       | Some code => [code]
       | None => []
       end
  /\ _isMermaidWorking c1 = _isMermaidWorking c.
Proof.
  unfold materialize.
  destruct (pending_code rel _decodeHtml n) as [code|];
    [|cbn; now rewrite app_nil_r].
  destruct (mermaid_render _ code) as [svg|e].
  - destruct (negb _); cbn; rewrite map_app; auto.
  - destruct (on_failure _ _ _ _ _) as [n'|e']; [destruct (negb _)|];
      destruct rel; cbn; rewrite map_app; auto.
Qed.

(** A round returns when the [catch] block has nothing to trip over. *)
Lemma materialize_returns (acc : component * list path) (entry : path * node) :
  rel = v1_1_0
  \/ (forall id code err,
         mermaid_render id code = Throw err -> exists m, message err = Some m) ->
  snd (the_step acc entry) = Ok tt.
Proof.
  intros Hsafe. unfold materialize. destruct acc as [c replaced], entry as [p n].
  destruct (pending_code rel _decodeHtml n) as [code|]; [|reflexivity].
  destruct (mermaid_render _ code) as [svg|e] eqn:E; [reflexivity|].
  unfold on_failure. destruct Hsafe as [->|Hsafe]; [reflexivity|].
  destruct rel; [reflexivity|].
  destruct (Hsafe _ _ _ E) as (m & ->). reflexivity.
Qed.

Lemma for_of_calls (nodes : list (path * node)) :
  forall c replaced,
    let r := the_loop nodes (c, replaced) in
    exists visited rest,
      nodes = visited ++ rest
      /\ map snd (engine_calls (fst (fst r)))
         = map snd (engine_calls c) ++ targets rel _decodeHtml visited
      /\ _isMermaidWorking (fst (fst r)) = _isMermaidWorking c
      /\ (snd r = Ok tt -> rest = []).
Proof.
  induction nodes as [|[p n] nodes IH]; intros c replaced.
  - exists [], []. cbn. rewrite app_nil_r. auto.
  - cbn [for_of].
    destruct (materialize_step c replaced p n) as [Hcalls Hflag].
    destruct (the_step (c, replaced) (p, n)) as [[c1 r1] [[]|e]];
      cbn [fst snd] in Hcalls, Hflag.
    + destruct (IH c1 r1) as (visited & rest & Hn & Hc & Hf & Hr).
      exists ((p, n) :: visited), rest. cbn zeta in *. subst nodes.
      rewrite Hc, Hf, Hcalls, Hflag. repeat split; auto.
      unfold targets. cbn [flat_map snd]. now rewrite <- app_assoc.
    + exists [(p, n)], nodes. cbn [fst snd]. rewrite Hcalls, Hflag.
      repeat split; [|discriminate].
      unfold targets. cbn [flat_map snd]. now rewrite app_nil_r.
Qed.

Lemma for_of_returns (nodes : list (path * node)) :
  rel = v1_1_0
  \/ (forall id code err,
         mermaid_render id code = Throw err -> exists m, message err = Some m) ->
  forall acc, snd (the_loop nodes acc) = Ok tt.
Proof.
  intros Hsafe. induction nodes as [|entry nodes IH]; intros acc; [reflexivity|].
  cbn [for_of]. pose proof (materialize_returns acc entry Hsafe) as Hret.
  destruct (the_step acc entry) as [acc' [[]|e]]; cbn [snd] in Hret;
    [apply IH|discriminate].
Qed.

(** The engine is called for nodes of the scan and for nothing else,
    however the firing ends. *)
Lemma firing_calls_scanned (c : component) :
  exists visited,
    incl visited (querySelectorAll_mermaid (container c))
    /\ map snd (engine_calls (the_firing c))
       = map snd (engine_calls c) ++ targets rel _decodeHtml visited.
Proof.
  unfold mermaid_timer_fired, timer_callback.
  destruct (_isMermaidWorking c) eqn:Hflag.
  - exists []. split; [intros x []|]. cbn. now rewrite app_nil_r.
  - destruct (querySelectorAll_mermaid (container c)) as [|entry nodes] eqn:E.
    + exists []. split; [intros x []|]. cbn. now rewrite app_nil_r.
    + destruct (for_of_calls (entry :: nodes) (with_isMermaidWorking true c) [])
        as (visited & rest & Hn & Hcalls & _).
      exists visited. split.
      * rewrite Hn. now apply incl_appl, incl_refl.
      * destruct (the_loop (entry :: nodes) _) as [[c1 r1] [[]|e]];
          cbn [fst snd] in *; exact Hcalls.
Qed.

(** X26 — An engine failure is contained when the [catch] block can run to
    its end: in v1.1.0 always, in v1.2.0 when every value the engine
    rejects with carries a string [message], as an [Error] does.  The
    firing then hands to the engine every pending diagram node the scan has
    found, in order, whatever the engine answers for any of them, its
    promise is fulfilled, and the reentrancy flag is clear again when it
    ends. *)
Theorem engine_failure_contained (c : component) :
  _isMermaidWorking c = false ->
  rel = v1_1_0
  \/ (forall id code err,
         mermaid_render id code = Throw err -> exists m, message err = Some m) ->
  let c' := the_firing c in
  snd (the_callback c) = Ok tt
  /\ map snd (engine_calls c')
     = map snd (engine_calls c)
       ++ targets rel _decodeHtml (querySelectorAll_mermaid (container c))
  /\ _isMermaidWorking c' = false.
Proof.
  intros Hflag Hsafe c'. subst c'. unfold mermaid_timer_fired, timer_callback.
  rewrite Hflag.
  destruct (querySelectorAll_mermaid (container c)) as [|entry nodes] eqn:E.
  - cbn. now rewrite app_nil_r.
  - destruct (for_of_calls (entry :: nodes) (with_isMermaidWorking true c) [])
      as (visited & rest & Hn & Hcalls & _ & Hrest).
    pose proof (for_of_returns (entry :: nodes) Hsafe
                  (with_isMermaidWorking true c, [])) as Hret.
    destruct (the_loop (entry :: nodes) _) as [[c1 r1] [[]|e]];
      cbn [fst snd] in *; [|discriminate].
    rewrite (Hrest eq_refl), app_nil_r in Hn. subst visited.
    repeat split. exact Hcalls.
Qed.

(** C5 — A diagram fence the detector judges unclosed is rendered as a
    [div] of class [mermaid-streaming] around the escaped code: the code
    as marked handed it over, with its character references decoded first
    in v1.2.0.  The escaped code holds no markup character and reads back
    as the code.  No firing hands the block to the engine: where the parser
    reads the markup as that [div], no entry of the scan lies at or below
    it, wherever it stands among the container's children, and the engine
    is called for nodes of the scan and for nothing else. *)
Theorem unclosed_fence_never_materialized
  (latestMarkdown : jsval) (code : jsstring) :
  let cleanCode := match rel with
                   | v1_2_0 => _decodeHtml code
                   | v1_1_0 => code
                   end in
  let markup := the_markup latestMarkdown code (JSString (lit "mermaid")) in
  let preview :=
    ElementNode (lit "DIV") [(lit "class", lit "mermaid-streaming")]
      (match cleanCode with [] => [] | _ :: _ => [TextNode cleanCode] end) in
  _checkMermaidIntegrity rel latestMarkdown cleanCode = false ->
  parseHTML markup = [preview] ->
  (markup
   = lit "<div class=" ++ [34] ++ lit "mermaid-streaming" ++ [34] ++ lit ">"
     ++ _escapeHtml cleanCode ++ lit "</div>"
   /\ (forall ch, In ch (_escapeHtml cleanCode) ->
                  ch <> 60 /\ ch <> 62 /\ ch <> 34 /\ ch <> 39)
   /\ read_refs O (_escapeHtml cleanCode) = cleanCode)
  /\ (forall before after p n,
         In (p, n) (querySelectorAll_mermaid (before ++ parseHTML markup ++ after)) ->
         hd_error p <> Some (List.length before))
  /\ (forall kids p t attrs inner,
         lookup_attr (lit "class") attrs = Some (lit "mermaid-streaming") ->
         ~ In (p, ElementNode t attrs inner) (querySelectorAll_mermaid kids))
  /\ (forall c,
         exists visited,
           incl visited (querySelectorAll_mermaid (container c))
           /\ map snd (engine_calls (the_firing c))
              = map snd (engine_calls c) ++ targets rel _decodeHtml visited).
Proof.
  intros cleanCode markup preview Hopen Hparse. split; [|split; [|split]].
  - split; [|split].
    + subst markup preview cleanCode. unfold renderer_code.
      destruct rel; cbn [str_eqb]; rewrite str_eqb_refl, Hopen;
        cbn [negb]; unfold streaming_markup, quoted, QUOTE;
        cbn [app]; now rewrite <- ?app_assoc.
    + intros ch. apply escaped_no_markup.
    + apply read_refs_escapeHtml.
  - intros before after p n Hin Hhead. rewrite Hparse in Hin.
    destruct (select_forest_from _ _ _ _ Hin) as (j & k & q & Hj & Hp & Hsel).
    cbn [Nat.add] in Hp, Hsel. subst p. cbn [hd_error] in Hhead.
    injection Hhead as ->.
    rewrite nth_error_app2 in Hj by lia. rewrite Nat.sub_diag in Hj.
    cbn in Hj. injection Hj as <-.
    subst preview. cbn [select_mermaid] in Hsel.
    rewrite (streaming_class_not_mermaid (lit "DIV")
               [(lit "class", lit "mermaid-streaming")] _ eq_refl) in Hsel.
    now destruct cleanCode.
  - intros kids p t attrs inner Hclass Hin.
    apply querySelectorAll_mermaid_class in Hin.
    now rewrite (streaming_class_not_mermaid _ _ _ Hclass) in Hin.
  - exact firing_calls_scanned.
Qed.

End ComponentFacts.

Lemma failed_pass_leaves_tree_witness :
  let c' := _performRender v1_2_0 Sample.marked_throws Sample.sanitize_all
              Sample.katex_plain Sample.no_language Sample.highlight_plain
              Sample.outerHTML Sample.parse_as_text Sample.decode_plain
              None None None false Sample.shown_abc in
  container c' = [TextNode (lit "abc")]
  /\ console c'
     = [ConsoleError
          (mkError (lit "marked(): input parameter is of type [object Object]"))].
Proof.
  apply (failed_pass_leaves_tree v1_2_0 Sample.marked_throws Sample.sanitize_all
           Sample.katex_plain Sample.no_language Sample.highlight_plain
           Sample.outerHTML Sample.parse_as_text Sample.decode_plain
           None None None false Sample.shown_abc (JSString (lit "# title"))).
  - reflexivity.
  - left. reflexivity.
Defined.

(** [render(42)] leaves the number in the stored source; the forced pass
    that follows fails at the first [replace] of the encode step. *)
Lemma render_keeps_a_number :
  let c' := render v1_2_0 Sample.marked_throws Sample.sanitize_all
              Sample.katex_plain Sample.no_language Sample.highlight_plain
              Sample.outerHTML Sample.parse_as_text Sample.decode_plain
              None None None (JSNumber 42) true new_component in
  value c' = JSNumber 42
  /\ (forall s, value c' <> OfVal (JSString s))
  /\ console c'
     = [ConsoleError (TypeError "processed.replace is not a function")].
Proof.
  vm_compute. repeat split. intros s. discriminate.
Qed.

Lemma engine_failure_contained_witness :
  (let c' := mermaid_timer_fired v1_2_0 Sample.mermaid_rejects
               Sample.parse_as_text Sample.decode_plain dec Sample.two_pending in
   map snd (engine_calls c') = [lit "graph ???"; lit "graph TD; A-->B"]
   /\ _isMermaidWorking c' = false)
  /\ (let c' := mermaid_timer_fired v1_1_0 Sample.mermaid_rejects_text
                  Sample.parse_as_text Sample.decode_plain dec Sample.two_pending in
      map snd (engine_calls c') = [lit "graph ???"; lit "graph TD; A-->B"]
      /\ _isMermaidWorking c' = false).
Proof.
  split.
  - refine (proj2 (engine_failure_contained v1_2_0 Sample.mermaid_rejects
                     Sample.parse_as_text Sample.decode_plain dec
                     Sample.two_pending _ _)).
    + reflexivity.
    + right. intros id code err H. injection H as <-.
      now exists (lit "Parse error on line 1").
  - refine (proj2 (engine_failure_contained v1_1_0 Sample.mermaid_rejects_text
                     Sample.parse_as_text Sample.decode_plain dec
                     Sample.two_pending _ _)).
    + reflexivity.
    + left. reflexivity.
Defined.

(** C7 — In v1.2.0 a rejection that carries no string [message] is not
    contained.  The engine rejects the first of two pending diagrams with a
    plain string: the warning is written, the banner template throws at
    [_escapeHtml(err.message)], the exception leaves the loop and the
    callback, the second diagram is never handed to the engine, nothing is
    written to the tree, and the reentrancy flag stays set, so that every
    later firing returns at its first line.  v1.1.0, which does not read
    the caught value, goes on to the second diagram and clears the flag. *)
Theorem handler_failure_aborts_firing :
  let fired := timer_callback v1_2_0 Sample.mermaid_rejects_text
                 Sample.parse_as_text Sample.decode_plain dec Sample.two_pending in
  let c' := fst fired in
  snd fired
  = Throw (TypeError "Cannot read properties of undefined (reading 'replace')")
  /\ map snd (engine_calls c') = [lit "graph ???"]
  /\ container c' = container Sample.two_pending
  /\ console c'
     = [ConsoleWarn (Thrown (OfVal (JSString (lit "Parse error on line 1"))))]
  /\ _isMermaidWorking c' = true
  /\ (forall engine parse decode ids,
         mermaid_timer_fired v1_2_0 engine parse decode ids c' = c')
  /\ let c1 := mermaid_timer_fired v1_1_0 Sample.mermaid_rejects_text
                 Sample.parse_as_text Sample.decode_plain dec Sample.two_pending in
     map snd (engine_calls c1) = [lit "graph ???"; lit "graph TD; A-->B"]
     /\ _isMermaidWorking c1 = false.
Proof.
  vm_compute. repeat split.
Qed.

Lemma unclosed_fence_never_materialized_witness :
  renderer_code v1_2_0 Sample.no_language Sample.highlight_plain
    Sample.decode_refs (JSString Sample.open_fence)
    (lit "graph TD; A-->B") (JSString (lit "mermaid"))
  = lit "<div class=" ++ [34] ++ lit "mermaid-streaming" ++ [34] ++ lit ">"
    ++ _escapeHtml (lit "graph TD; A-->B") ++ lit "</div>"
  /\ renderer_code v1_1_0 Sample.no_language Sample.highlight_plain
       Sample.decode_refs (JSString Sample.open_fence)
       (lit "graph TD; A-->B") (JSString (lit "mermaid"))
     = lit "<div class=" ++ [34] ++ lit "mermaid-streaming" ++ [34] ++ lit ">"
       ++ _escapeHtml (lit "graph TD; A-->B") ++ lit "</div>".
Proof.
  split.
  - refine (proj1 (proj1 (unclosed_fence_never_materialized v1_2_0
                            Sample.mermaid_rejects Sample.no_language
                            Sample.highlight_plain Sample.parse_div
                            Sample.decode_refs dec
                            (JSString Sample.open_fence) (lit "graph TD; A-->B")
                            _ _))).
    + vm_compute. reflexivity.
    + vm_compute. reflexivity.
  - refine (proj1 (proj1 (unclosed_fence_never_materialized v1_1_0
                            Sample.mermaid_rejects Sample.no_language
                            Sample.highlight_plain Sample.parse_div
                            Sample.decode_refs dec
                            (JSString Sample.open_fence) (lit "graph TD; A-->B")
                            _ _))).
    + vm_compute. reflexivity.
    + vm_compute. reflexivity.
Defined.

(** In v1.2.0 the preview does not hold the escaped literal source: the
    character references of the code are decoded before it is escaped, so a
    fence whose source reads [A--&gt;B] is previewed as the markup
    [A--&gt;B], which shows [A-->B]; the escaped literal source is
    [A--&amp;gt;B]. *)
Lemma streaming_preview_decodes_first :
  let latest := JSString (lit "```mermaid" ++ [LF] ++ lit "A--&gt;B") in
  let code := lit "A--&gt;B" in
  _checkMermaidIntegrity v1_2_0 latest (Sample.decode_refs code) = false
  /\ renderer_code v1_2_0 Sample.no_language Sample.highlight_plain
       Sample.decode_refs latest code (JSString (lit "mermaid"))
     = lit "<div class=" ++ [34] ++ lit "mermaid-streaming" ++ [34] ++ lit ">"
       ++ lit "A--&gt;B" ++ lit "</div>"
  /\ _escapeHtml code = lit "A--&amp;gt;B"
  /\ renderer_code v1_2_0 Sample.no_language Sample.highlight_plain
       Sample.decode_refs latest code (JSString (lit "mermaid"))
     <> lit "<div class=" ++ [34] ++ lit "mermaid-streaming" ++ [34] ++ lit ">"
        ++ _escapeHtml code ++ lit "</div>".
Proof.
  vm_compute. repeat split. discriminate.
Qed.

(** * Further properties *)

(** ** HTML escaping *)

(** X1 — Escaped text holds no angle bracket and no quote, single or
    double, so it cannot open a tag or close an attribute value. *)
Theorem escapeHtml_no_markup (text : jsstring) :
  forall c, In c (_escapeHtml text) ->
            c <> 60 /\ c <> 62 /\ c <> 34 /\ c <> 39.
Proof.
  unfold _escapeHtml. intros c Hin.
  apply in_flat_map in Hin as (x & _ & Hx).
  destruct (escape_char_cases x) as [[Hn E]|[[_ E]|[[_ E]|[[_ E]|[[_ E]|[_ E]]]]]];
    rewrite E in Hx.
  - destruct Hx as [<-|[]]. apply needs_escape_false in Hn. tauto.
  - vm_compute in Hx. repeat (destruct Hx as [<-|Hx]; [lia|]). contradiction.
  - vm_compute in Hx. repeat (destruct Hx as [<-|Hx]; [lia|]). contradiction.
  - vm_compute in Hx. repeat (destruct Hx as [<-|Hx]; [lia|]). contradiction.
  - vm_compute in Hx. repeat (destruct Hx as [<-|Hx]; [lia|]). contradiction.
  - vm_compute in Hx. repeat (destruct Hx as [<-|Hx]; [lia|]). contradiction.
Qed.

Lemma escapeHtml_no_markup_witness :
  59 <> 60 /\ 59 <> 62 /\ 59 <> 34 /\ 59 <> 39.
Proof.
  apply (escapeHtml_no_markup (lit "a<b") 59). vm_compute. tauto.
Defined.

(** X2 — Escaping loses nothing: two texts with the same escaped form are
    the same text. *)
Theorem escapeHtml_injective (a b : jsstring) :
  _escapeHtml a = _escapeHtml b -> a = b.
Proof.
  unfold _escapeHtml. revert b.
  induction a as [|x a IH]; intros [|y b] H; cbn [flat_map] in H.
  - reflexivity.
  - destruct (escape_char_cases y) as [[_ E]|[[_ E]|[[_ E]|[[_ E]|[[_ E]|[_ E]]]]]];
      rewrite E in H; discriminate.
  - destruct (escape_char_cases x) as [[_ E]|[[_ E]|[[_ E]|[[_ E]|[[_ E]|[_ E]]]]]];
      rewrite E in H; discriminate.
  - destruct (escape_char_cases x)
      as [[Hx Ex]|[[Hx Ex]|[[Hx Ex]|[[Hx Ex]|[[Hx Ex]|[Hx Ex]]]]]];
      destruct (escape_char_cases y)
        as [[Hy Ey]|[[Hy Ey]|[[Hy Ey]|[[Hy Ey]|[[Hy Ey]|[Hy Ey]]]]]];
      rewrite Ex, Ey in H;
      repeat match goal with
             | Hn : needs_escape _ = false |- _ => apply needs_escape_false in Hn
             | Hc : ?z = _ |- _ => is_var z; subst z
             end;
      vm_compute (lit _) in H; cbn [app] in H;
      inversion H; subst;
      try (f_equal; now apply IH);
      try (exfalso; tauto).
Qed.

Lemma escapeHtml_injective_witness : lit "a<b" = lit "a<b".
Proof.
  apply (escapeHtml_injective (lit "a<b") (lit "a<b")). reflexivity.
Defined.

(** X3 — Text is returned as it came exactly when it holds none of the
    five characters the function rewrites (ampersand, angle brackets, the
    two quotes); escaping never shortens. *)
Theorem escapeHtml_fixed_iff_plain (text : jsstring) :
  (_escapeHtml text = text <-> forallb (fun c => negb (needs_escape c)) text = true)
  /\ (List.length text <= List.length (_escapeHtml text))%nat.
Proof.
  assert (Hlen : forall t, (List.length t <= List.length (_escapeHtml t))%nat).
  { induction t as [|c t IH]; [apply Nat.le_refl|].
    unfold _escapeHtml in *. cbn [flat_map]. rewrite length_app. cbn [List.length].
    destruct (escape_char_cases c) as [[_ E]|[[_ E]|[[_ E]|[[_ E]|[[_ E]|[_ E]]]]]];
      rewrite E; try (vm_compute (lit _)); cbn [List.length]; lia. }
  split; [|apply Hlen].
  induction text as [|c text IH]; [now split|].
  unfold _escapeHtml in *. cbn [flat_map forallb].
  destruct (escape_char_cases c) as [[Hn E]|Hsp].
  - rewrite E, Hn. cbn [app negb andb]. rewrite <- IH. split; congruence.
  - assert (Hc : needs_escape c = true)
      by (destruct Hsp as [[-> _]|[[-> _]|[[-> _]|[[-> _]|[-> _]]]]]; reflexivity).
    rewrite Hc. cbn [negb andb]. split; [|discriminate].
    intros H. exfalso.
    assert (Hl : (List.length (escape_char c ++ flat_map escape_char text)
                  = S (List.length text))%nat) by now rewrite H.
    rewrite length_app in Hl. pose proof (Hlen text) as Ht.
    unfold _escapeHtml in Ht.
    destruct Hsp as [[_ E]|[[_ E]|[[_ E]|[[_ E]|[_ E]]]]];
      rewrite E in Hl; vm_compute (lit _) in Hl; cbn [List.length] in Hl; lia.
Qed.

(** ** Fingerprint *)

Lemma toInt32_spec (x : Z) :
  (exists k, toInt32 x = x + k * 4294967296)
  /\ -2147483648 <= toInt32 x < 2147483648.
Proof.
  unfold toInt32. change (2 ^ 32) with 4294967296. change (2 ^ 31) with 2147483648.
  pose proof (Z.div_mod x 4294967296 ltac:(lia)) as Hdm.
  pose proof (Z.mod_pos_bound x 4294967296 ltac:(lia)) as Hb.
  destruct (Z.leb_spec 2147483648 (x mod 4294967296)); split; try lia.
  - exists (- (x / 4294967296) - 1). lia.
  - exists (- (x / 4294967296)). lia.
Qed.

Lemma toInt32_congr (a b k : Z) :
  a = b + k * 4294967296 -> toInt32 a = toInt32 b.
Proof.
  intros ->. unfold toInt32. change (2 ^ 32) with 4294967296.
  now rewrite Z_mod_plus_full.
Qed.

Lemma toInt32_fixed (x : Z) :
  -2147483648 <= x < 2147483648 -> toInt32 x = x.
Proof.
  intros Hx. destruct (toInt32_spec x) as [[k Hk] Hr]. lia.
Qed.

Lemma hash_step_poly (h c : Z) : hash_step h c = toInt32 (31 * h + c).
Proof.
  unfold hash_step. rewrite Z.shiftl_mul_pow2 by lia. change (2 ^ 5) with 32.
  destruct (toInt32_spec h) as [[k1 Hk1] _].
  destruct (toInt32_spec (toInt32 h * 32)) as [[k2 Hk2] _].
  apply (toInt32_congr _ _ (32 * k1 + k2)). lia.
Qed.

Lemma hash_fold (str : jsstring) :
  forall h h', h = toInt32 h' ->
               fold_left hash_step str h
               = toInt32 (fold_left (fun h c => 31 * h + c) str h').
Proof.
  induction str as [|c str IH]; intros h h' Hh; cbn [fold_left]; [exact Hh|].
  apply IH. rewrite hash_step_poly.
  destruct (toInt32_spec h') as [[k Hk] _].
  apply (toInt32_congr _ _ (31 * k)). lia.
Qed.

Lemma hash_int32 (str : jsstring) :
  fold_left hash_step str 0 = toInt32 (hash_poly str).
Proof. apply hash_fold. reflexivity. Qed.

(** X4 — The loop of [_hashCode] computes the polynomial hash with
    multiplier 31 over the code units, wrapped to a signed 32-bit integer:
    the shift, the subtraction and the [hash & hash] of every round amount
    to [31 * hash + char] modulo 2^32, and the result stays in the int32
    range. *)
Theorem hashCode_is_wrapped_polynomial (str : jsstring) :
  _hashCode str = toString36 (toInt32 (hash_poly str))
  /\ -2147483648 <= fold_left hash_step str 0 < 2147483648
  /\ forall c, fold_left hash_step (str ++ [c]) 0
               = toInt32 (31 * fold_left hash_step str 0 + c).
Proof.
  split; [|split].
  - unfold _hashCode. now rewrite hash_int32.
  - rewrite hash_int32. apply toInt32_spec.
  - intros c. rewrite fold_left_app. cbn [fold_left]. apply hash_step_poly.
Qed.

Lemma digit36_base36 (d : Z) : 0 <= d < 36 -> is_base36 (digit36 d) = true.
Proof.
  intros Hd. unfold is_base36, digit36.
  destruct (Z.ltb_spec d 10).
  - replace (48 <=? 48 + d) with true by (symmetry; apply Z.leb_le; lia).
    replace (48 + d <=? 57) with true by (symmetry; apply Z.leb_le; lia).
    reflexivity.
  - replace (97 <=? 97 + (d - 10)) with true by (symmetry; apply Z.leb_le; lia).
    replace (97 + (d - 10) <=? 122) with true by (symmetry; apply Z.leb_le; lia).
    apply orb_true_r.
Qed.

Lemma digit36_value_digit36 (d : Z) : 0 <= d < 36 -> digit36_value (digit36 d) = d.
Proof.
  intros Hd. unfold digit36_value, digit36.
  destruct (Z.ltb_spec d 10).
  - replace (48 + d <=? 57) with true by (symmetry; apply Z.leb_le; lia). lia.
  - replace (97 + (d - 10) <=? 57) with false by (symmetry; apply Z.leb_gt; lia).
    lia.
Qed.

Lemma to_radix36_digits (fuel : nat) :
  forall n acc,
    0 <= n < 36 ^ Z.of_nat fuel ->
    exists ds,
      to_radix36 fuel n acc = ds ++ acc
      /\ forallb is_base36 ds = true
      /\ (fuel <> O -> ds <> [])
      /\ forall v, fold_left (fun m c => 36 * m + digit36_value c) ds v
                   = v * 36 ^ Z.of_nat (List.length ds) + n.
Proof.
  induction fuel as [|fuel IH]; intros n acc Hn.
  - exists []. cbn in *. repeat split; try congruence. intros v. lia.
  - cbn [to_radix36].
    pose proof (Z.mod_pos_bound n 36 ltac:(lia)) as Hmod.
    pose proof (Z.div_mod n 36 ltac:(lia)) as Hdm.
    destruct (Z.eqb_spec (n / 36) 0) as [Hq|Hq].
    + exists [digit36 (n mod 36)]. cbn [app forallb fold_left List.length].
      rewrite digit36_base36, digit36_value_digit36 by lia.
      repeat split; try discriminate. intros v. change (36 ^ Z.of_nat 1) with 36. lia.
    + assert (Hn' : 0 <= n / 36 < 36 ^ Z.of_nat fuel).
      { split; [apply Z.div_pos; lia|].
        apply Z.div_lt_upper_bound; [lia|].
        rewrite Nat2Z.inj_succ, Z.pow_succ_r in Hn by lia. lia. }
      destruct (IH (n / 36) (digit36 (n mod 36) :: acc) Hn')
        as (ds & Hds & Hall & _ & Hval).
      exists (ds ++ [digit36 (n mod 36)]). rewrite Hds, <- app_assoc.
      cbn [app]. rewrite forallb_app, Hall. cbn [forallb].
      rewrite digit36_base36 by lia.
      repeat split; [now destruct ds|].
      intros v. rewrite fold_left_app, Hval. cbn [fold_left].
      rewrite digit36_value_digit36 by lia.
      rewrite length_app. cbn [List.length].
      rewrite Nat.add_1_r, Nat2Z.inj_succ, Z.pow_succ_r by lia. lia.
Qed.

Lemma toString36_parse (x : Z) :
  -2147483648 <= x < 2147483648 ->
  parse36 (toString36 x) = x
  /\ toString36 x <> []
  /\ forall c, In c (toString36 x) -> is_base36 c = true \/ c = 45.
Proof.
  intros Hx. unfold toString36.
  destruct (Z.ltb_spec x 0) as [Hneg|Hpos].
  - destruct (to_radix36_digits 7 (- x) []) as (ds & Hds & Hall & Hne & Hval).
    { change (36 ^ Z.of_nat 7) with 78364164096. lia. }
    rewrite Hds, app_nil_r. cbn [parse36]. rewrite Z.eqb_refl.
    unfold parse36_digits. rewrite Hval. repeat split; try discriminate; try lia.
    intros c [<-|Hin]; [now right|left].
    rewrite forallb_forall in Hall. now apply Hall.
  - destruct (to_radix36_digits 7 x []) as (ds & Hds & Hall & Hne & Hval).
    { change (36 ^ Z.of_nat 7) with 78364164096. lia. }
    rewrite Hds, app_nil_r. rewrite forallb_forall in Hall.
    repeat split; [|now apply Hne|intros c Hin; left; now apply Hall].
    destruct ds as [|d ds]; [exfalso; now apply Hne|].
    cbn [parse36].
    assert (Hd : is_base36 d = true) by (apply Hall; now left).
    destruct (Z.eqb_spec d 45) as [->|_]; [discriminate|].
    unfold parse36_digits. rewrite Hval. lia.
Qed.

(** X5 — A fingerprint is never the empty string and is written with the
    digits 0-9, the letters a-z and a leading minus sign only: the
    truthiness test of the reconciler on [data-code] never fails for it and
    it needs no escaping inside the attribute.  Read back in base 36 it
    gives the 32-bit hash, so two fingerprints are equal exactly when the
    wrapped polynomial hashes are. *)
Theorem hashCode_fingerprint_shape (str : jsstring) :
  truthy (Some (_hashCode str)) = true
  /\ (forall c, In c (_hashCode str) -> is_base36 c = true \/ c = 45)
  /\ parse36 (_hashCode str) = toInt32 (hash_poly str)
  /\ forall str',
       _hashCode str = _hashCode str'
       <-> toInt32 (hash_poly str) = toInt32 (hash_poly str').
Proof.
  assert (Hshape : forall s,
             parse36 (_hashCode s) = toInt32 (hash_poly s)
             /\ _hashCode s <> []
             /\ forall c, In c (_hashCode s) -> is_base36 c = true \/ c = 45).
  { intros s. unfold _hashCode. rewrite hash_int32.
    apply toString36_parse, toInt32_spec. }
  destruct (Hshape str) as (Hparse & Hne & Halpha).
  repeat split; auto.
  - unfold truthy. now destruct (_hashCode str).
  - intros H. rewrite <- Hparse, H. apply Hshape.
  - intros H. unfold _hashCode. now rewrite !hash_int32, H.
Qed.

(** X6 — The fingerprint does not tell all sources apart: wherever the two
    characters [Aa] stand in a source, putting [BB] in their place leaves
    the fingerprint as it was. *)
Theorem hashCode_collides (before after : jsstring) :
  before ++ lit "Aa" ++ after <> before ++ lit "BB" ++ after
  /\ _hashCode (before ++ lit "Aa" ++ after)
     = _hashCode (before ++ lit "BB" ++ after).
Proof.
  split.
  - intros H. apply app_inv_head in H. discriminate.
  - unfold _hashCode. rewrite !hash_int32. do 2 f_equal.
    unfold hash_poly. rewrite !fold_left_app.
    change (lit "Aa") with [65; 97]. change (lit "BB") with [66; 66].
    cbn [fold_left]. f_equal. lia.
Qed.

(** ** Fence completeness detector *)

Lemma slice_from_end (t : jsstring) (k : nat) :
  k <> O -> slice t (- Z.of_nat k) = skipn (List.length t - k) t.
Proof.
  intros Hk. unfold slice, JS.length.
  destruct (Z.ltb_spec (- Z.of_nat k) 0) as [_|H]; [|lia].
  f_equal. lia.
Qed.

Lemma drop_ws_all (s : jsstring) : forallb is_ws s = true -> drop_ws s = [].
Proof.
  induction s as [|c s IH]; [reflexivity|]. cbn [forallb drop_ws].
  intros H. apply andb_true_iff in H as [-> H]. now apply IH.
Qed.

Lemma drop_ws_before_fence (ws rest : jsstring) :
  forallb is_ws ws = true ->
  drop_ws (ws ++ lit "```" ++ rest) = lit "```" ++ rest.
Proof.
  induction ws as [|c ws IH]; [reflexivity|]. cbn [forallb app drop_ws].
  intros H. apply andb_true_iff in H as [-> H]. now apply IH.
Qed.

Lemma check_unfold (rel : release) (latest codeSnippet : jsstring) :
  latest <> [] -> trim codeSnippet <> [] ->
  _checkMermaidIntegrity rel (JSString latest) codeSnippet
  = fence_follows latest (searchPart_of rel (trim codeSnippet)).
Proof.
  intros Hl Ht. unfold _checkMermaidIntegrity.
  destruct latest; [congruence|].
  unfold JS.length. destruct (trim codeSnippet); [congruence|reflexivity].
Qed.

Lemma fence_follows_at (latest sp pre after : jsstring) :
  latest = pre ++ sp ++ after ->
  lastIndexOf latest sp = Z.of_nat (List.length pre) ->
  fence_follows latest sp = test_ws_fence after.
Proof.
  intros -> Hidx. unfold fence_follows. rewrite Hidx.
  destruct (Z.eqb_spec (Z.of_nat (List.length pre)) (-1)); [lia|].
  unfold JS.length. rewrite <- Nat2Z.inj_add, slice_nonneg.
  rewrite app_assoc, <- length_app, skipn_app, skipn_all, Nat.sub_diag.
  reflexivity.
Qed.

Lemma searchPart_skipn (rel : release) (t : jsstring) :
  searchPart_of rel t
  = skipn (List.length t - match rel with v1_2_0 => 50 | v1_1_0 => 20 end) t.
Proof.
  unfold searchPart_of, JS.length. destruct rel.
  - change (-20) with (- Z.of_nat 20). now rewrite slice_from_end.
  - destruct t as [|c t]; [reflexivity|].
    replace (Z.min (Z.of_nat (List.length (c :: t))) 50)
      with (Z.of_nat (Nat.min (List.length (c :: t)) 50)) by lia.
    rewrite slice_from_end by (cbn; lia). f_equal. lia.
Qed.

Lemma searchPart_nonempty (rel : release) (t : jsstring) :
  t <> [] -> searchPart_of rel t <> [].
Proof.
  intros Ht E. apply (f_equal (@List.length Z)) in E.
  rewrite searchPart_skipn, length_skipn in E.
  destruct t; [congruence|]. destruct rel; cbn [List.length] in E; lia.
Qed.

(** X7 — The text the detector searches for is a suffix of the trimmed
    block content and never longer than 50 code units (20 in v1.1.0); for a
    content of at most 20 code units it is the whole content in both
    releases, which then judge alike. *)
Theorem searchPart_bounded_suffix (rel : release) (trimmedSnippet : jsstring) :
  let cap := match rel with v1_2_0 => 50%nat | v1_1_0 => 20%nat end in
  (exists front, trimmedSnippet = front ++ searchPart_of rel trimmedSnippet)
  /\ List.length (searchPart_of rel trimmedSnippet)
     = Nat.min (List.length trimmedSnippet) cap
  /\ ((List.length trimmedSnippet <= 20)%nat ->
      searchPart_of rel trimmedSnippet = trimmedSnippet
      /\ forall latest snippet,
           trim snippet = trimmedSnippet ->
           _checkMermaidIntegrity v1_1_0 latest snippet
           = _checkMermaidIntegrity v1_2_0 latest snippet).
Proof.
  intros cap.
  assert (Hshort : forall r t, (List.length t <= 20)%nat -> searchPart_of r t = t).
  { intros r t Ht. rewrite searchPart_skipn.
    replace (List.length t - _)%nat with O by (destruct r; lia). reflexivity. }
  split; [|split].
  - exists (firstn (List.length trimmedSnippet - cap) trimmedSnippet).
    rewrite searchPart_skipn. symmetry. apply firstn_skipn.
  - rewrite searchPart_skipn, length_skipn. subst cap. destruct rel; lia.
  - intros Hlen. split; [now apply Hshort|].
    intros latest snippet <-. unfold _checkMermaidIntegrity.
    now rewrite !Hshort.
Qed.

(** X8 — A block is never judged closed when the source is missing or
    empty, nor when its content is nothing but whitespace. *)
Theorem unclosed_without_source_or_content
  (rel : release) (latest : jsval) (codeSnippet : jsstring) :
  falsy latest = true \/ forallb is_ws codeSnippet = true ->
  _checkMermaidIntegrity rel latest codeSnippet = false.
Proof.
  intros [Hl|Hs]; unfold _checkMermaidIntegrity.
  - now destruct latest as [| |[|]].
  - destruct latest as [| |[|c l]]; try reflexivity.
    unfold trim. rewrite (drop_ws_all _ Hs). reflexivity.
Qed.

Lemma unclosed_without_source_or_content_witness :
  _checkMermaidIntegrity v1_2_0 JSNull (lit "graph TD") = false
  /\ _checkMermaidIntegrity v1_2_0 (JSString Sample.closed_fence) [32; 10; 9]
     = false.
Proof.
  split.
  - apply unclosed_without_source_or_content. left. reflexivity.
  - apply unclosed_without_source_or_content. right. reflexivity.
Defined.

(** X9 — With the last occurrence of the search text in the source at a
    known place, the verdict is read off what follows it: closed when
    optional whitespace and three backticks follow, unclosed when only
    whitespace follows, as for a block still streaming at the end of the
    source. *)
Theorem verdict_at_last_occurrence
  (rel : release) (pre after codeSnippet : jsstring) :
  let searchPart := searchPart_of rel (trim codeSnippet) in
  let latest := pre ++ searchPart ++ after in
  trim codeSnippet <> [] ->
  lastIndexOf latest searchPart = Z.of_nat (List.length pre) ->
  _checkMermaidIntegrity rel (JSString latest) codeSnippet = test_ws_fence after
  /\ (forall ws rest,
         after = ws ++ lit "```" ++ rest -> forallb is_ws ws = true ->
         _checkMermaidIntegrity rel (JSString latest) codeSnippet = true)
  /\ (forallb is_ws after = true ->
      _checkMermaidIntegrity rel (JSString latest) codeSnippet = false).
Proof.
  intros searchPart latest Htrim Hidx.
  assert (Hsp : searchPart <> []) by now apply searchPart_nonempty.
  assert (Hv : _checkMermaidIntegrity rel (JSString latest) codeSnippet
               = test_ws_fence after).
  { rewrite check_unfold; [|subst latest; now destruct pre, searchPart|exact Htrim].
    now apply (fence_follows_at latest searchPart pre after). }
  split; [exact Hv|split].
  - intros ws rest -> Hws. rewrite Hv. unfold test_ws_fence.
    rewrite (drop_ws_before_fence ws rest Hws). apply starts_with_self_app.
  - intros Hws. rewrite Hv. unfold test_ws_fence. now rewrite (drop_ws_all _ Hws).
Qed.

Lemma verdict_at_last_occurrence_witness :
  _checkMermaidIntegrity v1_2_0 (JSString Sample.closed_fence) (lit "A") = true.
Proof.
  refine (proj1 (proj2 (verdict_at_last_occurrence v1_2_0
                          (lit "```mermaid" ++ [LF]) ([LF] ++ lit "```") (lit "A") _ _))
            [LF] [] eq_refl eq_refl).
  - discriminate.
  - reflexivity.
Defined.

(** ** Tree reconciler *)

Lemma flat_map_nil {A B : Type} (f : A -> list B) (l : list A) :
  (forall x, In x l -> f x = []) -> flat_map f l = [].
Proof.
  induction l as [|x l IH]; intros H; cbn; [reflexivity|].
  rewrite (H x) by now left. apply IH. intros; apply H; now right.
Qed.

Lemma flat_map_singletons {A B : Type} (f : A -> list B) (g : A -> B) (l : list A) :
  (forall x, In x l -> f x = [g x]) -> flat_map f l = map g l.
Proof.
  induction l as [|x l IH]; intros H; cbn; [reflexivity|].
  rewrite (H x) by now left. cbn. f_equal. apply IH. intros; apply H; now right.
Qed.

Lemma seq_from (a n : nat) : seq a n = map (Nat.add a) (seq 0 n).
Proof.
  revert a; induction n as [|n IH]; intros a; [reflexivity|].
  cbn [seq map]. rewrite Nat.add_0_r. f_equal.
  rewrite (IH (S a)), (IH 1%nat), map_map. apply map_ext. intros; lia.
Qed.

Lemma collect_nth_error_map {A B : Type} (g : A -> B) (l : list A) :
  flat_map (fun i => match nth_error l i with Some x => [g x] | None => [] end)
           (seq 0 (List.length l)) = map g l.
Proof.
  induction l as [|x l IH]; [reflexivity|].
  cbn [List.length seq flat_map nth_error app map].
  rewrite <- seq_shift, flat_map_concat_map, map_map, <- flat_map_concat_map.
  cbn [nth_error]. now rewrite IH.
Qed.

Section ReconcilerMore.

Variable outerHTML : node -> jsstring.
Variable rel : release.

Lemma patched_extend (oldNodes extra : list node) :
  patched outerHTML rel oldNodes (oldNodes ++ extra) = oldNodes ++ extra.
Proof.
  induction oldNodes as [|o os IH]; cbn [app patched].
  - destruct extra; [reflexivity|]. unfold cloneNode. now rewrite map_id.
  - now rewrite reconcile_self, IH.
Qed.

Lemma patched_truncate (newNodes extra : list node) :
  patched outerHTML rel (newNodes ++ extra) newNodes = newNodes.
Proof.
  induction newNodes as [|n ns IH]; cbn [app patched].
  - now destruct extra.
  - now rewrite reconcile_self, IH.
Qed.

Lemma reconcile_update_text_node (newNode oldNode : node) (s : jsstring) :
  reconcile outerHTML rel newNode oldNode = UpdateText s -> TextNode s = newNode.
Proof.
  unfold reconcile. destruct (negb _ || negb _); [discriminate|].
  destruct newNode; cbn.
  - destruct (negb _); congruence.
  - repeat match goal with
           | |- (if ?b then _ else _) = _ -> _ => destruct b
           end; discriminate.
  - discriminate.
Qed.

Lemma reconcile_keep_reason (newNode oldNode : node) :
  reconcile outerHTML rel newNode oldNode = Keep ->
  oldNode = newNode \/ kept_reason outerHTML rel newNode oldNode.
Proof.
  unfold reconcile, kept_reason.
  destruct (Z.eqb_spec (nodeType newNode) (nodeType oldNode)) as [Etype|];
    [|discriminate].
  destruct (opt_str_eqb (tagName newNode) (tagName oldNode)) eqn:Etag;
    [|discriminate].
  apply opt_str_eqb_eq in Etag. cbn [negb orb].
  destruct newNode as [d|t attrs kids|d]; cbn [nodeType] in *.
  - destruct oldNode as [d'| |]; try discriminate. cbn [textContent].
    destruct (str_eqb d d') eqn:E; [|discriminate].
    apply str_eqb_eq in E. left. congruence.
  - change (ELEMENT_NODE =? TEXT_NODE) with false.
    change (ELEMENT_NODE =? ELEMENT_NODE) with true. cbv iota.
    destruct (_ && _ && _ && _) eqn:Erule.
    + intros _. right. repeat split; auto.
      apply andb_true_iff in Erule as [Erule Eh].
      apply andb_true_iff in Erule as [Erule Em].
      apply andb_true_iff in Erule as [Ecn Eco].
      apply andb_true_iff in Eh as [Eh1 Eh2]. apply opt_str_eqb_eq in Eh2.
      right. auto.
    + destruct (str_eqb (outerHTML (ElementNode t attrs kids)) (outerHTML oldNode))
        eqn:Eo; cbn [negb].
      * apply str_eqb_eq in Eo. intros _. right. repeat split; auto.
      * destruct (str_eqb (className _) (className _)); discriminate.
  - intros _. right. repeat split; auto.
Qed.

Lemma patched_converges (oldNodes newNodes : list node) :
  forall i r,
    nth_error (patched outerHTML rel oldNodes newNodes) i = Some r ->
    exists n,
      nth_error newNodes i = Some n
      /\ (r = n
          \/ (nth_error oldNodes i = Some r
              /\ kept_reason outerHTML rel n r)).
Proof.
  revert newNodes; induction oldNodes as [|o os IH]; intros [|n ns] i r Hr;
    cbn [patched] in Hr.
  - now rewrite nth_error_nil in Hr.
  - unfold cloneNode in Hr. rewrite map_id in Hr. exists r. auto.
  - now rewrite nth_error_nil in Hr.
  - destruct i as [|i]; cbn [nth_error] in *.
    + injection Hr as <-. exists n. split; [reflexivity|].
      destruct (reconcile outerHTML rel n o) eqn:E; cbn [apply_action].
      * destruct (reconcile_keep_reason _ _ E) as [->|Hk]; auto.
      * destruct (reconcile_replace _ _ _ _ _ E) as [-> _]. auto.
      * left. now apply (reconcile_update_text_node n o).
    + now apply IH.
Qed.

Lemma patched_length (oldNodes newNodes : list node) :
  List.length (patched outerHTML rel oldNodes newNodes) = List.length newNodes.
Proof.
  revert newNodes; induction oldNodes as [|o os IH]; intros [|n ns];
    cbn [patched List.length]; auto.
  - now rewrite length_map.
Qed.

(** X10 — Append-only growth: when the candidate tree is the old tree with
    nodes added at the end, the call performs exactly one [appendChild] per
    added node, in order, and nothing else; the old nodes are not
    touched. *)
Theorem updateDOM_appends_only (oldNodes extra : list node) :
  let st := updateDOM_nodes outerHTML rel oldNodes (oldNodes ++ extra) in
  children st = oldNodes ++ extra
  /\ mutations st = map AppendChild extra.
Proof.
  intros st. subst st. split.
  - rewrite updateDOM_nodes_children. apply patched_extend.
  - rewrite updateDOM_nodes_mutations, length_app.
    replace (Nat.max (List.length oldNodes + List.length extra)
                     (List.length oldNodes))
      with (List.length oldNodes + List.length extra)%nat by lia.
    rewrite seq_app, flat_map_app. cbn [Nat.add].
    rewrite flat_map_nil.
    + cbn [app]. rewrite seq_from, flat_map_concat_map, map_map,
        <- flat_map_concat_map.
      rewrite <- (collect_nth_error_map AppendChild extra).
      apply flat_map_ext. intros i. unfold mutations_of.
      rewrite nth_error_app2 by lia.
      replace (nth_error oldNodes (List.length oldNodes + i)) with (@None node)
        by (symmetry; apply nth_error_None; lia).
      replace (List.length oldNodes + i - List.length oldNodes)%nat with i by lia.
      reflexivity.
    + intros j Hj. apply in_seq in Hj. unfold mutations_of.
      rewrite nth_error_app1 by lia.
      destruct (nth_error oldNodes j) as [o|] eqn:Eo.
      * now rewrite reconcile_self.
      * apply nth_error_None in Eo. lia.
Qed.

(** X11 — Truncation: when the candidate tree is a front part of the old
    tree, the call removes the old nodes past its end, one [remove] each,
    and nothing else. *)
Theorem updateDOM_removes_only (newNodes extra : list node) :
  let st := updateDOM_nodes outerHTML rel (newNodes ++ extra) newNodes in
  children st = newNodes
  /\ mutations st
     = map RemoveChild (seq (List.length newNodes) (List.length extra)).
Proof.
  intros st. subst st. split.
  - rewrite updateDOM_nodes_children. apply patched_truncate.
  - rewrite updateDOM_nodes_mutations, length_app.
    replace (Nat.max (List.length newNodes)
                     (List.length newNodes + List.length extra))
      with (List.length newNodes + List.length extra)%nat by lia.
    rewrite seq_app, flat_map_app. cbn [Nat.add].
    rewrite flat_map_nil.
    + cbn [app]. apply flat_map_singletons. intros j Hj.
      apply in_seq in Hj. unfold mutations_of.
      replace (nth_error newNodes j) with (@None node)
        by (symmetry; apply nth_error_None; lia).
      destruct (nth_error (newNodes ++ extra) j) eqn:E; [reflexivity|].
      apply nth_error_None in E. rewrite length_app in E. lia.
    + intros j Hj. apply in_seq in Hj. unfold mutations_of.
      rewrite nth_error_app1 by lia.
      destruct (nth_error newNodes j) as [n|] eqn:En.
      * now rewrite reconcile_self.
      * apply nth_error_None in En. lia.
Qed.

(** X12 — Convergence: after a call the container has as many children as
    the candidate tree, and every child is the candidate node of its
    position or an old node the reconciler had a reason to keep: an element
    that serializes like the candidate, a materialized diagram with the
    candidate's fingerprint, or a comment (an old comment stays even when
    the candidate comment reads differently). *)
Theorem updateDOM_converges (oldNodes newNodes : list node) :
  let st := updateDOM_nodes outerHTML rel oldNodes newNodes in
  List.length (children st) = List.length newNodes
  /\ forall i r,
       nth_error (children st) i = Some r ->
       exists n,
         nth_error newNodes i = Some n
         /\ (r = n
             \/ (nth_error oldNodes i = Some r
                 /\ kept_reason outerHTML rel n r)).
Proof.
  intros st. subst st. rewrite updateDOM_nodes_children. split.
  - apply patched_length.
  - apply patched_converges.
Qed.

End ReconcilerMore.

(** ** Sub-render pipeline *)

Lemma lookup_set_attr_same (k v : jsstring) attrs :
  lookup_attr k (set_attr k v attrs) = Some v.
Proof.
  induction attrs as [|[k' w] attrs IH]; cbn [set_attr lookup_attr].
  - now rewrite str_eqb_refl.
  - destruct (str_eqb k' k) eqn:E; cbn [lookup_attr]; now rewrite E.
Qed.

Lemma lookup_set_attr_other (k k' v : jsstring) attrs :
  str_eqb k k' = false ->
  lookup_attr k' (set_attr k v attrs) = lookup_attr k' attrs.
Proof.
  intros Hk. induction attrs as [|[k0 w] attrs IH]; cbn [set_attr lookup_attr].
  - now rewrite Hk.
  - destruct (str_eqb k0 k) eqn:E; cbn [lookup_attr].
    + apply str_eqb_eq in E. subst k0. now rewrite Hk.
    + now rewrite IH.
Qed.

(** A token as a token list holds it: not empty, no whitespace inside. *)
Lemma split_tokens_run (t cur rest : jsstring) :
  forallb (fun c => negb (is_ascii_ws c)) t = true ->
  split_tokens cur (t ++ rest) = split_tokens (List.rev t ++ cur) rest.
Proof.
  revert cur; induction t as [|c t IH]; intros cur H; [reflexivity|].
  cbn [forallb] in H. apply andb_true_iff in H as [Hc Ht].
  apply negb_true_iff in Hc. cbn [app split_tokens List.rev]. rewrite Hc.
  rewrite (IH (c :: cur) Ht), <- app_assoc. reflexivity.
Qed.

Lemma split_tokens_wf (s cur : jsstring) :
  forallb (fun c => negb (is_ascii_ws c)) cur = true ->
  forall t, In t (split_tokens cur s) ->
            t <> [] /\ forallb (fun c => negb (is_ascii_ws c)) t = true.
Proof.
  revert cur; induction s as [|c s IH]; intros cur Hcur t Hin;
    cbn [split_tokens] in Hin.
  - destruct cur as [|x cur]; [contradiction|].
    destruct Hin as [<-|[]]. split.
    + intros E. apply (f_equal (@List.length Z)) in E.
      rewrite length_rev in E. discriminate.
    + rewrite forallb_forall in *. intros y Hy. apply Hcur.
      now apply in_rev.
  - destruct (is_ascii_ws c) eqn:Ec.
    + destruct cur as [|x cur]; [now apply (IH [])|].
      destruct Hin as [<-|Hin]; [|now apply (IH [])].
      split.
      * intros E. apply (f_equal (@List.length Z)) in E.
        rewrite length_rev in E. discriminate.
      * rewrite forallb_forall in *. intros y Hy. apply Hcur. now apply in_rev.
    + apply (IH (c :: cur)); [|exact Hin]. cbn [forallb]. now rewrite Ec.
Qed.

Lemma split_serialize (tokens : list jsstring) :
  (forall t, In t tokens ->
             t <> [] /\ forallb (fun c => negb (is_ascii_ws c)) t = true) ->
  split_tokens [] (serialize_tokens tokens) = tokens.
Proof.
  induction tokens as [|t tokens IH]; intros Hwf; [reflexivity|].
  destruct (Hwf t (or_introl eq_refl)) as [Hne Hws].
  assert (Hrev : List.rev t <> []).
  { intros E. apply (f_equal (@List.length Z)) in E. rewrite length_rev in E.
    destruct t; [congruence|discriminate]. }
  destruct tokens as [|t' tokens].
  - cbn [serialize_tokens]. rewrite <- (app_nil_r t) at 1.
    rewrite split_tokens_run by exact Hws.
    rewrite app_nil_r. cbn [split_tokens].
    destruct (List.rev t) eqn:E; [congruence|]. now rewrite <- E, rev_involutive.
  - change (serialize_tokens (t :: t' :: tokens))
      with (t ++ 32 :: serialize_tokens (t' :: tokens)).
    rewrite split_tokens_run by exact Hws. rewrite app_nil_r.
    cbn [split_tokens]. change (is_ascii_ws 32) with true. cbv iota.
    destruct (List.rev t) eqn:E; [congruence|]. rewrite <- E, rev_involutive.
    f_equal. apply IH. intros x Hx. apply Hwf. now right.
Qed.

Lemma ordered_set_subset (l seen : list jsstring) (t : jsstring) :
  In t (ordered_set seen l) -> In t l.
Proof.
  revert seen; induction l as [|x l IH]; intros seen H; [contradiction|].
  cbn [ordered_set] in H. destruct (existsb (str_eqb x) seen).
  - right. now apply (IH seen).
  - destruct H as [<-|H]; [now left|right; now apply (IH (x :: seen))].
Qed.

Lemma ordered_set_keeps (l seen : list jsstring) (t : jsstring) :
  In t l -> existsb (str_eqb t) seen = false -> In t (ordered_set seen l).
Proof.
  revert seen; induction l as [|x l IH]; intros seen Hin Hseen; [contradiction|].
  cbn [ordered_set]. destruct (existsb (str_eqb x) seen) eqn:Ex.
  - destruct Hin as [->|Hin]; [congruence|now apply IH].
  - destruct (str_eqb t x) eqn:Etx.
    + apply str_eqb_eq in Etx. subst x. now left.
    + destruct Hin as [->|Hin]; [now rewrite str_eqb_refl in Etx|].
      right. apply IH; [exact Hin|]. cbn [existsb]. now rewrite Etx.
Qed.

Lemma classList_contains_in (n : node) (token : jsstring) :
  classList_contains n token = true <-> In token (classList n).
Proof.
  unfold classList_contains. rewrite existsb_exists. split.
  - intros (x & Hx & E). apply str_eqb_eq in E. now subst.
  - intros H. exists token. split; [exact H|apply str_eqb_refl].
Qed.

Lemma classList_wf (n : node) (t : jsstring) :
  In t (classList n) ->
  t <> [] /\ forallb (fun c => negb (is_ascii_ws c)) t = true.
Proof.
  unfold classList. destruct (getAttribute n (lit "class")); [|contradiction].
  now apply split_tokens_wf.
Qed.

Lemma classList_write_tokens t attrs kids (tokens : list jsstring) :
  tokens <> [] ->
  (forall x, In x tokens ->
             x <> [] /\ forallb (fun c => negb (is_ascii_ws c)) x = true) ->
  classList (write_tokens (ElementNode t attrs kids) tokens) = tokens.
Proof.
  intros Hne Hwf. unfold write_tokens. destruct tokens as [|x tokens]; [congruence|].
  unfold classList, setAttribute, getAttribute.
  rewrite lookup_set_attr_same. now apply split_serialize.
Qed.

Lemma classList_remove_keeps (n : node) (token other : jsstring) :
  str_eqb token other = false ->
  classList_contains n other = true ->
  classList_contains (classList_remove n token) other = true
  /\ (forall k, str_eqb (lit "class") k = false ->
                getAttribute (classList_remove n token) k = getAttribute n k)
  /\ tagName (classList_remove n token) = tagName n
  /\ nodeType (classList_remove n token) = nodeType n.
Proof.
  intros Hne Hin. destruct n as [d|t attrs kids|d]; try discriminate.
  apply classList_contains_in in Hin.
  set (n := ElementNode t attrs kids) in *.
  set (tokens := filter (fun x => negb (str_eqb token x))
                        (ordered_set [] (classList n))).
  assert (Hother : In other tokens).
  { apply filter_In. split; [now apply ordered_set_keeps|now rewrite Hne]. }
  assert (Hwf : forall x, In x tokens ->
                          x <> [] /\ forallb (fun c => negb (is_ascii_ws c)) x = true).
  { intros x Hx. apply filter_In in Hx as [Hx _].
    apply ordered_set_subset in Hx. now apply (classList_wf n). }
  assert (Htok : tokens <> []) by (intros E; now rewrite E in Hother).
  unfold classList_remove. fold tokens. repeat split.
  - apply classList_contains_in. subst n.
    now rewrite classList_write_tokens.
  - intros k Hk. subst n. unfold write_tokens.
    destruct tokens; [congruence|]. cbn [setAttribute getAttribute].
    now apply lookup_set_attr_other.
  - subst n. unfold write_tokens. now destruct tokens.
  - subst n. unfold write_tokens. now destruct tokens.
Qed.

Section PipelineFacts.

Variable rel : release.
Variable mermaid_render : jsstring -> jsstring -> result jsstring.
Variable outerHTML : node -> jsstring.
Variable parseHTML : jsstring -> list node.
Variable _decodeHtml : jsstring -> jsstring.
Variable random_id : nat -> jsstring.

(** X13 — A materialized diagram survives the next pass: after the
    pipeline has put the rendered graphic into a diagram node, a candidate
    of the same tag and the same fingerprint leaves that node in place,
    whatever the two serialize to.  (In v1.1.0 the test looks for the
    [svg] element, so the graphic must parse to one.) *)
Theorem materialized_survives_next_pass
  (oldNode candidate : node) (svg h : jsstring) :
  nodeType candidate = ELEMENT_NODE ->
  tagName candidate = tagName oldNode ->
  classList_contains candidate (lit "mermaid") = true ->
  classList_contains oldNode (lit "mermaid") = true ->
  getAttribute candidate (lit "data-code") = Some h ->
  getAttribute oldNode (lit "data-code") = Some h ->
  h <> [] ->
  (rel = v1_1_0 -> existsb has_svg (parseHTML svg) = true) ->
  reconcile outerHTML rel candidate (on_success rel parseHTML oldNode svg) = Keep.
Proof.
  intros Hn Ht Hcn Hco Hhn Hho Hh Hsvg.
  destruct oldNode as [d|t attrs kids|d]; try discriminate.
  set (n2 := setAttribute (set_childNodes (ElementNode t attrs kids) (parseHTML svg))
               (lit "data-rendered") (lit "true")).
  assert (Hclass2 : classList_contains n2 (lit "mermaid") = true).
  { unfold classList_contains, classList in *. subst n2.
    cbn [set_childNodes setAttribute getAttribute] in *.
    now rewrite lookup_set_attr_other. }
  assert (Hcode2 : getAttribute n2 (lit "data-code") = Some h).
  { subst n2. cbn [set_childNodes setAttribute getAttribute] in *.
    now rewrite lookup_set_attr_other. }
  assert (Hdr2 : getAttribute n2 (lit "data-rendered") = Some (lit "true")).
  { subst n2. cbn [set_childNodes setAttribute getAttribute].
    apply lookup_set_attr_same. }
  apply (reconcile_preserves outerHTML rel candidate _ h); auto.
  - unfold on_success. fold n2. destruct rel; [reflexivity|].
    now destruct (classList_remove_keeps n2 (lit "mermaid-error") (lit "mermaid")
                    eq_refl Hclass2) as (_ & _ & _ & ->).
  - unfold on_success. fold n2. destruct rel; [now rewrite Ht|].
    destruct (classList_remove_keeps n2 (lit "mermaid-error") (lit "mermaid")
                eq_refl Hclass2) as (_ & _ & -> & _).
    now rewrite Ht.
  - unfold on_success. fold n2. destruct rel; [exact Hclass2|].
    now destruct (classList_remove_keeps n2 (lit "mermaid-error") (lit "mermaid")
                    eq_refl Hclass2) as (-> & _).
  - unfold on_success, materialized. fold n2. destruct rel.
    + subst n2. cbn [set_childNodes setAttribute querySelector_svg]. now apply Hsvg.
    + unfold dataset_rendered_true.
      destruct (classList_remove_keeps n2 (lit "mermaid-error") (lit "mermaid")
                  eq_refl Hclass2) as (_ & Hattr & _).
      rewrite Hattr by reflexivity. rewrite Hdr2. reflexivity.
  - unfold on_success. fold n2. destruct rel; [exact Hcode2|].
    destruct (classList_remove_keeps n2 (lit "mermaid-error") (lit "mermaid")
                eq_refl Hclass2) as (_ & Hattr & _).
    now rewrite Hattr.
Qed.

End PipelineFacts.

Lemma materialized_survives_next_pass_witness :
  reconcile Sample.outerHTML v1_2_0 Sample.candidate_div
    (on_success v1_2_0 Sample.parse_as_text Sample.candidate_div (lit "<svg></svg>"))
  = Keep.
Proof.
  apply (materialized_survives_next_pass v1_2_0 Sample.outerHTML
           Sample.parse_as_text Sample.candidate_div Sample.candidate_div
           (lit "<svg></svg>") (lit "behhdq")); try reflexivity.
  - discriminate.
  - discriminate.
Defined.


Lemma keeps_bind_any {A B X : Type} (field : component -> X)
  (m : M A) (k : A -> M B) :
  keeps field m -> (forall a, keeps field (k a)) -> keeps field (bind m k).
Proof.
  intros Hm Hk c. unfold bind. specialize (Hm c).
  destruct (m c) as [c' [a|e]]; cbn [fst] in *; [|exact Hm].
  now rewrite Hk.
Qed.

Lemma bind_ok {A B : Type} (m : M A) (k : A -> M B) (c c1 : component) (a : A) :
  m c = (c1, Ok a) -> bind m k c = k a c1.
Proof. intros H. unfold bind. now rewrite H. Qed.

Section SchedulerFacts.

Variable rel : release.
Variable marked_parse :
  (jsstring -> jsval -> result jsstring) -> jsstring -> result jsstring.
Variable sanitize : jsstring -> list jsstring -> list jsstring -> result jsstring.
Variable katex_renderToString : jsstring -> bool -> result jsstring.
Variable mermaid_render : jsstring -> jsstring -> result jsstring.
Variable hljs_getLanguage : jsstring -> bool.
Variable hljs_highlight : jsstring -> jsstring -> result jsstring.
Variable outerHTML : node -> jsstring.
Variable parseHTML : jsstring -> list node.
Variable _decodeHtml : jsstring -> jsstring.
Variable random_id : nat -> jsstring.
Variable beforeParse : option (jsany -> result jsany).
Variable afterSanitize : option (jsstring -> result jsstring).
Variable onRendered : option (list node -> result (list node)).

#[local] Abbreviation pass :=
  (_performRender rel marked_parse sanitize katex_renderToString
     hljs_getLanguage hljs_highlight outerHTML parseHTML _decodeHtml
     beforeParse afterSanitize onRendered).
#[local] Abbreviation render_call :=
  (render rel marked_parse sanitize katex_renderToString
     hljs_getLanguage hljs_highlight outerHTML parseHTML _decodeHtml
     beforeParse afterSanitize onRendered).
#[local] Abbreviation firing :=
  (mermaid_timer_fired rel mermaid_render parseHTML _decodeHtml random_id).
#[local] Abbreviation step :=
  (materialize rel mermaid_render parseHTML _decodeHtml random_id).

Lemma for_of_idle (nodes : list (path * node)) (acc : component * list path) :
  (forall entry, In entry nodes -> step acc entry = (acc, Ok tt)) ->
  for_of rel mermaid_render parseHTML _decodeHtml random_id nodes acc
  = (acc, Ok tt).
Proof.
  induction nodes as [|entry nodes IH]; intros H; [reflexivity|].
  cbn [for_of]. rewrite (H entry) by now left.
  apply IH. intros e He. apply H. now right.
Qed.

(** X14 — A firing is idle on a rendered tree: when every diagram node of
    the container already holds an [svg], the firing calls the engine for
    none of them and leaves the component exactly as it was. *)
Theorem firing_idle_when_rendered (c : component) :
  _isMermaidWorking c = false ->
  (forall p n, In (p, n) (querySelectorAll_mermaid (container c)) ->
               querySelector_svg n = true) ->
  firing c = c.
Proof.
  intros Hflag Hsvg. unfold mermaid_timer_fired, timer_callback. rewrite Hflag.
  destruct (querySelectorAll_mermaid (container c)) as [|entry nodes] eqn:E;
    [reflexivity|].
  rewrite for_of_idle.
  - destruct c. cbn in *. now subst.
  - intros [p n] Hin. unfold materialize, pending_code.
    now rewrite (Hsvg p n Hin).
Qed.


(** X16 — The throttle coalesces: of two unforced [render] calls in a row
    only the text of the second is kept, and no second timer is armed; the
    component is as if the first call had not been made. *)
Theorem render_coalesces (first second : jsany) (c : component) :
  render_call second false (render_call first false c)
  = render_call second false c.
Proof.
  unfold render. cbn [_isRendering with_latestMarkdown].
  destruct (_isRendering c) eqn:Hr.
  - cbn [_isRendering with_latestMarkdown]. rewrite Hr. reflexivity.
  - cbn [_renderTimer with_latestMarkdown].
    destruct (_renderTimer c) eqn:Ht.
    + cbn [_isRendering _renderTimer with_latestMarkdown]. now rewrite Hr, Ht.
    + cbn. now rewrite Hr.
Qed.

(** X17 — The debounce restarts: [_scheduleMermaidRender] cancels the
    sub-render timer stored before, arms a fresh one under a new id, and
    leaves every other pending timer alone. *)
Theorem schedule_restarts_debounce (c : component) :
  (forall old, _mermaidTimer c = Some old -> (old <= timers_issued c)%nat) ->
  let c' := _scheduleMermaidRender c in
  let id := S (timers_issued c) in
  _mermaidTimer c' = Some id
  /\ In (MermaidTick id) (pending c')
  /\ (forall old t, _mermaidTimer c = Some old -> In t (pending c') ->
                    timer_id t <> old)
  /\ (forall t, In t (pending c) ->
                (forall old, _mermaidTimer c = Some old -> timer_id t <> old) ->
                In t (pending c')).
Proof.
  intros Hold c' id. subst c' id. unfold _scheduleMermaidRender, setTimeout.
  destruct (_mermaidTimer c) as [old|] eqn:E; cbn.
  - specialize (Hold old eq_refl). repeat split.
    + apply in_or_app. right. now left.
    + intros old' t Heq Hin. injection Heq as <-.
      apply in_app_or in Hin as [Hin|[<-|[]]].
      * apply filter_In in Hin as [_ Hne]. apply negb_true_iff in Hne.
        now apply Nat.eqb_neq in Hne.
      * cbn. lia.
    + intros t Hin Hne. apply in_or_app. left. apply filter_In.
      split; [exact Hin|]. apply negb_true_iff, Nat.eqb_neq. now apply Hne.
  - repeat split.
    + apply in_or_app. right. now left.
    + intros old t Heq. discriminate.
    + intros t Hin _. apply in_or_app. now left.
Qed.

Lemma pass_tail_keeps_codec (force : bool) (c : component) :
  codec (pass force c) = codec (fst (pass_body rel marked_parse sanitize
             katex_renderToString hljs_getLanguage hljs_highlight outerHTML
             parseHTML _decodeHtml beforeParse afterSanitize onRendered
             force (_latestMarkdown c) c)).
Proof.
  unfold _performRender. now destruct (pass_body _ _ _ _ _ _ _ _ _ _ _ _ _ _ c) as [c' [u|e]].
Qed.

(** X18 — The placeholder table belongs to one pass: after a pass whose
    [beforeParse] hook (if any) returned, the counter and the two maps are
    those of encoding this pass's text from an empty table, whatever the
    previous pass left and whether or not a later step threw; the stored
    tokens are pairwise distinct and as many as the counter counts. *)
Theorem pass_rebuilds_table (force : bool) (c : component) (text : jsval) :
  hooked beforeParse (_latestMarkdown c) = Ok (OfVal text) ->
  codec (pass force c) = fst (Codec._protectCodeAndMath (mkCodec 0 [] []) text)
  /\ Codec.well_keyed (codec (pass force c)).
Proof.
  intros Hhook.
  assert (H : codec (pass force c)
              = fst (Codec._protectCodeAndMath (mkCodec 0 [] []) text)).
  { rewrite pass_tail_keeps_codec. unfold pass_body.
    rewrite (bind_ok _ _ c c (OfVal text))
      by (unfold call_hook, lift; now rewrite Hhook).
    rewrite (bind_ok _ _ c (with_codec (mkCodec 0 [] []) c) tt) by reflexivity.
    destruct (Codec._protectCodeAndMath (mkCodec 0 [] []) text) as [st processed] eqn:E.
    rewrite (bind_ok _ _ _ (with_codec st (with_codec (mkCodec 0 [] []) c)) processed)
      by (cbn [codec with_codec protect_any]; now rewrite E).
    cbn [fst].
    match goal with
    | |- codec (fst (?m ?c0)) = _ =>
        assert (Hk : keeps codec m); [|rewrite (Hk c0); reflexivity]
    end.
    unfold call_hook.
    repeat (apply keeps_bind_any; [|intros]);
      intros c0; try reflexivity.
    - now destruct force.
    - unfold _scheduleMermaidRender. cbn. now destruct (_mermaidTimer c0). }
  split; [exact H|]. rewrite H. apply protect_well_keyed.
Qed.

Lemma clearTimers_pending (c : component) (t : timer) :
  In t (pending (_clearTimers c))
  <-> In t (pending c)
      /\ _renderTimer c <> Some (timer_id t)
      /\ _mermaidTimer c <> Some (timer_id t).
Proof.
  unfold _clearTimers, clearTimeout.
  destruct (_renderTimer c) as [r|] eqn:Er; cbn;
    destruct (_mermaidTimer c) as [m|] eqn:Em; cbn;
    rewrite ?filter_In, ?negb_true_iff, ?Nat.eqb_neq;
    intuition congruence.
Qed.

(** X19 — [_clearTimers] forgets both handles and cancels both timers: no
    pending timer carries a stored id afterwards, the other pending timers
    stay, and a forced [render] leaves no pass timer stored. *)
Theorem clearTimers_cancels_both (c : component) :
  let c' := _clearTimers c in
  _renderTimer c' = None
  /\ _mermaidTimer c' = None
  /\ (forall t id, In t (pending c') ->
                   _renderTimer c = Some id \/ _mermaidTimer c = Some id ->
                   timer_id t <> id)
  /\ (forall t, In t (pending c) ->
                _renderTimer c <> Some (timer_id t) ->
                _mermaidTimer c <> Some (timer_id t) ->
                In t (pending c'))
  /\ forall markdownText, _renderTimer (render_call markdownText true c) = None.
Proof.
  intros c'. subst c'. repeat split.
  - intros t id Ht Hid. apply clearTimers_pending in Ht as (_ & Hr & Hm).
    destruct Hid; congruence.
  - intros t Ht Hr Hm. apply clearTimers_pending. auto.
  - intros markdownText. unfold render.
    unfold _performRender.
    match goal with
    | |- context [pass_body ?a1 ?a2 ?a3 ?a4 ?a5 ?a6 ?a7 ?a8 ?a9 ?a10 ?a11 ?a12 ?f ?t ?c0] =>
        assert (Hk : keeps _renderTimer
                       (pass_body a1 a2 a3 a4 a5 a6 a7 a8 a9 a10 a11 a12 f t));
          [|specialize (Hk c0);
            destruct (pass_body a1 a2 a3 a4 a5 a6 a7 a8 a9 a10 a11 a12 f t c0)
              as [c1 [u|e]]; cbn [fst] in Hk; cbn [log _renderTimer];
            rewrite Hk; reflexivity]
    end.
    unfold pass_body, call_hook.
    repeat (apply keeps_bind_any; [|intros]);
      intros c0; try reflexivity.
    + now destruct (protect_any (codec c0) a).
    + unfold _scheduleMermaidRender. cbn. now destruct (_mermaidTimer c0).
Qed.

End SchedulerFacts.

Lemma firing_idle_when_rendered_witness :
  let c := mkComponent (mkCodec 0 [] []) None None
             (OfVal (JSString (lit "a diagram")))
             false false [Sample.rendered_div] [] 0 0 [] [] in
  mermaid_timer_fired v1_2_0 Sample.mermaid_rejects Sample.parse_as_text
    Sample.decode_plain dec c = c.
Proof.
  intros c. apply firing_idle_when_rendered.
  - reflexivity.
  - intros p n [H|[]]. injection H as _ <-. reflexivity.
Defined.


Lemma pass_rebuilds_table_witness :
  codec (_performRender v1_2_0 Sample.marked_throws Sample.sanitize_all
           Sample.katex_plain Sample.no_language Sample.highlight_plain
           Sample.outerHTML Sample.parse_as_text Sample.decode_plain
           None None None false Sample.shown_abc)
  = fst (Codec._protectCodeAndMath (mkCodec 0 [] []) (JSString (lit "# title"))).
Proof.
  refine (proj1 (pass_rebuilds_table v1_2_0 Sample.marked_throws
                   Sample.sanitize_all Sample.katex_plain Sample.no_language
                   Sample.highlight_plain Sample.outerHTML Sample.parse_as_text
                   Sample.decode_plain None None None false Sample.shown_abc
                   (JSString (lit "# title")) _)).
  reflexivity.
Defined.

Lemma schedule_restarts_debounce_witness :
  _mermaidTimer (_scheduleMermaidRender debouncing_state) = Some 3%nat.
Proof.
  refine (proj1 (schedule_restarts_debounce debouncing_state _)).
  intros old H. injection H as <-. cbn. lia.
Defined.

(** ** Placeholder codec *)

Section CodecMore.

Import Codec Regex.

Lemma no_dollar_no_escape (s : jsstring) :
  no_dollar s -> includes s [BACKSLASH; DOLLAR] = false.
Proof.
  induction s as [|c s IH]; intros H; [reflexivity|].
  apply no_dollar_cons in H as [Hc Hs].
  rewrite includes_cons, (IH Hs), orb_false_r. cbn [starts_with].
  destruct s as [|d s]; [now rewrite andb_false_r|].
  apply no_dollar_cons in Hs as [Hd _].
  rewrite (Z.eqb_sym DOLLAR d), Hd. now rewrite andb_false_r.
Qed.

Lemma no_dollar_tail c s : no_dollar (c :: s) -> no_dollar s.
Proof. intros H. now apply no_dollar_cons in H. Qed.

Lemma stages_after_code_plain (st : codec_state) (s : jsstring) :
  no_dollar s ->
  replace_g inline_math on_inline_math O true
    (snd (replace_g math_block on_math_block O true
            (snd (replace_g escaped_dollar on_escaped_dollar O true s st))
            (fst (replace_g escaped_dollar on_escaped_dollar O true s st))))
    (fst (replace_g math_block on_math_block O true
            (snd (replace_g escaped_dollar on_escaped_dollar O true s st))
            (fst (replace_g escaped_dollar on_escaped_dollar O true s st))))
  = (st, s).
Proof.
  intros Hs.
  rewrite (replace_g_unmatched no_dollar escaped_dollar _ no_dollar_tail
             (fun b x Hx => escaped_dollar_unmatched b x (no_dollar_no_escape x Hx))
             s true st Hs).
  cbn [fst snd].
  rewrite (replace_g_unmatched no_dollar math_block _ no_dollar_tail
             (fun b x Hx => math_block_unmatched b x (no_dollar_includes x Hx))
             s true st Hs).
  cbn [fst snd].
  rewrite <- (app_nil_r s) at 1.
  rewrite (inline_math_plain on_inline_math s [] true st Hs).
  cbn [replace_g fst snd]. now rewrite app_nil_r.
Qed.

Lemma protect_stages_unfold (st : codec_state) (text : jsstring) :
  protect_stages st text
  = let r1 := replace_g code_block on_code_block O true text st in
    let r2 := replace_g inline_code on_inline_code O true (snd r1) (fst r1) in
    let r3 := replace_g escaped_dollar on_escaped_dollar O true (snd r2) (fst r2) in
    let r4 := replace_g math_block on_math_block O true (snd r3) (fst r3) in
    replace_g inline_math on_inline_math O true (snd r4) (fst r4).
Proof.
  unfold protect_stages.
  destruct (replace_g code_block on_code_block O true text st) as [st1 p1].
  cbn [fst snd].
  destruct (replace_g inline_code on_inline_code O true p1 st1) as [st2 p2].
  cbn [fst snd].
  destruct (replace_g escaped_dollar on_escaped_dollar O true p2 st2) as [st3 p3].
  cbn [fst snd].
  now destruct (replace_g math_block on_math_block O true p3 st3) as [st4 p4].
Qed.

(** X20 — Prose passes untouched: a text with no backtick and no dollar
    sign is handed to the parser as it came, and the pass's table is left
    as it was. *)
Theorem plain_text_unprotected (st : codec_state) (text : jsstring) :
  codeMap st = [] ->
  forallb (fun c => negb (c =? BACKTICK)) text = true ->
  forallb (fun c => negb (c =? DOLLAR)) text = true ->
  _protectCodeAndMath st (JSString text) = (st, text).
Proof.
  intros Hmap Htick Hdollar.
  destruct text as [|c text]; [reflexivity|].
  rewrite protect_nonempty by discriminate.
  rewrite protect_stages_unfold. cbv zeta.
  rewrite (replace_g_unmatched no_backtick code_block _
             no_backtick_tail code_block_unmatched (c :: text) true st Htick).
  cbn [fst snd].
  rewrite (replace_g_unmatched no_backtick inline_code _
             no_backtick_tail inline_code_unmatched (c :: text) true st Htick).
  cbn [fst snd].
  rewrite (stages_after_code_plain st (c :: text) Hdollar).
  cbn [fst snd]. now rewrite Hmap.
Qed.

Lemma split_join_absent (key r s : jsstring) :
  includes s key = false -> split_join key r O s = s.
Proof.
  induction s as [|c s IH]; intros H; [reflexivity|].
  cbn [split_join]. rewrite (includes_false_head _ _ H).
  now rewrite (IH (includes_false_tail _ _ _ H)).
Qed.

Lemma split_join_skip (key r a rest : jsstring) (c : Z) :
  split_join key r (List.length (c :: a)) ((c :: a) ++ rest)
  = split_join key r O rest.
Proof.
  revert c. induction a as [|d a IH]; intros c; [reflexivity|].
  cbn [List.length app split_join]. apply (IH d).
Qed.

Lemma split_join_first (key r : jsstring) :
  key <> [] ->
  forall pre post,
    indexOf_nat key (pre ++ key ++ post) = Some (List.length pre) ->
    split_join key r O (pre ++ key ++ post)
    = pre ++ r ++ split_join key r O post.
Proof.
  intros Hkey. induction pre as [|c pre IH]; intros post Hidx.
  - cbn [app]. destruct key as [|k key]; [congruence|].
    cbn [app split_join]. 
    change (k :: key ++ post) with ((k :: key) ++ post).
    rewrite starts_with_self_app. cbn [List.length pred app].
    destruct key as [|k' key]; [reflexivity|].
    f_equal. apply (split_join_skip (k :: k' :: key) r key post k').
  - cbn [app] in *. rewrite indexOf_nat_unfold in Hidx.
    destruct (starts_with key (c :: pre ++ key ++ post)) eqn:E; [discriminate|].
    cbn [split_join]. rewrite E. f_equal. apply IH.
    destruct (indexOf_nat key (pre ++ key ++ post)); [|discriminate].
    cbn in Hidx. congruence.
Qed.

Section Restore.

Variable katex_renderToString : jsstring -> bool -> result jsstring.

(** X21 — The restore pass leaves alone what holds no placeholder: html in
    which none of the stored math tokens occurs is returned as it came,
    whatever KaTeX answers or throws. *)
Theorem restore_without_token (st : codec_state) (html : jsstring) :
  (forall key entry, In (key, entry) (mathMap st) -> includes html key = false) ->
  _restoreAndRenderMath katex_renderToString st html = html.
Proof.
  unfold _restoreAndRenderMath. intros H.
  apply fold_left_fixed. intros [key entry] Hin. unfold restore_one.
  specialize (H key entry Hin).
  destruct (katex_renderToString (tex entry) (display entry));
    now apply split_join_absent.
Qed.

(** X22 — A math token standing once in the html is replaced, in place, by
    what KaTeX renders for its expression, and by the raw expression when
    KaTeX throws; the text around it is not touched. *)
Theorem restore_replaces_token
  (n : nat) (expr : math_entry) (key pre post : jsstring) (cm : list (jsstring * jsstring)) :
  key <> [] ->
  indexOf_nat key (pre ++ key ++ post) = Some (List.length pre) ->
  includes post key = false ->
  _restoreAndRenderMath katex_renderToString (mkCodec n cm [(key, expr)])
    (pre ++ key ++ post)
  = pre
    ++ match katex_renderToString (tex expr) (display expr) with
       | Ok rendered => rendered
       | Throw _ => tex expr
       end
    ++ post.
Proof.
  intros Hkey Hidx Hpost. unfold _restoreAndRenderMath, restore_one.
  cbn [mathMap fold_left].
  destruct (katex_renderToString (tex expr) (display expr));
    rewrite split_join_first by assumption;
    now rewrite (split_join_absent key _ post Hpost).
Qed.

End Restore.

End CodecMore.

Section CodeRoundTrip.

Import Codec Regex.

Lemma dec_digits (n : nat) : Forall (fun c => 48 <= c <= 57) (dec n).
Proof.
  unfold dec. generalize (Nat.to_uint n) as u.
  induction u; cbn; constructor; try lia; assumption.
Qed.

Lemma key_no_dollar (sh : shape) (n : nat) : no_dollar (key sh n).
Proof.
  unfold key, key_of. apply no_dollar_app. split; [now destruct sh|].
  apply no_dollar_app. split; [|now destruct sh].
  unfold no_dollar. apply forallb_forall. intros c Hc.
  pose proof (proj1 (Forall_forall _ _) (dec_digits n) c Hc) as Hd. cbv beta in Hd.
  apply negb_true_iff. apply Z.eqb_neq. unfold DOLLAR. lia.
Qed.

Lemma get_substitution_plain (matched before after r : jsstring) :
  no_dollar r -> get_substitution matched before after r = r.
Proof.
  induction r as [|c r IH]; intros H; [reflexivity|].
  apply no_dollar_cons in H as [Hc Hr].
  cbn [get_substitution]. rewrite Hc. now rewrite (IH Hr).
Qed.

Lemma starts_with_straddle (t p rest : jsstring) (k0 : Z) :
  starts_with t (p ++ k0 :: rest) = true ->
  starts_with t p = true \/ In k0 t.
Proof.
  revert p. induction t as [|a t IH]; intros p H; [now left|].
  destruct p as [|b p]; cbn [app starts_with] in H; apply andb_true_iff in H as [Hab Ht].
  - right. left. apply Z.eqb_eq in Hab. congruence.
  - destruct (IH p Ht) as [Hp|Hin].
    + left. cbn [starts_with]. now rewrite Hab, Hp.
    + right. now right.
Qed.

Lemma starts_with_prefix (a b s : jsstring) :
  starts_with (a ++ b) s = true -> starts_with a s = true.
Proof.
  revert s. induction a as [|x a IH]; intros s H; [reflexivity|].
  destruct s as [|y s]; cbn [app starts_with] in *; [discriminate|].
  apply andb_true_iff in H as [Hxy H]. now rewrite Hxy, (IH s H).
Qed.

(** A token whose opening letters do not occur in the text before it is
    first met where it was put. *)
Lemma indexOf_guarded (k0 : Z) (htail tail pre post : jsstring) :
  ~ In k0 htail ->
  includes pre (k0 :: htail) = false ->
  indexOf_nat ((k0 :: htail) ++ tail) (pre ++ ((k0 :: htail) ++ tail) ++ post)
  = Some (List.length pre).
Proof.
  intros Hfree. induction pre as [|c pre IH]; intros Hpre.
  - cbn [app List.length]. rewrite indexOf_nat_unfold.
    change (k0 :: (htail ++ tail) ++ post) with (((k0 :: htail) ++ tail) ++ post).
    change (k0 :: htail ++ tail) with ((k0 :: htail) ++ tail).
    now rewrite starts_with_self_app.
  - rewrite includes_cons in Hpre. apply orb_false_iff in Hpre as [Hhead Hpre].
    rewrite indexOf_nat_unfold.
    destruct (starts_with ((k0 :: htail) ++ tail)
                ((c :: pre) ++ ((k0 :: htail) ++ tail) ++ post)) eqn:E.
    + exfalso. apply starts_with_prefix in E.
      cbn [app starts_with] in E. apply andb_true_iff in E as [Hc E].
      apply starts_with_straddle in E as [E|E]; [|contradiction].
      cbn [starts_with] in Hhead. rewrite Hc, E in Hhead. discriminate.
    + rewrite <- app_comm_cons. now rewrite (IH Hpre).
Qed.

Lemma firstn_exact {A : Type} (a b : list A) : firstn (List.length a) (a ++ b) = a.
Proof. induction a as [|x a IH]; cbn; [now destruct b|now rewrite IH]. Qed.

Lemma skipn_exact {A : Type} (a b : list A) : skipn (List.length a) (a ++ b) = b.
Proof. induction a as [|x a IH]; cbn; [reflexivity|exact IH]. Qed.

Lemma skipn_past {A : Type} (a k b : list A) :
  skipn (List.length a + List.length k) (a ++ k ++ b) = b.
Proof. now rewrite app_assoc, <- length_app, skipn_exact. Qed.

Lemma no_backtick_app a b : no_backtick (a ++ b) <-> no_backtick a /\ no_backtick b.
Proof. unfold no_backtick. rewrite forallb_app, andb_true_iff. tauto. Qed.

Lemma no_backtick_no_fence (s : jsstring) : no_backtick s -> includes s fence = false.
Proof.
  induction s as [|c s IH]; intros H; [reflexivity|].
  rewrite includes_cons, (no_fence _ H). apply IH. now apply no_backtick_tail in H.
Qed.

Lemma fence_head (c : Z) (s : jsstring) :
  (BACKTICK =? c) = false -> starts_with fence (c :: s) = false.
Proof.
  intros H. change fence with [BACKTICK; BACKTICK; BACKTICK].
  cbn [starts_with]. now rewrite H.
Qed.

Lemma fence_after_one (s : jsstring) :
  no_backtick s -> starts_with [BACKTICK] s = false.
Proof.
  destruct s as [|c s]; [reflexivity|]. intros H.
  cbn [starts_with]. now rewrite (no_backtick_head _ _ H).
Qed.

Lemma span_no_fence (pre code post : jsstring) :
  no_backtick pre -> no_backtick code -> no_backtick post ->
  includes (pre ++ BACKTICK :: code ++ BACKTICK :: post) fence = false.
Proof.
  intros Hpre Hcode Hpost.
  assert (B : includes (BACKTICK :: post) fence = false).
  { rewrite includes_cons, (no_backtick_no_fence post Hpost), orb_false_r.
    change fence with [BACKTICK; BACKTICK; BACKTICK]. cbn [starts_with].
    rewrite Z.eqb_refl. cbn [andb].
    destruct post as [|d post]; [reflexivity|].
    now rewrite (no_backtick_head _ _ Hpost). }
  assert (C : forall code, no_backtick code ->
                includes (code ++ BACKTICK :: post) fence = false).
  { induction code0 as [|c code0 IH]; intros H; [exact B|].
    cbn [app]. rewrite includes_cons, (fence_head c _ (no_backtick_head _ _ H)).
    apply IH. now apply no_backtick_tail in H. }
  assert (D : includes (BACKTICK :: code ++ BACKTICK :: post) fence = false).
  { rewrite includes_cons, (C code Hcode), orb_false_r.
    change fence with [BACKTICK; BACKTICK; BACKTICK]. cbn [starts_with].
    rewrite Z.eqb_refl. cbn [andb].
    destruct code as [|c code].
    - cbn [app]. rewrite Z.eqb_refl. cbn [andb]. now apply fence_after_one.
    - cbn [app]. now rewrite (no_backtick_head _ _ Hcode). }
  clear B C. induction pre as [|c pre IH]; [exact D|].
  cbn [app]. rewrite includes_cons, (fence_head c _ (no_backtick_head _ _ Hpre)).
  apply IH. now apply no_backtick_tail in Hpre.
Qed.

Lemma code_block_no_fence b s : includes s fence = false -> code_block b s = None.
Proof.
  intros H. unfold code_block. rewrite (includes_false_head _ _ H).
  destruct s as [|c s]; [now destruct b|].
  rewrite (includes_false_head _ _ (includes_false_tail _ _ _ H)).
  now destruct (c =? LF), b.
Qed.

Lemma find_close_none (d s : jsstring) :
  no_backtick s -> find_close (BACKTICK :: d) s = None.
Proof.
  induction s as [|c s IH]; intros H; [reflexivity|].
  cbn [find_close starts_with]. rewrite (no_backtick_head _ _ H). cbn [andb].
  rewrite (IH (no_backtick_tail _ _ H)). now destruct (is_line_terminator c).
Qed.

Lemma find_close_plain (code post : jsstring) :
  no_backtick code ->
  forallb (fun c => negb (is_line_terminator c)) code = true ->
  find_close [BACKTICK] (code ++ BACKTICK :: post) = Some (List.length code).
Proof.
  induction code as [|c code IH]; intros Hb Hl.
  - cbn [app find_close starts_with]. now rewrite Z.eqb_refl.
  - cbn [forallb] in Hl. apply andb_true_iff in Hl as [Hc Hl].
    apply negb_true_iff in Hc.
    cbn [app find_close starts_with]. rewrite (no_backtick_head _ _ Hb). cbn [andb].
    rewrite Hc, (IH (no_backtick_tail _ _ Hb) Hl). reflexivity.
Qed.

Lemma count_backticks_plain (s : jsstring) : no_backtick s -> count_backticks s = O.
Proof.
  destruct s as [|c s]; [reflexivity|]. intros H.
  pose proof (no_backtick_head _ _ H) as Hc. rewrite Z.eqb_sym in Hc.
  cbn [count_backticks]. now rewrite Hc.
Qed.

Lemma inline_code_span (code post : jsstring) (b : bool) :
  no_backtick code ->
  forallb (fun c => negb (is_line_terminator c)) code = true ->
  no_backtick post ->
  inline_code b (BACKTICK :: code ++ BACKTICK :: post)
  = Some (S (S (List.length code)), [[BACKTICK]; code]).
Proof.
  intros Hb Hl Hpost. unfold inline_code.
  destruct code as [|c code].
  - cbn [app count_backticks]. rewrite Z.eqb_refl, (count_backticks_plain post Hpost).
    cbn [try_runs repeat skipn]. rewrite (find_close_none [BACKTICK] post Hpost).
    cbn [find_close starts_with]. now rewrite Z.eqb_refl.
  - pose proof (no_backtick_head _ _ Hb) as Hc. rewrite Z.eqb_sym in Hc.
    cbn [app count_backticks]. rewrite Z.eqb_refl, Hc.
    cbn [try_runs repeat skipn].
    change (c :: code ++ BACKTICK :: post) with ((c :: code) ++ BACKTICK :: post).
    rewrite (find_close_plain (c :: code) post Hb Hl), firstn_exact.
    do 2 f_equal. lia.
Qed.

Lemma inline_code_any_flag {St : Type}
  (cb : St -> jsstring -> list jsstring -> St * jsstring)
  (skip : nat) (b : bool) (s : jsstring) (st : St) :
  replace_g inline_code cb skip b s st = replace_g inline_code cb skip false s st.
Proof. destruct s; [reflexivity|]. now destruct skip. Qed.

Lemma inline_code_prefix {St : Type}
  (cb : St -> jsstring -> list jsstring -> St * jsstring)
  (s rest : jsstring) (b : bool) (st : St) :
  no_backtick s ->
  replace_g inline_code cb O b (s ++ rest) st
  = (fst (replace_g inline_code cb O false rest st),
     s ++ snd (replace_g inline_code cb O false rest st)).
Proof.
  revert b. induction s as [|c s IH]; intros b Hs.
  - cbn [app]. rewrite (inline_code_any_flag cb O b).
    now destruct (replace_g _ _ _ _ _ _).
  - pose proof (no_backtick_head _ _ Hs) as Hc. rewrite Z.eqb_sym in Hc.
    cbn [app replace_g]. unfold inline_code at 1.
    cbn [count_backticks]. rewrite Hc. cbn [try_runs].
    rewrite (IH false (no_backtick_tail _ _ Hs)). reflexivity.
Qed.

Lemma replace_g_skip_nonempty {St : Type} (m : matcher)
  (cb : St -> jsstring -> list jsstring -> St * jsstring)
  (a rest : jsstring) (b : bool) (st : St) :
  a <> [] ->
  replace_g m cb (List.length a) b (a ++ rest) st = replace_g m cb O false rest st.
Proof. destruct a as [|c a]; [congruence|]. intros _. apply replace_g_skip. Qed.

Lemma inline_code_stage (st : codec_state) (pre code post : jsstring) (b : bool) :
  no_backtick pre -> no_backtick code -> no_backtick post ->
  forallb (fun c => negb (is_line_terminator c)) code = true ->
  replace_g inline_code on_inline_code O b
    (pre ++ BACKTICK :: code ++ BACKTICK :: post) st
  = (mkCodec (S (counter st))
       (map_set (key CodeInline (counter st)) (BACKTICK :: code ++ [BACKTICK])
          (codeMap st))
       (mathMap st),
     pre ++ key CodeInline (counter st) ++ post).
Proof.
  intros Hpre Hcode Hpost Hl.
  rewrite (inline_code_prefix on_inline_code pre _ b st Hpre).
  cbn [replace_g]. rewrite (inline_code_span code post false Hcode Hl Hpost).
  assert (Hf : firstn (S (S (List.length code))) (BACKTICK :: code ++ BACKTICK :: post)
               = BACKTICK :: code ++ [BACKTICK]).
  { rewrite firstn_cons. f_equal.
    replace (code ++ BACKTICK :: post) with ((code ++ [BACKTICK]) ++ post)
      by (now rewrite <- app_assoc).
    replace (S (List.length code)) with (List.length (code ++ [BACKTICK]))
      by (rewrite length_app; cbn; lia).
    apply firstn_exact. }
  rewrite Hf. clear Hf.
  assert (Hcb : forall groups,
             on_inline_code st (BACKTICK :: code ++ [BACKTICK]) groups
             = (mkCodec (S (counter st))
                  (map_set (key CodeInline (counter st))
                     (BACKTICK :: code ++ [BACKTICK]) (codeMap st))
                  (mathMap st),
                key CodeInline (counter st))) by reflexivity.
  rewrite Hcb.
  replace (code ++ BACKTICK :: post) with ((code ++ [BACKTICK]) ++ post)
    by (now rewrite <- app_assoc).
  replace (S (List.length code)) with (List.length (code ++ [BACKTICK]))
    by (rewrite length_app; cbn; lia).
  rewrite replace_g_skip_nonempty by (now destruct code).
  rewrite (replace_g_unmatched no_backtick inline_code _
             no_backtick_tail inline_code_unmatched post false _ Hpost).
  reflexivity.
Qed.

(** X23 — An inline code span comes back as it was written: in a text with
    one span, no dollar sign and no other backtick, where the letters
    CODEINLINE do not occur before the span, the span is stored under one
    token and the text reaches the parser unchanged. *)
Theorem inline_code_round_trip (st : codec_state) (pre code post : jsstring) :
  let text := pre ++ BACKTICK :: code ++ BACKTICK :: post in
  codeMap st = [] ->
  forallb (fun c => negb (c =? BACKTICK) && negb (c =? DOLLAR)) (pre ++ code ++ post)
  = true ->
  forallb (fun c => negb (is_line_terminator c)) code = true ->
  includes pre (lit "CODEINLINE") = false ->
  _protectCodeAndMath st (JSString text)
  = (mkCodec (S (counter st))
       [(key CodeInline (counter st), BACKTICK :: code ++ [BACKTICK])]
       (mathMap st),
     text).
Proof.
  intros text Hmap Hplain Hl Hguard.
  assert (Hsplit : forall s,
             forallb (fun c => negb (c =? BACKTICK) && negb (c =? DOLLAR)) s = true ->
             no_backtick s /\ no_dollar s).
  { induction s as [|c s IH]; intros H; [now split|].
    cbn [forallb] in H. apply andb_true_iff in H as [Hc H].
    apply andb_true_iff in Hc as [Hb Hd]. destruct (IH H) as [IHb IHd].
    split; unfold no_backtick, no_dollar; cbn [forallb];
      [rewrite Hb|rewrite Hd]; assumption. }
  rewrite !forallb_app in Hplain.
  apply andb_true_iff in Hplain as [Hpre Hplain].
  apply andb_true_iff in Hplain as [Hcode Hpost].
  apply Hsplit in Hpre as [Hpre Hpre'], Hcode as [Hcode Hcode'],
    Hpost as [Hpost Hpost'].
  rewrite protect_nonempty by (subst text; now destruct pre).
  rewrite protect_stages_unfold. cbv zeta.
  rewrite (replace_g_unmatched (fun s => includes s fence = false) code_block _
             (fun c s => includes_false_tail c s fence) code_block_no_fence
             text true st (span_no_fence pre code post Hpre Hcode Hpost)).
  cbn [fst snd]. subst text.
  rewrite (inline_code_stage st pre code post true Hpre Hcode Hpost Hl).
  cbn [fst snd].
  rewrite stages_after_code_plain.
  2:{ apply no_dollar_app. split; [exact Hpre'|].
      apply no_dollar_app. split; [apply key_no_dollar|exact Hpost']. }
  cbn [fst snd codeMap]. rewrite Hmap. cbn [map_set].
  f_equal. unfold restore_code. cbn [fold_left fst snd]. unfold replace_first.
  change (key CodeInline (counter st))
    with ((67 :: lit "ODEINLINE") ++ dec (counter st) ++ lit "ENDCODE").
  rewrite indexOf_guarded;
    [|vm_compute; intuition discriminate|exact Hguard].
  rewrite firstn_exact, skipn_past.
  rewrite get_substitution_plain.
  2:{ apply no_dollar_cons. split; [reflexivity|].
      apply no_dollar_app. split; [exact Hcode'|reflexivity]. }
  cbn [app]. now rewrite <- app_assoc.
Qed.

End CodeRoundTrip.

Lemma inline_code_round_trip_witness :
  Codec._protectCodeAndMath (mkCodec 0 [] [])
    (JSString (lit "call " ++ BACKTICK :: lit "f(x)" ++ BACKTICK :: lit " twice"))
  = (mkCodec 1 [(lit "CODEINLINE0ENDCODE", BACKTICK :: lit "f(x)" ++ [BACKTICK])] [],
     lit "call " ++ BACKTICK :: lit "f(x)" ++ BACKTICK :: lit " twice").
Proof.
  apply (inline_code_round_trip (mkCodec 0 [] []) (lit "call ") (lit "f(x)")
           (lit " twice")); reflexivity.
Defined.

Section MathRoundTrip.

Import Codec Regex.

Variable katex_renderToString : jsstring -> bool -> result jsstring.

Lemma inline_math_stage_key (st : codec_state) (pre body post : jsstring) (b : bool) :
  body <> [] -> plain_body body ->
  test_cjk body && negb (includes body (BACKSLASH :: lit "text")) = false ->
  no_dollar pre -> no_dollar post ->
  replace_g inline_math on_inline_math O b
    (pre ++ DOLLAR :: body ++ DOLLAR :: post) st
  = (mkCodec (S (counter st)) (codeMap st)
       (map_set (key MathInline (counter st)) (mkMath body false) (mathMap st)),
     pre ++ key MathInline (counter st) ++ post).
Proof.
  intros Hne Hbody Hcjk Hpre Hpost.
  rewrite (inline_math_plain on_inline_math pre _ b st Hpre).
  assert (Hcb : forall matched,
             on_inline_math st matched [body]
             = (mkCodec (S (counter st)) (codeMap st)
                  (map_set (key MathInline (counter st)) (mkMath body false)
                     (mathMap st)),
                key MathInline (counter st))).
  { intros matched. unfold on_inline_math. cbn [nth]. now rewrite Hcjk. }
  cbn [replace_g]. rewrite (inline_math_span body post false Hne Hbody).
  rewrite Hcb.
  replace (body ++ DOLLAR :: post) with ((body ++ [DOLLAR]) ++ post)
    by (now rewrite <- app_assoc).
  replace (S (List.length body)) with (List.length (body ++ [DOLLAR]))
    by (rewrite length_app; cbn; lia).
  rewrite replace_g_skip_nonempty by (now destruct body).
  rewrite <- (app_nil_r post) at 1 2.
  rewrite (inline_math_plain on_inline_math post [] false _ Hpost).
  cbn [replace_g fst snd]. now rewrite !app_nil_r.
Qed.

Lemma includes_prefix_false (s p r : jsstring) :
  includes s p = false -> includes s (p ++ r) = false.
Proof.
  intros H. destruct (includes s (p ++ r)) eqn:E; [|reflexivity].
  apply includes_prefix in E. congruence.
Qed.

(** X24 — Inline math is rendered in place: for a text with one dollar
    span on one line, no backtick and no escaped dollar, where the letters
    MATHINLINE occur nowhere else, encoding and then restoring puts what
    KaTeX renders for the span (the raw expression when KaTeX throws) where
    the span stood and leaves the text around it as it was.  The span must
    not be one the CJK rule leaves alone. *)
Theorem inline_math_rendered_in_place
  (st : codec_state) (pre body post : jsstring) :
  let text := pre ++ DOLLAR :: body ++ DOLLAR :: post in
  let encoded := _protectCodeAndMath st (JSString text) in
  codeMap st = [] -> mathMap st = [] ->
  body <> [] ->
  forallb (fun c => negb (c =? DOLLAR) && negb (c =? LF)) body = true ->
  forallb (fun c => negb (c =? DOLLAR)) (pre ++ post) = true ->
  forallb (fun c => negb (c =? BACKTICK)) text = true ->
  includes text [BACKSLASH; DOLLAR] = false ->
  test_cjk body && negb (includes body (BACKSLASH :: lit "text")) = false ->
  includes pre (lit "MATHINLINE") = false ->
  includes post (lit "MATHINLINE") = false ->
  snd encoded = pre ++ key MathInline (counter st) ++ post
  /\ _restoreAndRenderMath katex_renderToString (fst encoded) (snd encoded)
     = pre
       ++ match katex_renderToString body false with
          | Ok rendered => rendered
          | Throw _ => body
          end
       ++ post.
Proof.
  intros text encoded Hcm Hmm Hne Hbody Hplain Htick Hesc Hcjk Hpre Hpost.
  rewrite forallb_app in Hplain. apply andb_true_iff in Hplain as [Npre Npost].
  assert (E : encoded
              = (mkCodec (S (counter st)) []
                   [(key MathInline (counter st), mkMath body false)],
                 pre ++ key MathInline (counter st) ++ post)).
  { subst encoded. rewrite protect_nonempty by (subst text; now destruct pre).
    rewrite protect_stages_unfold. cbv zeta.
    rewrite (replace_g_unmatched no_backtick code_block _
               no_backtick_tail code_block_unmatched text true st Htick).
    cbn [fst snd].
    rewrite (replace_g_unmatched no_backtick inline_code _
               no_backtick_tail inline_code_unmatched text true st Htick).
    cbn [fst snd].
    rewrite (replace_g_unmatched
               (fun s => includes s [BACKSLASH; DOLLAR] = false) escaped_dollar _
               (fun c s => includes_false_tail c s [BACKSLASH; DOLLAR])
               escaped_dollar_unmatched text true st Hesc).
    cbn [fst snd].
    rewrite (replace_g_unmatched
               (fun s => includes s dollars = false) math_block _
               (fun c s => includes_false_tail c s dollars)
               math_block_unmatched text true st
               (span_no_double_dollar pre body post Hne Npre
                  (plain_body_no_dollar body Hbody) Npost)).
    cbn [fst snd]. subst text.
    rewrite (inline_math_stage_key st pre body post true Hne Hbody Hcjk Npre Npost).
    cbn [fst snd codeMap]. rewrite Hcm, Hmm. reflexivity. }
  rewrite E. cbn [fst snd]. split; [reflexivity|].
  unfold _restoreAndRenderMath, restore_one. cbn [mathMap fold_left tex display].
  assert (Hidx : indexOf_nat (key MathInline (counter st))
                   (pre ++ key MathInline (counter st) ++ post)
                 = Some (List.length pre)).
  { change (key MathInline (counter st))
      with ((77 :: lit "ATHINLINE") ++ dec (counter st) ++ lit "ENDMATH").
    apply indexOf_guarded; [vm_compute; intuition discriminate|exact Hpre]. }
  assert (Habs : includes post (key MathInline (counter st)) = false).
  { change (key MathInline (counter st))
      with (lit "MATHINLINE" ++ dec (counter st) ++ lit "ENDMATH").
    now apply includes_prefix_false. }
  assert (Hkey : key MathInline (counter st) <> []) by discriminate.
  destruct (katex_renderToString body false);
    rewrite (split_join_first _ _ Hkey pre post Hidx);
    now rewrite (split_join_absent _ _ post Habs).
Qed.

End MathRoundTrip.

Lemma inline_math_rendered_in_place_witness :
  _restoreAndRenderMath Sample.katex_plain
    (fst (Codec._protectCodeAndMath (mkCodec 0 [] [])
            (JSString (lit "so " ++ DOLLAR :: lit "x^2" ++ DOLLAR :: lit " holds"))))
    (snd (Codec._protectCodeAndMath (mkCodec 0 [] [])
            (JSString (lit "so " ++ DOLLAR :: lit "x^2" ++ DOLLAR :: lit " holds"))))
  = lit "so " ++ lit "x^2" ++ lit " holds".
Proof.
  refine (proj2 (inline_math_rendered_in_place Sample.katex_plain (mkCodec 0 [] [])
                   (lit "so ") (lit "x^2") (lit " holds") _ _ _ _ _ _ _ _ _ _));
    try reflexivity.
  discriminate.
Defined.

Lemma plain_text_unprotected_witness :
  Codec._protectCodeAndMath (mkCodec 0 [] []) (JSString (lit "# Hello, world"))
  = (mkCodec 0 [] [], lit "# Hello, world").
Proof.
  apply plain_text_unprotected; reflexivity.
Defined.

Lemma restore_without_token_witness :
  _restoreAndRenderMath Sample.katex_plain
    (mkCodec 1 [] [(lit "MATHINLINE0ENDMATH", mkMath (lit "x") false)])
    (lit "<p>abc</p>")
  = lit "<p>abc</p>".
Proof.
  apply restore_without_token.
  intros key entry [H|[]]. injection H as <- _. reflexivity.
Defined.

Lemma restore_replaces_token_witness :
  _restoreAndRenderMath (fun _ _ => Throw (mkError (lit "KaTeX parse error")))
    (mkCodec 1 [] [(lit "MATHINLINE0ENDMATH", mkMath (lit "x^2") false)])
    (lit "<p>" ++ lit "MATHINLINE0ENDMATH" ++ lit "</p>")
  = lit "<p>" ++ lit "x^2" ++ lit "</p>".
Proof.
  apply (restore_replaces_token (fun _ _ => Throw (mkError (lit "KaTeX parse error"))) 1
           (mkMath (lit "x^2") false) (lit "MATHINLINE0ENDMATH")
           (lit "<p>") (lit "</p>") []).
  - discriminate.
  - reflexivity.
  - reflexivity.
Defined.

(** ** The code renderer *)

Section RendererFacts.

Variable hljs_getLanguage : jsstring -> bool.
Variable hljs_highlight : jsstring -> jsstring -> result jsstring.
Variable _decodeHtml : jsstring -> jsstring.

#[local] Abbreviation code_of rel :=
  (renderer_code rel hljs_getLanguage hljs_highlight _decodeHtml).

(** The number of tags a piece of markup opens or closes. *)
#[local] Abbreviation angles s := (count_occ Z.eq_dec s 60).

Lemma escapeHtml_opens_no_tag (text : jsstring) : angles (_escapeHtml text) = O.
Proof.
  apply count_occ_not_In. unfold _escapeHtml. intros Hin.
  apply in_flat_map in Hin as (x & _ & Hx).
  destruct (escape_char_cases x) as [[Hn E]|[[_ E]|[[_ E]|[[_ E]|[[_ E]|[_ E]]]]]];
    rewrite E in Hx.
  - destruct Hx as [->|[]]. apply needs_escape_false in Hn. tauto.
  - vm_compute in Hx. intuition discriminate.
  - vm_compute in Hx. intuition discriminate.
  - vm_compute in Hx. intuition discriminate.
  - vm_compute in Hx. intuition discriminate.
  - vm_compute in Hx. intuition discriminate.
Qed.

Lemma hashCode_opens_no_tag (str : jsstring) : angles (_hashCode str) = O.
Proof.
  apply count_occ_not_In. intros Hin. unfold _hashCode in Hin.
  rewrite hash_int32 in Hin.
  destruct (toString36_parse _ (proj2 (toInt32_spec (hash_poly str))))
    as (_ & _ & Halpha).
  destruct (Halpha 60 Hin) as [H|H]; discriminate.
Qed.

Lemma plain_code_angles (body : jsstring) :
  angles (plain_code_markup body) = (4 + angles body)%nat.
Proof.
  unfold plain_code_markup. rewrite !count_occ_app.
  vm_compute (angles (lit "<pre><code class=")).
  vm_compute (angles (quoted (lit "hljs"))).
  vm_compute (angles (lit ">")).
  vm_compute (angles (lit "</code></pre>")).
  lia.
Qed.

Lemma streaming_angles (body : jsstring) :
  angles (streaming_markup body) = (2 + angles body)%nat.
Proof.
  unfold streaming_markup. rewrite !count_occ_app.
  vm_compute (angles (lit "<div class=")).
  vm_compute (angles (quoted (lit "mermaid-streaming"))).
  vm_compute (angles (lit ">")).
  vm_compute (angles (lit "</div>")).
  lia.
Qed.

Lemma diagram_angles (fingerprint body : jsstring) :
  angles (diagram_markup fingerprint body)
  = (2 + angles fingerprint + angles body)%nat.
Proof.
  unfold diagram_markup. rewrite !count_occ_app.
  unfold quoted at 2. cbn [app]. rewrite count_occ_cons_neq by discriminate.
  rewrite count_occ_app.
  vm_compute (angles (lit "<div class=")).
  vm_compute (angles (quoted (lit "mermaid"))).
  vm_compute (angles (lit " data-code=")).
  vm_compute (angles [QUOTE]).
  vm_compute (angles (lit ">")).
  vm_compute (angles (lit "</div>")).
  lia.
Qed.

(** X25 — In v1.2.0 the code of a block adds no tag to the markup, unless
    highlight.js has rendered it: a mermaid block comes out as one [div]
    and any other block, when the language is absent or unknown or the
    highlighter throws, as [pre] around [code], whatever angle brackets
    the code holds.  v1.1.0 puts the code of such a block into the markup
    as it is, with all its angle brackets. *)
Theorem renderer_code_adds_no_tag (latest : jsval) (code : jsstring) (lang : jsval) :
  let l := match lang with JSString l => l | _ => [] end in
  (l = lit "mermaid" -> angles (code_of v1_2_0 latest code lang) = 2%nat)
  /\ (l <> lit "mermaid" ->
      falsy lang = true \/ hljs_getLanguage l = false
      \/ (exists e, hljs_highlight code l = Throw e) ->
      angles (code_of v1_2_0 latest code lang) = 4%nat
      /\ angles (code_of v1_1_0 latest code lang) = (4 + angles code)%nat).
Proof.
  intros l. split.
  - intros Hl. unfold renderer_code. fold l. rewrite Hl, str_eqb_refl.
    destruct (negb _).
    + now rewrite streaming_angles, escapeHtml_opens_no_tag.
    + now rewrite diagram_angles, hashCode_opens_no_tag, escapeHtml_opens_no_tag.
  - intros Hl Hplain.
    assert (Hm : str_eqb l (lit "mermaid") = false).
    { destruct (str_eqb l (lit "mermaid")) eqn:E; [|reflexivity].
      apply str_eqb_eq in E. contradiction. }
    assert (H2 : code_of v1_2_0 latest code lang
                 = plain_code_markup (_escapeHtml code)).
    { unfold renderer_code. fold l. rewrite Hm.
      destruct Hplain as [H|[H|[e H]]]; rewrite H;
        cbn [negb andb]; rewrite ?andb_false_r; try reflexivity.
      now destruct (negb (falsy lang) && hljs_getLanguage l). }
    assert (H1 : code_of v1_1_0 latest code lang = plain_code_markup code).
    { unfold renderer_code. fold l.
      replace (match lang with JSString l0 => str_eqb l0 (lit "mermaid") | _ => false end)
        with false by (subst l; destruct lang; congruence).
      destruct Hplain as [H|[H|[e H]]]; rewrite H;
        cbn [negb andb]; rewrite ?andb_false_r; try reflexivity.
      now destruct (negb (falsy lang) && hljs_getLanguage l). }
    rewrite H2, H1, !plain_code_angles, escapeHtml_opens_no_tag. split; lia.
Qed.

End RendererFacts.

Lemma renderer_code_adds_no_tag_witness :
  count_occ Z.eq_dec
    (renderer_code v1_2_0 Sample.no_language Sample.highlight_plain
       Sample.decode_plain JSNull (lit "<b>bold</b>") (JSString (lit "html")))
    60
  = 4%nat
  /\ count_occ Z.eq_dec
       (renderer_code v1_1_0 Sample.no_language Sample.highlight_plain
          Sample.decode_plain JSNull (lit "<b>bold</b>") (JSString (lit "html")))
       60
     = (4 + count_occ Z.eq_dec (lit "<b>bold</b>") 60%Z)%nat.
Proof.
  refine (proj2 (renderer_code_adds_no_tag Sample.no_language Sample.highlight_plain
                   Sample.decode_plain JSNull (lit "<b>bold</b>")
                   (JSString (lit "html"))) _ _).
  - discriminate.
  - right. left. reflexivity.
Defined.
